(** * PLoM (plom.py): a shallow embedding of the numerical pipeline

    The development follows [src/plom.py]: the scaler, the PCA truncation
    rule, the diffusion-maps dimension and bandwidth search, the sample
    projection, the KDE gradient, the Ito step, the conditioning weights and
    the sample getter.

    Conventions.
    - numpy's float64 arithmetic is idealised as exact arithmetic on [R].
      The one place where real arithmetic has no value, a quotient by zero,
      is kept visible: [np_divide] answers a [float64] that is either a
      finite real or one of numpy's [inf], [-inf], [nan] (signed zeros are
      not distinguished).
    - a 2-D ndarray is the list of its rows; a 1-D ndarray is a list.  An
      array with zero rows has no column count of its own in this
      representation ([ncols [] = 0]).
    - numpy raises [ValueError] on a shape mismatch; operations that can
      raise answer an [option], [None] standing for the exception or for a
      non finite result.  Broadcasting is modelled where both operands have
      the same extent along the broadcast axis; numpy's stretching of an
      axis of extent one is not modelled and is answered [None].
    - library routines outside the repository (LAPACK's inverse, the
      eigen-solver, the random generator) are represented by their
      contract, see [linalg_inv], [randn] and the dimension oracle of
      [_get_dmaps_optimal_epsilon]. *)

From Stdlib Require Import String.
From Stdlib Require Import Reals Lra Lia ZArith Bool Arith List.
From Stdlib Require Import ClassicalEpsilon.
Import ListNotations.
Local Open Scope R_scope.

(** ** Error monad *)

Definition bind {A B : Type} (x : option A) (f : A -> option B) : option B :=
  match x with
  | Some a => f a
  | None => None
  end.

Notation "x <- e ;; k" := (bind e (fun x => k))
  (at level 61, e at next level, right associativity).
Notation "' p <- e ;; k" := (bind e (fun p => k))
  (at level 61, p pattern, e at next level, right associativity).

(** ** Scalars *)

Inductive float64 : Type :=
| Finite (r : R)
| PosInf
| NegInf
| NaN.

(** [x / y] on numpy scalars: a zero divisor gives [inf], [-inf] or [nan]. *)
Definition np_divide (x y : R) : float64 :=
  if Req_dec_T y 0 then
    if Rlt_dec 0 x then PosInf
    else if Rlt_dec x 0 then NegInf
    else NaN
  else Finite (x / y).

(** [x < y] and [x > y] for a quotient [x] and a finite [y]; every comparison
    with [nan] is false. *)
Definition float_lt (x : float64) (y : R) : bool :=
  match x with
  | Finite r => if Rlt_dec r y then true else false
  | NegInf => true
  | PosInf | NaN => false
  end.

Definition float_gt (x : float64) (y : R) : bool :=
  match x with
  | Finite r => if Rlt_dec y r then true else false
  | PosInf => true
  | NegInf | NaN => false
  end.

Definition finite (x : float64) : option R :=
  match x with
  | Finite r => Some r
  | _ => None
  end.

(** A quotient that the rest of the computation consumes as a number. *)
Definition div (x y : R) : option R := finite (np_divide x y).

(** [x ** y] on floats, for a base that is not negative.  A negative base
    with a fractional exponent is complex in Python and is not modelled. *)
Definition float_pow (x y : R) : option R :=
  if Rlt_dec 0 x then Some (Rpower x y)
  else if Req_dec_T x 0 then
    if Rlt_dec 0 y then Some 0
    else if Req_dec_T y 0 then Some 1
    else None
  else None.

(** [np.sqrt]: [nan] on a negative argument. *)
Definition np_sqrt (x : R) : option R :=
  if Rle_dec 0 x then Some (sqrt x) else None.

(** ** Arrays *)

Abbreviation array1 := (list R) (only parsing).
Abbreviation array2 := (list (list R)) (only parsing).

Definition nrows (A : array2) : nat := length A.
Definition ncols (A : array2) : nat :=
  match A with
  | [] => 0%nat
  | r :: _ => length r
  end.

Definition item (v : array1) (i : nat) : R := nth i v 0.
Definition entry (A : array2) (i j : nat) : R := nth j (nth i A []) 0.

Definition mk_array1 (n : nat) (f : nat -> R) : array1 := map f (seq 0 n).
Definition mk_array2 (r c : nat) (f : nat -> nat -> R) : array2 :=
  map (fun i => mk_array1 c (f i)) (seq 0 r).

(** [A] is a genuine [r] x [c] array: [r] rows of [c] entries each. *)
Definition rect (r c : nat) (A : array2) : Prop :=
  length A = r /\ Forall (fun row => length row = c) A.

Definition Rsum (l : list R) : R := fold_right Rplus 0 l.

(** Python's [l[start:]], negative [start] counting from the end. *)
Definition py_slice_from {A : Type} (start : Z) (l : list A) : list A :=
  if (start <? 0)%Z
  then skipn (Z.to_nat (Z.of_nat (length l) + start)) l
  else skipn (Z.to_nat start) l.

(** Python's [l[:stop]] for [stop >= 0]. *)
Definition py_slice_to {A : Type} (stop : nat) (l : list A) : list A :=
  firstn stop l.

Fixpoint map2 {A B C : Type} (f : A -> B -> C) (l1 : list A) (l2 : list B)
  : list C :=
  match l1, l2 with
  | a :: l1', b :: l2' => f a b :: map2 f l1' l2'
  | _, _ => []
  end.

(** Collects the entries of an array computed entry by entry; the array has
    a value when all of its entries are finite. *)
Fixpoint all_some {A : Type} (l : list (option A)) : option (list A) :=
  match l with
  | [] => Some []
  | x :: rest =>
      a <- x ;;
      r <- all_some rest ;;
      Some (a :: r)
  end.

Definition shape (A : array2) : nat * nat := (nrows A, ncols A).

(** [A.T] *)
Definition transpose (A : array2) : array2 :=
  mk_array2 (ncols A) (nrows A) (fun j i => entry A i j).

(** The matrix product, entry [(i, j)] being the sum over [k] of
    [A[i,k] * B[k,j]]. *)
Definition matmul (A B : array2) : array2 :=
  mk_array2 (nrows A) (ncols B)
    (fun i j => Rsum (mk_array1 (ncols A) (fun k => entry A i k * entry B k j))).

(** [np.dot(A, B)] on 2-D arrays; [ValueError] unless the inner extents
    agree. *)
Definition np_dot (A B : array2) : option array2 :=
  if (ncols A =? nrows B)%nat then Some (matmul A B) else None.

(** [np.dot(A, v)] for a 2-D [A] and a 1-D [v]. *)
Definition np_dot_vec (A : array2) (v : array1) : option array1 :=
  if (ncols A =? length v)%nat
  then Some (mk_array1 (nrows A)
               (fun i => Rsum (mk_array1 (ncols A)
                                 (fun k => entry A i k * item v k))))
  else None.

(** Entrywise operation on two 2-D arrays of one shape. *)
Definition mat_op (f : R -> R -> R) (A B : array2) : option array2 :=
  if ((nrows A =? nrows B) && (ncols A =? ncols B))%nat
  then Some (map2 (map2 f) A B)
  else None.

Definition np_add : array2 -> array2 -> option array2 := mat_op Rplus.

(** Entrywise operation on two 1-D arrays of one length. *)
Definition vec_op (f : R -> R -> R) (u v : array1) : option array1 :=
  if (length u =? length v)%nat then Some (map2 f u v) else None.

(** [c * A] for a scalar [c]. *)
Definition smul (c : R) (A : array2) : array2 := map (map (Rmult c)) A.

(** [A op v] where the 1-D [v] is applied to every row of [A]. *)
Definition bcast_rows (f : R -> R -> R) (A : array2) (v : array1)
  : option array2 :=
  if (ncols A =? length v)%nat
  then Some (map (fun row => map2 f row v) A)
  else None.

(** [A / v], every row of [A] divided entry by entry by the 1-D [v]. *)
Definition bcast_rows_div (A : array2) (v : array1) : option array2 :=
  if (ncols A =? length v)%nat
  then all_some (map (fun row => all_some (map2 div row v)) A)
  else None.

(** [v / c] and [A / c] for a scalar [c]. *)
Definition vec_div_scalar (v : array1) (c : R) : option array1 :=
  all_some (map (fun x => div x c) v).

Definition arr_div_scalar (A : array2) (c : R) : option array2 :=
  all_some (map (fun row => vec_div_scalar row c) A).

(** [np.max(v)] and [np.min(v)] of a 1-D array; [ValueError] when empty. *)
Definition np_max (v : array1) : option R :=
  match v with
  | [] => None
  | x :: rest => Some (fold_left Rmax rest x)
  end.

(** [np.min(X, axis=0)] and [np.max(X, axis=0)]; [ValueError] when [X] has
    no row. *)
Definition np_min0 (X : array2) : option array1 :=
  match X with
  | [] => None
  | r :: rest => Some (fold_left (map2 Rmin) rest r)
  end.

Definition np_max0 (X : array2) : option array1 :=
  match X with
  | [] => None
  | r :: rest => Some (fold_left (map2 Rmax) rest r)
  end.

Definition column (X : array2) (j : nat) : array1 :=
  map (fun row => item row j) X.

(** [np.mean(v)]: [nan] on an empty array. *)
Definition np_mean (v : array1) : option R :=
  div (Rsum v) (INR (length v)).

(** [np.std(v)], the square root of the mean squared deviation. *)
Definition np_std (v : array1) : option R :=
  mu <- np_mean v ;;
  var <- np_mean (map (fun x => (Rabs (x - mu)) ^ 2) v) ;;
  np_sqrt var.

(** [np.mean(X, axis=0)] and [np.std(X, axis=0)], column by column. *)
Definition np_mean0 (X : array2) : option array1 :=
  all_some (map (fun j => np_mean (column X j)) (seq 0 (ncols X))).

Definition np_std0 (X : array2) : option array1 :=
  all_some (map (fun j => np_std (column X j)) (seq 0 (ncols X))).

(** [np.linalg.norm(X, axis=0)], the Euclidean norms of the columns, and
    [np.linalg.norm(X, axis=1)], those of the rows. *)
Definition norm_axis0 (X : array2) : array1 :=
  mk_array1 (ncols X) (fun k => sqrt (Rsum (map (fun x => x ^ 2) (column X k)))).

Definition norm_axis1 (X : array2) : array1 :=
  map (fun row => sqrt (Rsum (map (fun x => x ^ 2) row))) X.

Definition identity (n : nat) : array2 :=
  mk_array2 n n (fun i j => if (i =? j)%nat then 1 else 0).


(** [np.linalg.inv] is LAPACK's.  It is represented by its contract in exact
    arithmetic: the two-sided inverse of a square matrix when there is one,
    [LinAlgError] otherwise. *)
Definition is_inverse (M W : array2) : Prop :=
  exists n : nat,
    rect n n M /\ rect n n W /\
    matmul M W = identity n /\ matmul W M = identity n.

Definition linalg_inv (M : array2) : option array2 :=
  match excluded_middle_informative (exists W, is_inverse M W) with
  | left ex => Some (proj1_sig (constructive_indefinite_description _ ex))
  | right _ => None
  end.

(** [np.random.randn(rows, cols)]: the generator is a stream of standard
    normal draws of which the call consumes [rows * cols], row by row. *)
Record rng : Type := mk_rng { normal_stream : nat -> R; consumed : nat }.

Definition randn (rows cols : nat) (g : rng) : array2 * rng :=
  (mk_array2 rows cols
     (fun i j => normal_stream g (consumed g + i * cols + j)%nat),
   mk_rng (normal_stream g) (consumed g + rows * cols)%nat).

(** * The functions of plom.py *)

(** ** Scaling *)

(** [scale[scale == 0] = 1] *)
Definition replace_zeros (scale : array1) : array1 :=
  map (fun s => if Req_dec_T s 0 then 1 else s) scale.

Definition _scaleMinMax (X : array2) : option (array2 * array1 * array1) :=
  Xmin <- np_min0 X ;;
  Xmax <- np_max0 X ;;
  scale0 <- vec_op Rminus Xmax Xmin ;;
  let scale := replace_zeros scale0 in
  centred <- bcast_rows Rminus X Xmin ;;
  X_scaled <- bcast_rows_div centred scale ;;
  Some (X_scaled, Xmin, scale).

(** [_scaleNormalize].  The guard [scales[scales == 0] = 1] is embedded on the
    exact standard deviation, which is zero on every constant column.  In
    float64 the mean of a constant column need not be its entry (the mean of
    0.1, 0.1, 0.1 is 0.10000000000000002); the standard deviation is then a
    rounding residue, the guard of the source does not fire, and the scaled
    column is a constant other than zero.  The exact computation stands for
    the source on the columns that are not constant. *)
Definition _scaleNormalize (X : array2) : option (array2 * array1 * array1) :=
  means <- np_mean0 X ;;
  scales0 <- np_std0 X ;;
  let scales := replace_zeros scales0 in
  centred <- bcast_rows Rminus X means ;;
  X_scaled <- bcast_rows_div centred scales ;;
  Some (X_scaled, means, scales).

(** [X * scales + centers] *)
Definition _inverse_scale (X : array2) (centers scales : array1)
  : option array2 :=
  stretched <- bcast_rows Rmult X scales ;;
  bcast_rows Rplus stretched centers.

(** ** PCA: the truncation of the spectrum in [_pca]

    [_pca] diagonalises the covariance with [np.linalg.eigh] and then keeps
    part of the ascending eigenvalues; the truncation is embedded here as a
    function of the eigenvalues. *)

(** The loop of the ['cum_energy'] rule over [i in range(len(eigvals)+1)]:
    [eigvals_trunc] stays unbound when no [i] passes the test. *)
Fixpoint cum_energy_scan (eigvals : array1) (tot_eigvals threshold : R)
  (candidates : list nat) : option array1 :=
  match candidates with
  | [] => None
  | i :: rest =>
      if float_gt (np_divide (Rsum (py_slice_to i eigvals)) tot_eigvals)
           threshold
      then Some (py_slice_from (Z.of_nat i - 1) eigvals)
      else cum_energy_scan eigvals tot_eigvals threshold rest
  end.

Definition _pca_eigvals_trunc (eigvals : array1) (method : string)
  (cumulative_energy eigenvalues_cutoff : R) (pca_dim : Z) : option array1 :=
  if String.eqb method "eigv_cutoff" then
    Some (filter (fun x => if Rlt_dec eigenvalues_cutoff x then true else false)
            eigvals)
  else if String.eqb method "cum_energy" then
    let tot_eigvals := Rsum eigvals in
    cum_energy_scan eigvals tot_eigvals (1 - cumulative_energy)
      (seq 0 (length eigvals + 1))
  else if String.eqb method "pca_dim" then
    Some (py_slice_from (- pca_dim) eigvals)
  else None.

(** ** Sample projection *)

Definition _sample_projection (H g : array2) : option (array2 * array2) :=
  gram <- np_dot (transpose g) g ;;
  gram_inv <- linalg_inv gram ;;
  a <- np_dot g gram_inv ;;
  let H := if negb (ncols H =? nrows a)%nat then transpose H else H in
  Z <- np_dot H a ;;
  Some (Z, a).

Definition _inverse_sample_projection (Z g : array2) : option array2 :=
  np_dot g (transpose Z).

(** ** Diffusion maps: manifold dimension and kernel width *)

(** The loop over [a in range(2, len(eigvalues))]; [m] keeps its initial
    value when the loop does not break. *)
Fixpoint dimension_scan (eigvalues : array1) (L : R) (candidates : list nat)
  (m : Z) : Z :=
  match candidates with
  | [] => m
  | a :: rest =>
      let r := np_divide (item eigvalues a) (item eigvalues 1) in
      if float_lt r L then (Z.of_nat a - 1)%Z
      else dimension_scan eigvalues L rest m
  end.

Definition _get_dmaps_optimal_dimension (eigvalues : array1) (L : R) : Z :=
  dimension_scan eigvalues L (seq 2 (length eigvalues - 2))
    (Z.of_nat (length eigvalues) - 1)%Z.

Definition epsilon_list : list R := [1/10; 1; 2; 8; 16; 32; 64; 100; 10000].
Definition eps_for_m_target : list R := [1; 10; 100; 1000; 10000].

(** [min(l)] and [l[np.argmin(l)]]-style selection: the first position of the
    minimum. *)
Fixpoint argmin_from (best : Z) (best_at : nat) (at_ : nat) (l : list Z)
  : Z * nat :=
  match l with
  | [] => (best, best_at)
  | x :: rest =>
      if (x <? best)%Z then argmin_from x at_ (S at_) rest
      else argmin_from best best_at (S at_) rest
  end.

Definition min_argmin (l : list Z) : option (Z * nat) :=
  match l with
  | [] => None
  | x :: rest => Some (argmin_from x 0%nat 1%nat rest)
  end.

Section OptimalEpsilon.

(** [dim_from_epsilon eps] stands for
    [_get_dmaps_dim_from_epsilon(H, eps, kappa, L)], the dimension read off the
    spectrum that [np.linalg.eigh] returns for the kernel of width [eps]: the
    search sees the data only through it.  The distance is the default
    ['standard'] one throughout (the source passes [dist_method] on for the
    probe list only). *)
Variable dim_from_epsilon : R -> Z.

(** The [for eps in epsilon_list[1:]] loop. *)
Fixpoint bracket_scan (candidates : list R) (m_target : Z)
  (lower_bound upper_bound : R) : R * R :=
  match candidates with
  | [] => (lower_bound, upper_bound)
  | eps :: rest =>
      if (dim_from_epsilon eps >? m_target)%Z
      then bracket_scan rest m_target eps upper_bound
      else (lower_bound, eps)
  end.

(** [while upper_bound - lower_bound > 0.5]; [fuel] bounds the number of
    iterations and [None] is its exhaustion. *)
Fixpoint bisection (fuel : nat) (m_target : Z) (lower_bound upper_bound : R)
  : option (R * R) :=
  if Rlt_dec (1/2) (upper_bound - lower_bound) then
    match fuel with
    | O => None
    | S fuel' =>
        let middle_bound := (lower_bound + upper_bound) / 2 in
        if (dim_from_epsilon middle_bound >? m_target)%Z
        then bisection fuel' m_target middle_bound upper_bound
        else bisection fuel' m_target lower_bound middle_bound
    end
  else Some (lower_bound, upper_bound).

(** [while m > m_target: lower_bound += 0.1], with fuel as above. *)
Fixpoint linear_scan (fuel : nat) (m_target : Z) (lower_bound : R)
  : option R :=
  if (dim_from_epsilon lower_bound >? m_target)%Z then
    match fuel with
    | O => None
    | S fuel' => linear_scan fuel' m_target (lower_bound + 1/10)
    end
  else Some lower_bound.

(** The bracket [(lower_bound, upper_bound)] at the end of the bisection,
    with [m_target]. *)
Definition epsilon_bracket (fuel : nat) : option (Z * R * R) :=
  let m_target_list := map dim_from_epsilon eps_for_m_target in
  '(m_target, at_) <- min_argmin m_target_list ;;
  let upper_bound := nth at_ eps_for_m_target 0 in
  let lower_bound := nth 0 epsilon_list 0 in
  let '(lower_bound, upper_bound) :=
    bracket_scan (tl epsilon_list) m_target lower_bound upper_bound in
  '(lower_bound, upper_bound) <- bisection fuel m_target lower_bound upper_bound ;;
  Some (m_target, lower_bound, upper_bound).

(** Returns [(epsilon, m_target)]; the log [eps_vs_m], which the search
    never reads, is left out. *)
Definition _get_dmaps_optimal_epsilon (fuel : nat) : option (R * Z) :=
  '(m_target, lower_bound, _) <- epsilon_bracket fuel ;;
  epsilon <- linear_scan fuel m_target lower_bound ;;
  Some (epsilon, m_target).

End OptimalEpsilon.

(** ** Gradient of the KDE potential *)

(** [s = (4 / (N*(2+nu))) ** (1/(nu+4)) * kde_bw_factor] and
    [shat = s / np.sqrt(s**2 + (N-1)/N)]. *)
Definition kde_bandwidths (nu N : nat) (kde_bw_factor : R) : option (R * R) :=
  base <- div 4 (INR (N * (2 + nu))) ;;
  p <- float_pow base (1 / INR (nu + 4)) ;;
  let s := p * kde_bw_factor in
  frac <- div (INR N - 1) (INR N) ;;
  root <- np_sqrt (s ^ 2 + frac) ;;
  shat <- div s root ;;
  Some (s, shat).

(** The body shared by [method == 1] and [method == 2] (joint KDE). *)
Definition joint_kde_gradient (H u : array2) (kde_bw_factor : R)
  : option array2 :=
  let '(nu, N) := shape H in
  '(s, shat) <- kde_bandwidths nu N kde_bw_factor ;;
  scaled_H <- arr_div_scalar (map (map (fun h => h * shat)) H) s ;;
  dist_mat_list <-
    all_some (map (fun x =>
                     d <- bcast_rows Rminus (transpose scaled_H) x ;;
                     Some (transpose d))
                (transpose u)) ;;
  c <- div (-1) (2 * shat ^ 2) ;;
  let norms_list :=
    map (fun x => map (fun n => exp (c * n ^ 2)) (norm_axis0 x)) dist_mat_list in
  q_list <- vec_div_scalar (map Rsum norms_list) (INR N) ;;
  product <- all_some (map2 np_dot_vec dist_mat_list norms_list) ;;
  scaled <- arr_div_scalar product (shat ^ 2) ;;
  dq_list <- arr_div_scalar scaled (INR N) ;;
  pot_T <- all_some (map2 (fun row q => vec_div_scalar row q) dq_list q_list) ;;
  Some (transpose pot_T).

(** Methods 3 to 11 are experimental variants of the same potential which
    this development does not embed; like an unknown method number, for which
    Python leaves [pot] unbound, they have no value here. *)
Definition _get_L (H u : array2) (kde_bw_factor : R) (method : nat)
  : option array2 :=
  match method with
  | 1%nat | 2%nat => joint_kde_gradient H u kde_bw_factor
  | _ => None
  end.

(** ** One step of the Ito integrator *)

Definition _simulate_ito_step (Z Y H basis a : array2) (f0 dr : R)
  (kde_bw_factor : R) (pot_method : nat) (g : rng)
  : option (array2 * array2 * rng) :=
  let '(nu, N) := shape H in
  let b := f0 * dr / 4 in
  root_dr <- float_pow dr (1/2) ;;
  let '(draw, g') := randn nu N g in
  let Weiner := smul root_dr draw in
  dW <- np_dot Weiner a ;;
  Zhalf <- np_add Z (smul (dr / 2) Y) ;;
  u <- np_dot Zhalf (transpose basis) ;;
  pot <- _get_L H u kde_bw_factor pot_method ;;
  L <- np_dot pot a ;;
  c_Y <- div (1 - b) (1 + b) ;;
  c_L <- div dr (1 + b) ;;
  root_f0 <- np_sqrt f0 ;;
  c_W <- div root_f0 (1 + b) ;;
  drift <- np_add (smul c_Y Y) (smul c_L L) ;;
  Ynext <- np_add drift (smul c_W dW) ;;
  Znext <- np_add Zhalf (smul (dr / 2) Ynext) ;;
  Some (Znext, Ynext, g').

(** ** The PLoM dictionary and the sample getter *)

#[warnings="-register-all"]
Inductive pyval : Type :=
| PyNone
| PyBool (b : bool)
| PyInt (z : Z)
| PyFloat (r : R)
| PyStr (s : string)
| PyArray (a : array2)
| PyDict (d : list (string * pyval)).

Definition dict : Type := list (string * pyval).

Fixpoint dict_get (d : dict) (key : string) : option pyval :=
  match d with
  | [] => None
  | (k, v) :: rest => if String.eqb k key then Some v else dict_get rest key
  end.

(** [d[key] = v] *)
Fixpoint dict_set (d : dict) (key : string) (v : pyval) : dict :=
  match d with
  | [] => [(key, v)]
  | (k, w) :: rest =>
      if String.eqb k key then (k, v) :: rest
      else (k, w) :: dict_set rest key v
  end.

Inductive exn : Type :=
| TypeError
| ValueError
| AttributeError
| KeyError
| IndexError
| ZeroDivisionError
| Exception_.

Inductive result (A : Type) : Type :=
| Ok (a : A)
| Raise (e : exn).

Arguments Ok {A} a.
Arguments Raise {A} e.

Definition rbind {A B : Type} (x : result A) (f : A -> result B) : result B :=
  match x with
  | Ok a => f a
  | Raise e => Raise e
  end.

(** [v[key]] for a string key. *)
Definition subscript (v : pyval) (key : string) : result pyval :=
  match v with
  | PyDict d =>
      match dict_get d key with
      | Some x => Ok x
      | None => Raise KeyError
      end
  | PyArray _ => Raise IndexError
  | _ => Raise TypeError
  end.

(** [v.shape[0]] *)
Definition shape0 (v : pyval) : result Z :=
  match v with
  | PyArray a => Ok (Z.of_nat (nrows a))
  | _ => Raise AttributeError
  end.

(** [isinstance(k, int)]; [bool] is a subclass of [int]. *)
Definition as_int (k : pyval) : option Z :=
  match k with
  | PyInt z => Some z
  | PyBool b => Some (if b then 1 else 0)%Z
  | _ => None
  end.

Open Scope string_scope.

(** [initialize(training=...)], the other arguments at their defaults. *)
Definition initialize (training : pyval) : pyval :=
  let inp_params_dict :=
    [("pca_cum_energy", PyFloat (1 - 1 / 100000));
     ("pca_eigv_cutoff", PyInt 0);
     ("pca_dim", PyInt 1);
     ("dmaps_epsilon", PyStr "auto");
     ("dmaps_kappa", PyInt 1);
     ("dmaps_L", PyFloat (1 / 10));
     ("ito_f0", PyInt 1);
     ("ito_dr", PyFloat (1 / 10));
     ("ito_steps", PyStr "auto");
     ("ito_kde_bw_factor", PyInt 1);
     ("ito_num_samples", PyInt 1)] in
  let options_dict :=
    [("scaling", PyBool true);
     ("scaling_method", PyStr "Normalization");
     ("pca", PyBool true);
     ("pca_method", PyStr "cum_energy");
     ("pca_scale_evecs", PyBool true);
     ("dmaps", PyBool true);
     ("dmap_first_evec", PyBool false);
     ("dmaps_m_override", PyInt 0);
     ("dmaps_dist_method", PyStr "standard");
     ("projection", PyBool true);
     ("sampling", PyBool true);
     ("projection_source", PyStr "pca");
     ("projection_target", PyStr "dmaps");
     ("ito_pot_method", PyInt 2);
     ("ito_kde_bw_factor", PyInt 1);
     ("parallel", PyBool false);
     ("n_jobs", PyInt (-1));
     ("save_samples", PyBool true);
     ("samples_fname", PyNone);
     ("verbose", PyBool true)] in
  let scaling_dict :=
    [("training", PyNone); ("centers", PyNone); ("scales", PyNone);
     ("reconst_training", PyNone); ("augmented", PyNone)] in
  let pca_dict :=
    [("training", PyNone); ("scaled_evecs_inv", PyNone);
     ("scaled_evecs", PyNone); ("evecs", PyNone); ("mean", PyNone);
     ("eigvals", PyNone); ("eigvals_trunc", PyNone);
     ("reconst_training", PyNone); ("augmented", PyNone)] in
  let dmaps_dict :=
    [("training", PyNone); ("eigenvectors", PyNone); ("eigenvalues", PyNone);
     ("dimension", PyNone); ("epsilon", PyNone); ("basis", PyNone);
     ("reduced_basis", PyNone); ("eps_vs_m", PyNone)] in
  let ito_dict :=
    [("Z0", PyNone); ("a", PyNone); ("Zs", PyNone); ("Zs_steps", PyNone);
     ("t", PyNone)] in
  let data_dict :=
    [("training", training); ("augmented", PyNone);
     ("reconst_training", PyNone); ("rmse", PyNone)] in
  PyDict
    [("job_desc", PyStr "Job 1");
     ("data", PyDict data_dict);
     ("input", PyDict inp_params_dict);
     ("options", PyDict options_dict);
     ("scaling", PyDict scaling_dict);
     ("pca", PyDict pca_dict);
     ("dmaps", PyDict dmaps_dict);
     ("ito", PyDict ito_dict);
     ("summary", PyNone)].

(** [plom_dict[outer][inner] = v] on a dictionary of dictionaries; anything
    else is left as it is. *)
Definition set_item2 (plom_dict : pyval) (outer inner : string) (v : pyval)
  : pyval :=
  match plom_dict with
  | PyDict d =>
      match dict_get d outer with
      | Some (PyDict sub) => PyDict (dict_set d outer (PyDict (dict_set sub inner v)))
      | _ => plom_dict
      end
  | _ => plom_dict
  end.

(** [get_samples].  The message of the last exception is built first, with
    [int(samples_size/train_size)]: a training set without rows raises
    [ZeroDivisionError] there instead. *)
Definition get_samples (plom_dict k : pyval) : result array2 :=
  match as_int k with
  | None => Raise TypeError
  | Some k =>
      if (k <? 0)%Z then Raise ValueError
      else if (k =? 0)%Z then
        match rbind (subscript plom_dict "data")
                (fun data => subscript data "augmented") with
        | Raise e => Raise e
        | Ok PyNone => Raise ValueError
        | Ok (PyArray samples) => Ok samples
        | Ok _ => Raise TypeError
        end
      else
        match rbind (rbind (subscript plom_dict "data")
                       (fun data => subscript data "training")) shape0 with
        | Raise _ => Raise AttributeError
        | Ok train_size =>
            match rbind (subscript plom_dict "data")
                    (fun data => subscript data "augmented") with
            | Ok (PyArray augmented) =>
                let samples_size := Z.of_nat (nrows augmented) in
                if (k * train_size <? samples_size)%Z
                then Ok (py_slice_to (Z.to_nat (k * train_size)) augmented)
                else if (train_size =? 0)%Z then Raise ZeroDivisionError
                else Raise Exception_
            | _ => Raise AttributeError
            end
        end
  end.

Close Scope string_scope.

(** ** Conditioning weights *)

(** The sequential path ([parallel=False]) on a 2-D [W]. *)
Definition _get_conditional_weights (W : array2) (w0 : array1) (sw : option R)
  (nq : nat) : option array1 :=
  let '(Nsim, nw) := shape W in
  w_std <- np_std0 W ;;
  sw <- match sw with
        | Some sw => Some sw
        | None =>
            base <- div 4 (INR (Nsim * (2 + nw + nq))) ;;
            float_pow base (1 / INR (4 + nw + nq))
        end ;;
  centred <- bcast_rows Rminus W w0 ;;
  standardized <- bcast_rows_div centred w_std ;;
  c <- div (-1) (2 * sw ^ 2) ;;
  let w_norms := map (fun n => c * n ^ 2) (norm_axis1 standardized) in
  top <- np_max w_norms ;;
  let w_dist := map (fun x => exp (x - top)) w_norms in
  let w_dist_tot := Rsum w_dist in
  vec_div_scalar w_dist w_dist_tot.

(** * The statements of the specification *)

(** The sum of [f k] over [k < n]. *)
Definition sum_n (n : nat) (f : nat -> R) : R := Rsum (mk_array1 n f).

(** ** Manifold dimension, in the words of the specification: the smallest
    [i - 1], for [i] from [2] to [N - 1], such that [mu_(i+1) / mu_1 < L]. *)
Definition claimed_dimension (mu : array1) (L : R) (m : Z) : Prop :=
  exists i : nat,
    (2 <= i <= length mu - 1)%nat /\
    item mu (i + 1) / item mu 1 < L /\
    (forall i' : nat, (2 <= i' < i)%nat ->
                      ~ item mu (i' + 1) / item mu 1 < L) /\
    m = (Z.of_nat i - 1)%Z.

(** ** Cumulative energy, in the words of the specification: the smallest
    [nu] such that the [nu] largest eigenvalues carry a share of at least
    [E] of the total. *)

(** The [nu] largest of the ascending eigenvalues. *)
Definition top_eigvals (nu : nat) (eigvals : array1) : array1 :=
  skipn (length eigvals - nu) eigvals.

Definition energy_share (nu : nat) (eigvals : array1) : R :=
  Rsum (top_eigvals nu eigvals) / Rsum eigvals.

Definition smallest_cum_energy_dim (eigvals : array1) (E : R) (nu : nat)
  : Prop :=
  (nu <= length eigvals)%nat /\
  E <= energy_share nu eigvals /\
  forall nu' : nat, (nu' < nu)%nat -> energy_share nu' eigvals < E.

(** ** The gradient of the log-density, in the words of the specification *)

Section KDE.

Variables (H u : array2) (beta : R).

Let nu : nat := nrows H.
Let N : nat := ncols H.

Definition silverman_s : R :=
  Rpower (4 / (INR N * (2 + INR nu))) (1 / (INR nu + 4)) * beta.

Definition silverman_shat : R :=
  silverman_s / sqrt (silverman_s ^ 2 + (INR N - 1) / INR N).

(** Component [i] of [r_(k,l) = (shat/s) h_k - u_l]. *)
Definition kde_r (k l i : nat) : R :=
  (silverman_shat / silverman_s) * entry H i k - entry u i l.

(** [w_(k,l) = exp(- |r_(k,l)|^2 / (2 shat^2))] *)
Definition kde_w (k l : nat) : R :=
  exp (- sum_n nu (fun i => kde_r k l i ^ 2) / (2 * silverman_shat ^ 2)).

(** [q_l = (1/N) sum_k w_(k,l)] *)
Definition kde_q (l : nat) : R :=
  (1 / INR N) * sum_n N (fun k => kde_w k l).

(** Component [i] of [grad q_l = (1/(N shat^2)) sum_k r_(k,l) w_(k,l)]. *)
Definition kde_grad_q (l i : nat) : R :=
  (1 / (INR N * silverman_shat ^ 2)) * sum_n N (fun k => kde_r k l i * kde_w k l).

(** The [nu] x [M] matrix whose column [l] is [grad q_l / q_l]. *)
Definition grad_log_q : array2 :=
  mk_array2 nu (ncols u) (fun i l => kde_grad_q l i / kde_q l).

End KDE.

(** ** The discrete step, in the words of the specification *)

(** Entrywise sum of two matrices of one shape. *)
Definition madd (A B : array2) : array2 := map2 (map2 Rplus) A B.

Definition ito_step_spec (Z Y H g a : array2) (f0 dr beta : R)
  (draw : array2) : array2 * array2 :=
  let b := f0 * dr / 4 in
  let Z_half := madd Z (smul (dr / 2) Y) in
  let L := matmul (grad_log_q H (matmul Z_half (transpose g)) beta) a in
  let dW := smul (sqrt dr) (matmul draw a) in
  let Y_next :=
    madd (madd (smul ((1 - b) / (1 + b)) Y) (smul (dr / (1 + b)) L))
      (smul (sqrt f0 / (1 + b)) dW) in
  let Z_next := madd Z_half (smul (dr / 2) Y_next) in
  (Z_next, Y_next).

(** The force of the step: the projected gradient at the half position. *)
Definition ito_force (Z Y H g a : array2) (dr beta : R) : array2 :=
  matmul (grad_log_q H (matmul (madd Z (smul (dr / 2) Y)) (transpose g)) beta) a.

(** ** The automatic kernel width *)

(** [m*], the least dimension met on the probe list. *)
Definition probe_minimum (dim_from_epsilon : R -> Z) : Z :=
  fold_left Z.min (map dim_from_epsilon (tl eps_for_m_target))
    (dim_from_epsilon (hd 0 eps_for_m_target)).


(** * Further functions of plom.py *)

(** ** Reconstruction error *)

(** [np.mean(A)] over all the entries of a 2-D array. *)
Definition np_mean_all (A : array2) : option R := np_mean (concat A).

(** [mse(X, Y, squared=...)] *)
Definition mse (X Y : array2) (squared : bool) : option R :=
  difference <- mat_op Rminus X Y ;;
  error <- np_mean_all (map (map (fun d => d ^ 2)) difference) ;;
  if squared then Some error else np_sqrt error.

(** ** Walks of the Ito integrator *)

(** The loop [for j in range(0, t)] of [_simulate_ito_walk], with the list
    [steps] that it extends. *)
Fixpoint ito_walk_loop (t : nat) (Z Y H basis a : array2) (f0 dr : R)
  (kde_bw_factor : R) (pot_method : nat) (steps : list array2) (g : rng)
  : option (array2 * list array2 * rng) :=
  match t with
  | O => Some (Z, steps, g)
  | S t' =>
      '(Z', Y', g') <-
        _simulate_ito_step Z Y H basis a f0 dr kde_bw_factor pot_method g ;;
      ito_walk_loop t' Z' Y' H basis a f0 dr kde_bw_factor pot_method
        (steps ++ [Z']) g'
  end.

Definition _simulate_ito_walk (Z : array2) (t : BinNums.Z) (H basis a : array2)
  (f0 dr : R) (kde_bw_factor : R) (pot_method : nat) (g : rng)
  : option (array2 * list array2 * rng) :=
  let '(nu, N) := shape H in
  let '(draw, g') := randn nu N g in
  Y <- np_dot draw a ;;
  ito_walk_loop (Z.to_nat t) Z Y H basis a f0 dr kde_bw_factor pot_method [] g'.

(** [int(x)] on a finite float: truncation towards zero. *)
Definition py_int (x : R) : Z :=
  if Rle_dec 0 x then Int_part x else (- Int_part (- x))%Z.

(** The sequential loop [for i in range(n)] of [_simulate_entire_ito]. *)
Fixpoint ito_samples_loop (n : nat) (Z : array2) (t : BinNums.Z) (H basis a : array2)
  (f0 dr : R) (kde_bw_factor : R) (pot_method : nat)
  (Zs : list array2) (Zs_steps : list (list array2)) (g : rng)
  : option (list array2 * list (list array2) * rng) :=
  match n with
  | O => Some (Zs, Zs_steps, g)
  | S n' =>
      '(Zw, Z_steps, g') <-
        _simulate_ito_walk Z t H basis a f0 dr kde_bw_factor pot_method g ;;
      ito_samples_loop n' Z t H basis a f0 dr kde_bw_factor pot_method
        (Zs ++ [Zw]) (Zs_steps ++ [Z_steps]) g'
  end.

(** [_simulate_entire_ito] with [parallel=False]; [t = None] is ['auto'].
    The bandwidths [s], [shat] and [fac] only feed the log, but the quotient
    of Python integers [4 / (N*(2+nu))] raises when [N = 0]; the numpy
    quotients that follow it do not raise.  With ['auto'] the step count is
    [int(steps+1)], which raises on a non finite [steps]. *)
Definition _simulate_entire_ito (Z H basis a : array2) (f0 dr : R)
  (t : option BinNums.Z) (n : BinNums.Z) (kde_bw_factor : R)
  (pot_method : nat) (g : rng)
  : option (list array2 * list (list array2) * BinNums.Z * rng) :=
  let '(nu, N) := shape H in
  _ <- div 4 (INR (N * (2 + nu))) ;;
  t <- match t with
       | Some t => Some t
       | None =>
           q <- div (4 * ln 100) f0 ;;
           steps <- div q dr ;;
           Some (py_int (steps + 1))
       end ;;
  '(Zs, Zs_steps, g') <-
    ito_samples_loop (Z.to_nat n) Z t H basis a f0 dr kde_bw_factor
      pot_method [] [] g ;;
  Some (Zs, Zs_steps, t, g').

Definition _sampling (Z0 H basis a : array2) (f0 dr : R) (t : option Z)
  (num_samples : Z) (kde_bw_factor : R) (pot_method : nat) (g : rng)
  : option (list array2 * list (list array2) * Z * rng) :=
  _simulate_entire_ito Z0 H basis a f0 dr t num_samples kde_bw_factor
    pot_method g.

(** ** Conditional expectation *)

(** [X[:, cols]] for a list of column indices; [IndexError] beyond the last
    column. *)
Definition take_columns (X : array2) (cols : list nat) : option array2 :=
  if forallb (fun j => (j <? ncols X)%nat) cols
  then Some (map (fun row => map (fun j => item row j) cols) X)
  else None.

(** [X[:, j]] for one column index. *)
Definition take_column (X : array2) (j : nat) : option array1 :=
  if (j <? ncols X)%nat then Some (column X j) else None.

(** [np.dot(u, v)] on two 1-D arrays. *)
Definition vec_dot (u v : array1) : option R :=
  if (length u =? length v)%nat then Some (Rsum (map2 Rmult u v)) else None.

(** [_conditional_expectation] for a list [cond_cols] of conditioning
    columns and one column [qoi_cols]; returns [(expn, var)]. *)
Definition _conditional_expectation (X : array2) (qoi_cols : nat)
  (cond_cols : list nat) (cond_vals : array1) (sw : option R)
  : option (R * R) :=
  let Nsim := nrows X in
  let nw := length cond_cols in
  let nq := 1%nat in
  sw <- match sw with
        | Some sw => Some sw
        | None =>
            base <- div 4 (INR (Nsim * (2 + nw + nq))) ;;
            float_pow base (1 / INR (4 + nw + nq))
        end ;;
  W <- take_columns X cond_cols ;;
  weights <- _get_conditional_weights W cond_vals (Some sw) 1 ;;
  q <- take_column X qoi_cols ;;
  expn <- vec_dot weights q ;;
  second <- vec_dot weights (map2 Rmult q q) ;;
  Some (expn, second - expn ^ 2).

(** The weights in the words of the specification, without the shift by the
    largest exponent: [exp(x_i) / sum_k exp(x_k)] with
    [x_i = - |(W_i - w0) / std|^2 / (2 sw^2)]. *)
Definition weight_exponent (W : array2) (w0 w_std : array1) (sw : R) (i : nat)
  : R :=
  - Rsum (map (fun j => ((entry W i j - item w0 j) / item w_std j) ^ 2)
            (seq 0 (length w0)))
  / (2 * sw ^ 2).

Definition softmax_weights (W : array2) (w0 w_std : array1) (sw : R) : array1 :=
  map (fun i =>
         exp (weight_exponent W w0 w_std sw i)
         / Rsum (map (fun k => exp (weight_exponent W w0 w_std sw k))
                   (seq 0 (nrows W))))
    (seq 0 (nrows W)).

(** ** PCA *)

(** [np.cov] squeezes its result: for one variable it is a 0-d array. *)
Inductive cov_result : Type :=
| Cov0 (c : R)
| Cov2 (C : array2).

(** [np.cov(M)] for an [M] with one row per variable and one column per
    observation: the rows are centred on their averages and the products are
    scaled by [1 / fact], [fact] being the number of observations less one,
    or zero when that is not positive. *)
Definition np_cov (M : array2) : option cov_result :=
  if (nrows M =? 0)%nat then Some (Cov2 [])
  else
    avg <- all_some (map np_mean M) ;;
    let fact := INR (ncols M) - 1 in
    let fact := if Rle_dec fact 0 then 0 else fact in
    let centred := map2 (fun row mu => map (fun x => x - mu) row) M avg in
    let c := matmul centred (transpose centred) in
    scale <- div 1 fact ;;
    let c := smul scale c in
    if (nrows M =? 1)%nat then Some (Cov0 (entry c 0 0)) else Some (Cov2 c).

Section PCA.

(** [linalg_eigh C] stands for [np.linalg.eigh(C)] on a 2-D array: LAPACK's
    eigenvalues, in ascending order, and eigenvectors of a symmetric matrix,
    [n] values and an [n] x [n] matrix for an [n] x [n] argument.  On a 0-d
    array [np.linalg.eigh] raises [LinAlgError]. *)
Variable linalg_eigh : array2 -> option (array1 * array2).

(** Returns [(X_pca, scaled_eigvecs_inv, scaled_eigvecs, eigvecs, means,
    eigvals, eigvals_trunc)]. *)
Definition _pca (X : array2) (method : string)
  (cumulative_energy eigenvalues_cutoff : R) (pca_dim : Z) (scale_evecs : bool)
  : option (array2 * array2 * array2 * array2 * array1 * array1 * array1) :=
  let '(N, n) := shape X in
  means <- np_mean0 X ;;
  X <- bcast_rows Rminus X means ;;
  cov <- np_cov (transpose X) ;;
  '(eigvals, eigvecs) <- match cov with
                         | Cov0 _ => None
                         | Cov2 C => linalg_eigh C
                         end ;;
  eigvals_trunc <- _pca_eigvals_trunc eigvals method cumulative_energy
                     eigenvalues_cutoff pca_dim ;;
  let num_dropped_features :=
    (Z.of_nat n - Z.of_nat (length eigvals_trunc))%Z in
  let eigvecs := map (py_slice_from num_dropped_features) eigvecs in
  sqrt_eigvals <- all_some (map np_sqrt eigvals_trunc) ;;
  scaled_eigvecs <- bcast_rows_div eigvecs sqrt_eigvals ;;
  scaled_eigvecs_inv <- bcast_rows Rmult eigvecs sqrt_eigvals ;;
  X_pca <- (if scale_evecs
            then wide <- np_dot (transpose scaled_eigvecs) (transpose X) ;;
                 Some (transpose wide)
            else wide <- np_dot (transpose eigvecs) (transpose X) ;;
                 Some (transpose wide)) ;;
  Some (X_pca, scaled_eigvecs_inv, scaled_eigvecs, eigvecs, means, eigvals,
        eigvals_trunc).

End PCA.

(** [np.dot(X, eigvecs.T) + means] *)
Definition _inverse_pca (X eigvecs : array2) (means : array1) : option array2 :=
  projected <- np_dot X (transpose eigvecs) ;;
  bcast_rows Rplus projected means.

(** The sample covariance of the columns of [X], with the [N - 1]
    denominator. *)
Definition sample_covariance (X : array2) : array2 :=
  let N := nrows X in
  let mu := fun j => sum_n N (fun i => entry X i j) / INR N in
  mk_array2 (ncols X) (ncols X)
    (fun j k =>
       sum_n N (fun i => (entry X i j - mu j) * (entry X i k - mu k))
       / (INR N - 1)).

(** ** Diffusion maps: the basis *)

(** [np.sum(A, axis=0)], the sums of the columns. *)
Definition np_sum0 (A : array2) : array1 :=
  map (fun j => Rsum (column A j)) (seq 0 (ncols A)).

(** [np.diag(v)] for a 1-D [v]. *)
Definition np_diag (v : array1) : array2 :=
  mk_array2 (length v) (length v)
    (fun i j => if (i =? j)%nat then item v i else 0).

(** [A / v[:, None]], row [i] of [A] divided by [v[i]]. *)
Definition bcast_cols_div (A : array2) (v : array1) : option array2 :=
  if (nrows A =? length v)%nat
  then all_some (map2 vec_div_scalar A v)
  else None.

(** [A / (v[:, None] * v[None, :])] for a square [A]. *)
Definition outer_div (A : array2) (v : array1) : option array2 :=
  if ((nrows A =? length v) && (ncols A =? length v))%nat
  then all_some
         (map2 (fun row vi => all_some (map2 (fun x vj => div x (vi * vj)) row v))
            A v)
  else None.

(** Python's [l[start:stop]]: a negative index counts from the end, and both
    ends are clipped to the list. *)
Definition py_slice {A : Type} (start stop : Z) (l : list A) : list A :=
  let clip := fun i : Z =>
    if (i <? 0)%Z then Z.to_nat (Z.of_nat (length l) + i) else Z.to_nat i in
  skipn (clip start) (firstn (clip stop) l).

Section DMAPS.

(** [np.linalg.eigh], as for the PCA. *)
Variable linalg_eigh : array2 -> option (array1 * array2).

(** [_get_dmaps_basis] with the ['standard'] distance; [kappa] is a natural
    number.  Returns [(basis, values, vectors)], flipped to descending
    order. *)
Definition _get_dmaps_basis (H : array2) (epsilon : R) (kappa : nat)
  : option (array2 * array1 * array2) :=
  let distances :=
    map (fun a =>
           map (fun row => Rsum (map2 (fun x y => Rabs (x - y) ^ 2) row a)) H)
      H in
  exponents <- arr_div_scalar (map (map Ropp) distances) epsilon ;;
  let diffusions := map (map exp) exponents in
  scales <- all_some (map (fun s => float_pow s (1 / 2)) (np_sum0 diffusions)) ;;
  diag_inv <- linalg_inv (np_diag (map (fun s => s ^ 2) scales)) ;;
  P <- np_dot diag_inv diffusions ;;
  normalized <- outer_div diffusions scales ;;
  '(values, vectors) <- linalg_eigh normalized ;;
  basis_vectors <- bcast_cols_div vectors scales ;;
  basis <- bcast_rows Rmult basis_vectors (map (fun v => v ^ kappa) values) ;;
  Some (map (@rev R) basis, rev values, map (@rev R) vectors).

Definition _get_dmaps_dim_from_epsilon (H : array2) (epsilon : R) (kappa : nat)
  (L : R) : option Z :=
  '(basis, eigvals, eigvecs) <- _get_dmaps_basis H epsilon kappa ;;
  Some (_get_dmaps_optimal_dimension eigvals L).

(** The loop [for eps in epsilon] of [_dmaps]; the state is what the last
    pass bound, [None] before the first pass. *)
Fixpoint dmaps_epsilon_loop (X : array2) (epsilon : list R) (kappa : nat)
  (L : R) (m_override : Z)
  (bound : option (array2 * array1 * array2 * Z))
  : option (option (array2 * array1 * array2 * Z)) :=
  match epsilon with
  | [] => Some bound
  | eps :: rest =>
      '(basis, eigvals, eigvecs) <- _get_dmaps_basis X eps kappa ;;
      let m_opt := _get_dmaps_optimal_dimension eigvals L in
      let m := if (m_override >? 0)%Z then m_override else m_opt in
      dmaps_epsilon_loop X rest kappa L m_override
        (Some (basis, eigvals, eigvecs, m))
  end.

(** [_dmaps] on a specified [epsilon] (a float or a list of floats, through
    [np.atleast_1d]); the search of ['auto'] is [_get_dmaps_optimal_epsilon].
    Returns [(red_basis, basis, epsilon, m, eigvals, eigvecs)]; the log
    [eps_vs_m] is left out. *)
Definition _dmaps (X : array2) (epsilon : list R) (kappa : nat) (L : R)
  (first_evec : bool) (m_override : Z)
  : option (array2 * array2 * R * Z * array1 * array2) :=
  bound <- dmaps_epsilon_loop X epsilon kappa L m_override None ;;
  '(basis, eigvals, eigvecs, m) <- bound ;;
  let epsilon := last epsilon 0 in
  let '(s, e, m) :=
    if first_evec
    then let m := if (m_override =? 0)%Z then (m + 1)%Z else m in
         (0%Z, m, m)
    else (1%Z, (m + 1)%Z, m) in
  let red_basis := map (py_slice s e) basis in
  Some (red_basis, basis, epsilon, m, eigvals, eigvecs).

End DMAPS.

(** The kernel of the diffusion maps, its degrees and the normalised kernel,
    as tables. *)
Definition dmaps_kernel (H : array2) (epsilon : R) (i j : nat) : R :=
  exp (- Rsum (map2 (fun x y => Rabs (x - y) ^ 2) (nth j H []) (nth i H []))
       / epsilon).

Definition dmaps_degree (H : array2) (epsilon : R) (j : nat) : R :=
  sum_n (nrows H) (fun i => dmaps_kernel H epsilon i j).

Definition dmaps_normalized_kernel (H : array2) (epsilon : R) : array2 :=
  mk_array2 (nrows H) (nrows H)
    (fun i j =>
       dmaps_kernel H epsilon i j
       / (sqrt (dmaps_degree H epsilon i) * sqrt (dmaps_degree H epsilon j))).

(** ** Dimension functions for the kernel width search

    The search sees a data set through its dimension function: that of three
    samples on a line, and two functions given directly. *)

(** Three equally spaced points [0, s, 2 s] on a line.  With
    [a = exp(-s^2/eps)] their kernel is [[1, a, a^4], [a, 1, a], [a^4, a, 1]],
    the degrees are [1 + a + a^4] (twice) and [1 + 2 a], and the normalised
    kernel has the eigenvalues below, in the descending order in which
    [_get_dmaps_basis] returns them. *)
Definition three_points (s : R) : array2 := [[0]; [s]; [2 * s]].

Definition three_point_spectrum (s eps : R) : array1 :=
  let a := exp (- s ^ 2 / eps) in
  [1;
   (1 - a ^ 4) / (1 + a + a ^ 4);
   (1 - a ^ 2) ^ 2 / ((1 + a + a ^ 4) * (1 + 2 * a))].

Definition three_point_dimension (s L eps : R) : Z :=
  _get_dmaps_optimal_dimension (three_point_spectrum s eps) L.

(** A dimension that is low at the single width 1 and nowhere else. *)
Definition isolated_dimension (eps : R) : Z :=
  if Req_dec_T eps 1 then 1%Z else 2%Z.

(** A dimension that does not increase with the width and steps down at the
    last probe, 10000, and once more just above it. *)
Definition late_step_dimension (eps : R) : Z :=
  if Rlt_dec eps 10000 then 3%Z
  else if Req_dec_T eps 10000 then 2%Z
  else 1%Z.

(** Eigenvectors of the normalised kernel of [three_points], as the columns
    of a matrix, in the ascending order of the eigenvalues in which
    [np.linalg.eigh] returns them (not normalised). *)
Definition three_point_vectors (s eps : R) : array2 :=
  let a := exp (- s ^ 2 / eps) in
  let r0 := sqrt (1 + a + a ^ 4) in
  let r1 := sqrt (1 + 2 * a) in
  [[r0 * (1 + 2 * a); r0; r0];
   [- 2 * r1 * (1 + a + a ^ 4); 0; r1];
   [r0 * (1 + 2 * a); - r0; r0]].

(** * Arithmetic and array lemmas *)

Lemma np_divide_finite (x y : R) : y <> 0 -> np_divide x y = Finite (x / y).
Proof.
  intros Hy; unfold np_divide.
  destruct (Req_dec_T y 0); [contradiction | reflexivity].
Qed.

Lemma div_defined (x y : R) : y <> 0 -> div x y = Some (x / y).
Proof. intros Hy; unfold div; now rewrite np_divide_finite. Qed.

Lemma float_lt_finite (r y : R) : float_lt (Finite r) y = true <-> r < y.
Proof. cbn; destruct (Rlt_dec r y); split; intros; auto; discriminate. Qed.

Lemma float_gt_finite (r y : R) : float_gt (Finite r) y = true <-> y < r.
Proof. cbn; destruct (Rlt_dec y r); split; intros; auto; discriminate. Qed.

Lemma Rsum_app (l1 l2 : list R) : Rsum (l1 ++ l2) = Rsum l1 + Rsum l2.
Proof.
  unfold Rsum; induction l1 as [|x l1 IH]; cbn; [lra|].
  rewrite IH; lra.
Qed.

Lemma Rsum_cons (x : R) (l : list R) : Rsum (x :: l) = x + Rsum l.
Proof. reflexivity. Qed.

Lemma Rsum_firstn_skipn (k : nat) (l : list R) :
  Rsum (firstn k l) + Rsum (skipn k l) = Rsum l.
Proof. rewrite <- Rsum_app, firstn_skipn; reflexivity. Qed.

Lemma Rsum_nonneg (l : list R) :
  Forall (fun x => 0 <= x) l -> 0 <= Rsum l.
Proof.
  unfold Rsum; induction 1 as [|x l Hx _ IH]; cbn; lra.
Qed.

Lemma Rsum_pos (l : list R) :
  l <> [] -> Forall (fun x => 0 < x) l -> 0 < Rsum l.
Proof.
  intros Hne Hall; destruct l as [|x l]; [congruence|].
  inversion Hall as [|? ? Hx Hl]; subst.
  rewrite Rsum_cons.
  assert (0 <= Rsum l).
  { apply Rsum_nonneg; eapply Forall_impl; [|exact Hl]; cbn; intros; lra. }
  lra.
Qed.

Lemma Forall_skipn {A : Type} (P : A -> Prop) (k : nat) (l : list A) :
  Forall P l -> Forall P (skipn k l).
Proof.
  revert l; induction k as [|k IH]; intros l Hl; [assumption|].
  destruct l as [|x l]; [constructor|].
  inversion Hl; subst; cbn; auto.
Qed.

Lemma Forall_firstn {A : Type} (P : A -> Prop) (k : nat) (l : list A) :
  Forall P l -> Forall P (firstn k l).
Proof.
  revert l; induction k as [|k IH]; intros l Hl; [constructor|].
  destruct l as [|x l]; [constructor|].
  inversion Hl; subst; cbn; auto.
Qed.

(** Prefix sums of non-negative numbers grow with the prefix. *)
Lemma Rsum_firstn_mono (l : list R) (k k' : nat) :
  Forall (fun x => 0 <= x) l -> (k <= k')%nat ->
  Rsum (firstn k l) <= Rsum (firstn k' l).
Proof.
  intros Hl Hk.
  replace k with (Nat.min k k') by lia.
  rewrite <- firstn_firstn.
  rewrite <- (Rsum_firstn_skipn k (firstn k' l)).
  assert (0 <= Rsum (skipn k (firstn k' l))).
  { apply Rsum_nonneg, Forall_skipn, Forall_firstn, Hl. }
  lra.
Qed.

(** ** Lists and arrays *)

Lemma bind_some {A B : Type} (x : option A) (f : A -> option B) (a : A) :
  x = Some a -> bind x f = f a.
Proof. intros ->; reflexivity. Qed.

Lemma all_some_map {A B : Type} (f : A -> option B) (g : A -> B) (l : list A) :
  (forall x, In x l -> f x = Some (g x)) ->
  all_some (map f l) = Some (map g l).
Proof.
  induction l as [|x l IH]; intros Hf; [reflexivity|].
  cbn [map all_some].
  rewrite (Hf x) by (left; reflexivity); cbn [bind].
  rewrite IH by (intros y Hy; apply Hf; right; exact Hy).
  reflexivity.
Qed.

Lemma all_some_inv {A : Type} (l : list (option A)) (r : list A) :
  all_some l = Some r -> l = map Some r.
Proof.
  revert r; induction l as [|x l IH]; intros r Hr.
  - cbn in Hr; injection Hr as <-; reflexivity.
  - cbn in Hr. destruct x as [a|]; [|discriminate]. cbn in Hr.
    destruct (all_some l) as [r'|] eqn:Hl; [|discriminate]. cbn in Hr.
    injection Hr as <-. cbn. f_equal. apply IH; reflexivity.
Qed.

Lemma map2_length {A B C : Type} (f : A -> B -> C) (l1 : list A) (l2 : list B) :
  length l1 = length l2 -> length (map2 f l1 l2) = length l1.
Proof.
  revert l2; induction l1 as [|a l1 IH]; intros [|b l2] Hlen; cbn in *;
    try reflexivity; try discriminate.
  f_equal; apply IH; lia.
Qed.

Lemma nth_map2 {A B C : Type} (f : A -> B -> C) (l1 : list A) (l2 : list B)
  (i : nat) (da : A) (db : B) (dc : C) :
  length l1 = length l2 -> (i < length l1)%nat ->
  nth i (map2 f l1 l2) dc = f (nth i l1 da) (nth i l2 db).
Proof.
  revert l2 i; induction l1 as [|a l1 IH]; intros [|b l2] i Hlen Hi; cbn in *;
    try lia.
  destruct i as [|i]; [reflexivity|].
  apply IH; lia.
Qed.

Lemma rect_ncols (r c : nat) (A : array2) :
  rect r c A -> (1 <= r)%nat -> ncols A = c.
Proof.
  intros [Hlen Hrows] Hr.
  destruct A as [|row A]; [cbn in Hlen; lia|].
  inversion Hrows as [|? ? Hrow Hrest]; subst; reflexivity.
Qed.

Lemma rect_nrows (r c : nat) (A : array2) : rect r c A -> nrows A = r.
Proof. intros [Hlen _]; exact Hlen. Qed.

Lemma rect_row (r c : nat) (A : array2) (row : array1) :
  rect r c A -> In row A -> length row = c.
Proof.
  intros [_ Hrows] Hin.
  rewrite Forall_forall in Hrows; now apply Hrows.
Qed.

Lemma rect_map (r c : nat) (A : array2) (f : array1 -> array1) :
  rect r c A ->
  (forall row, In row A -> length (f row) = c) ->
  rect r c (map f A).
Proof.
  intros [Hlen Hrows] Hf; split; [now rewrite length_map|].
  apply Forall_forall; intros row' Hin.
  apply in_map_iff in Hin as (row & <- & Hin); now apply Hf.
Qed.

Lemma map_id_on {A : Type} (f : A -> A) (l : list A) :
  (forall x, In x l -> f x = x) -> map f l = l.
Proof.
  induction l as [|x l IH]; intros Hf; [reflexivity|].
  cbn; rewrite Hf by (left; reflexivity).
  f_equal; apply IH; intros y Hy; apply Hf; right; exact Hy.
Qed.

Lemma nth_map_in {A B : Type} (f : A -> B) (l : list A) (j : nat) (da : A)
  (db : B) :
  (j < length l)%nat -> nth j (map f l) db = f (nth j l da).
Proof.
  revert j; induction l as [|x l IH]; intros j Hj; cbn in *; [lia|].
  destruct j as [|j]; [reflexivity | apply IH; lia].
Qed.

Lemma Rsum_pos_exists (l : list R) (y : R) :
  Forall (fun x => 0 <= x) l -> In y l -> 0 < y -> 0 < Rsum l.
Proof.
  intros Hl Hin Hy; induction Hl as [|x l Hx Hl IH]; [contradiction|].
  rewrite Rsum_cons.
  pose proof (Rsum_nonneg l Hl) as Hnn.
  destruct Hin as [-> | Hin]; [lra|].
  specialize (IH Hin); lra.
Qed.

Lemma Rsum_map_div (l : list R) (t : R) :
  Rsum (map (fun x => x / t) l) = Rsum l / t.
Proof.
  unfold Rsum; induction l as [|x l IH]; cbn; [unfold Rdiv; ring|].
  rewrite IH; unfold Rdiv; ring.
Qed.

Lemma vec_div_scalar_defined (v : array1) (c : R) :
  c <> 0 -> vec_div_scalar v c = Some (map (fun x => x / c) v).
Proof.
  intros Hc; unfold vec_div_scalar.
  apply all_some_map; intros x _; now apply div_defined.
Qed.

Lemma arr_div_scalar_defined (A : array2) (c : R) :
  c <> 0 -> arr_div_scalar A c = Some (map (map (fun x => x / c)) A).
Proof.
  intros Hc; unfold arr_div_scalar.
  apply all_some_map; intros row _; now apply vec_div_scalar_defined.
Qed.

(** * Matrices *)

Lemma mk_array1_length (n : nat) (f : nat -> R) : length (mk_array1 n f) = n.
Proof. unfold mk_array1; now rewrite length_map, length_seq. Qed.

Lemma item_mk_array1 (n : nat) (f : nat -> R) (i : nat) :
  (i < n)%nat -> item (mk_array1 n f) i = f i.
Proof.
  intros Hi; unfold item, mk_array1.
  rewrite (nth_map_in f (seq 0 n) i 0%nat 0) by (now rewrite length_seq).
  now rewrite seq_nth.
Qed.

Lemma mk_array1_ext (n : nat) (f g : nat -> R) :
  (forall i, (i < n)%nat -> f i = g i) -> mk_array1 n f = mk_array1 n g.
Proof.
  intros Hfg; unfold mk_array1; apply map_ext_in.
  intros i Hi; apply in_seq in Hi; apply Hfg; lia.
Qed.

Lemma mk_array2_rect (r c : nat) (f : nat -> nat -> R) :
  rect r c (mk_array2 r c f).
Proof.
  split; [unfold mk_array2; now rewrite length_map, length_seq|].
  apply Forall_forall; intros row Hin.
  apply in_map_iff in Hin as (i & <- & _); apply mk_array1_length.
Qed.

Lemma entry_mk_array2 (r c : nat) (f : nat -> nat -> R) (i j : nat) :
  (i < r)%nat -> (j < c)%nat -> entry (mk_array2 r c f) i j = f i j.
Proof.
  intros Hi Hj; unfold entry, mk_array2.
  rewrite (nth_map_in _ (seq 0 r) i 0%nat []) by (now rewrite length_seq).
  rewrite seq_nth by assumption; cbn [Nat.add].
  now apply item_mk_array1.
Qed.

Lemma mk_array2_ext (r c : nat) (f g : nat -> nat -> R) :
  (forall i j, (i < r)%nat -> (j < c)%nat -> f i j = g i j) ->
  mk_array2 r c f = mk_array2 r c g.
Proof.
  intros Hfg; unfold mk_array2; apply map_ext_in.
  intros i Hi; apply in_seq in Hi.
  apply mk_array1_ext; intros j Hj; apply Hfg; lia.
Qed.

Lemma nrows_mk_array2 (r c : nat) (f : nat -> nat -> R) :
  nrows (mk_array2 r c f) = r.
Proof. apply (rect_nrows r c), mk_array2_rect. Qed.

Lemma ncols_mk_array2 (r c : nat) (f : nat -> nat -> R) :
  (1 <= r)%nat -> ncols (mk_array2 r c f) = c.
Proof. intros Hr; apply (rect_ncols r c); [apply mk_array2_rect | exact Hr]. Qed.

(** A rectangular array is the table of its entries. *)
Lemma rect_as_mk_array2 (r c : nat) (A : array2) :
  rect r c A -> A = mk_array2 r c (entry A).
Proof.
  intros [Hlen Hrows].
  apply (nth_ext _ _ [] []).
  - now rewrite (proj1 (mk_array2_rect r c (entry A))).
  - intros i Hi; rewrite Hlen in Hi.
    unfold mk_array2.
    rewrite (nth_map_in _ (seq 0 r) i 0%nat []) by (now rewrite length_seq).
    rewrite seq_nth by assumption; cbn [Nat.add].
    assert (Hrow : length (nth i A []) = c).
    { rewrite Forall_forall in Hrows; apply Hrows, nth_In; lia. }
    apply (nth_ext _ _ 0 0).
    + now rewrite mk_array1_length.
    + intros j Hj; rewrite Hrow in Hj.
      fold (item (mk_array1 c (entry A i)) j).
      now rewrite item_mk_array1.
Qed.

Lemma rect_ext (r c : nat) (A B : array2) :
  rect r c A -> rect r c B ->
  (forall i j, (i < r)%nat -> (j < c)%nat -> entry A i j = entry B i j) ->
  A = B.
Proof.
  intros HA HB Heq.
  rewrite (rect_as_mk_array2 r c A HA), (rect_as_mk_array2 r c B HB).
  now apply mk_array2_ext.
Qed.

(** ** Finite sums *)

Lemma sum_n_ext (n : nat) (f g : nat -> R) :
  (forall k, (k < n)%nat -> f k = g k) -> sum_n n f = sum_n n g.
Proof. intros Hfg; unfold sum_n; f_equal; now apply mk_array1_ext. Qed.

Lemma sum_n_O (f : nat -> R) : sum_n 0 f = 0.
Proof. reflexivity. Qed.

Lemma sum_n_S (n : nat) (f : nat -> R) : sum_n (S n) f = sum_n n f + f n.
Proof.
  unfold sum_n, mk_array1.
  rewrite seq_S, map_app, Rsum_app; cbn; lra.
Qed.

Lemma sum_n_scal (n : nat) (c : R) (f : nat -> R) :
  sum_n n (fun k => c * f k) = c * sum_n n f.
Proof.
  induction n as [|n IH]; [rewrite !sum_n_O; ring|].
  rewrite !sum_n_S, IH; ring.
Qed.

Lemma sum_n_scal_r (n : nat) (c : R) (f : nat -> R) :
  sum_n n (fun k => f k * c) = sum_n n f * c.
Proof.
  induction n as [|n IH]; [rewrite !sum_n_O; ring|].
  rewrite !sum_n_S, IH; ring.
Qed.

Lemma sum_n_plus (n : nat) (f g : nat -> R) :
  sum_n n (fun k => f k + g k) = sum_n n f + sum_n n g.
Proof.
  induction n as [|n IH]; [rewrite !sum_n_O; ring|].
  rewrite !sum_n_S, IH; ring.
Qed.

Lemma sum_n_zero (n : nat) : sum_n n (fun _ => 0) = 0.
Proof.
  induction n as [|n IH]; [reflexivity|].
  rewrite sum_n_S, IH; ring.
Qed.

Lemma sum_n_swap (n m : nat) (f : nat -> nat -> R) :
  sum_n n (fun i => sum_n m (fun j => f i j))
  = sum_n m (fun j => sum_n n (fun i => f i j)).
Proof.
  induction n as [|n IH].
  - rewrite sum_n_O; symmetry; apply sum_n_zero.
  - rewrite sum_n_S, IH, <- sum_n_plus.
    apply sum_n_ext; intros j _; now rewrite sum_n_S.
Qed.

(** A sum against the Kronecker delta picks one term. *)
Lemma sum_n_delta_r (n : nat) (f : nat -> R) (j : nat) :
  (j < n)%nat ->
  sum_n n (fun k => f k * (if (k =? j)%nat then 1 else 0)) = f j.
Proof.
  induction n as [|n IH]; intros Hj; [lia|].
  rewrite sum_n_S.
  destruct (Nat.eq_dec j n) as [-> | Hne].
  - rewrite Nat.eqb_refl.
    rewrite (sum_n_ext n _ (fun _ => 0)).
    + rewrite sum_n_zero; ring.
    + intros k Hk.
      destruct (k =? n)%nat eqn:E; [apply Nat.eqb_eq in E; lia | ring].
  - rewrite IH by lia.
    destruct (n =? j)%nat eqn:E; [apply Nat.eqb_eq in E; lia | ring].
Qed.

Lemma sum_n_delta_l (n : nat) (f : nat -> R) (i : nat) :
  (i < n)%nat ->
  sum_n n (fun k => (if (i =? k)%nat then 1 else 0) * f k) = f i.
Proof.
  intros Hi.
  rewrite (sum_n_ext n _ (fun k => f k * (if (k =? i)%nat then 1 else 0))).
  - now apply sum_n_delta_r.
  - intros k _; rewrite (Nat.eqb_sym i k); ring.
Qed.

(** ** Transpose and product *)

Lemma transpose_rect (r c : nat) (A : array2) :
  rect r c A -> (1 <= r)%nat ->
  transpose A = mk_array2 c r (fun j i => entry A i j).
Proof.
  intros HA Hr; unfold transpose.
  now rewrite (rect_ncols r c A HA Hr), (rect_nrows r c A HA).
Qed.

Lemma matmul_rect (p q r : nat) (A B : array2) :
  rect p q A -> rect q r B -> (1 <= p)%nat -> (1 <= q)%nat ->
  matmul A B
  = mk_array2 p r (fun i j => sum_n q (fun k => entry A i k * entry B k j)).
Proof.
  intros HA HB Hp Hq; unfold matmul, sum_n.
  now rewrite (rect_nrows p q A HA), (rect_ncols p q A HA Hp),
    (rect_ncols q r B HB Hq).
Qed.

Lemma np_dot_rect (p q r : nat) (A B : array2) :
  rect p q A -> rect q r B -> (1 <= p)%nat -> (1 <= q)%nat ->
  np_dot A B = Some (matmul A B) /\ rect p r (matmul A B).
Proof.
  intros HA HB Hp Hq; split.
  - unfold np_dot.
    now rewrite (rect_ncols p q A HA Hp), (rect_nrows q r B HB), Nat.eqb_refl.
  - rewrite (matmul_rect p q r A B HA HB Hp Hq); apply mk_array2_rect.
Qed.

Lemma transpose_involutive (r c : nat) (A : array2) :
  rect r c A -> (1 <= r)%nat -> (1 <= c)%nat -> transpose (transpose A) = A.
Proof.
  intros HA Hr Hc.
  rewrite (transpose_rect r c A HA Hr).
  rewrite (transpose_rect c r _ (mk_array2_rect _ _ _) Hc).
  apply (rect_ext r c); [apply mk_array2_rect | exact HA |].
  intros i j Hi Hj.
  now rewrite !entry_mk_array2.
Qed.

Lemma matmul_assoc (p q r s : nat) (A B C : array2) :
  rect p q A -> rect q r B -> rect r s C ->
  (1 <= p)%nat -> (1 <= q)%nat -> (1 <= r)%nat ->
  matmul (matmul A B) C = matmul A (matmul B C).
Proof.
  intros HA HB HC Hp Hq Hr.
  pose proof (proj2 (np_dot_rect p q r A B HA HB Hp Hq)) as HAB.
  pose proof (proj2 (np_dot_rect q r s B C HB HC Hq Hr)) as HBC.
  rewrite (matmul_rect p r s _ C HAB HC Hp Hr).
  rewrite (matmul_rect p q s A _ HA HBC Hp Hq).
  apply mk_array2_ext; intros i j Hi Hj.
  rewrite (matmul_rect p q r A B HA HB Hp Hq).
  rewrite (matmul_rect q r s B C HB HC Hq Hr).
  rewrite (sum_n_ext r _
             (fun k => sum_n q (fun l => entry A i l * entry B l k * entry C k j))).
  2:{ intros k Hk; rewrite entry_mk_array2 by assumption.
      now rewrite sum_n_scal_r. }
  rewrite (sum_n_ext q (fun k => entry A i k * entry (mk_array2 q s _) k j)
             (fun l => sum_n r (fun k => entry A i l * entry B l k * entry C k j))).
  2:{ intros l Hl; rewrite entry_mk_array2 by assumption.
      rewrite <- sum_n_scal; apply sum_n_ext; intros k _; ring. }
  apply sum_n_swap.
Qed.

Lemma transpose_matmul (p q r : nat) (A B : array2) :
  rect p q A -> rect q r B -> (1 <= p)%nat -> (1 <= q)%nat -> (1 <= r)%nat ->
  transpose (matmul A B) = matmul (transpose B) (transpose A).
Proof.
  intros HA HB Hp Hq Hr.
  pose proof (proj2 (np_dot_rect p q r A B HA HB Hp Hq)) as HAB.
  rewrite (transpose_rect p r _ HAB Hp).
  rewrite (transpose_rect q r B HB Hq), (transpose_rect p q A HA Hp).
  rewrite (matmul_rect r q p _ _ (mk_array2_rect _ _ _) (mk_array2_rect _ _ _)
             Hr Hq).
  apply mk_array2_ext; intros j i Hj Hi.
  rewrite (matmul_rect p q r A B HA HB Hp Hq), entry_mk_array2 by assumption.
  apply sum_n_ext; intros k Hk.
  rewrite !entry_mk_array2 by assumption; ring.
Qed.

Lemma identity_rect (n : nat) : rect n n (identity n).
Proof. apply mk_array2_rect. Qed.

Lemma matmul_identity_r (p n : nat) (A : array2) :
  rect p n A -> (1 <= p)%nat -> (1 <= n)%nat -> matmul A (identity n) = A.
Proof.
  intros HA Hp Hn.
  rewrite (matmul_rect p n n A _ HA (identity_rect n) Hp Hn).
  apply (rect_ext p n); [apply mk_array2_rect | exact HA |].
  intros i j Hi Hj; rewrite entry_mk_array2 by assumption.
  rewrite (sum_n_ext n _
             (fun k => entry A i k * (if (k =? j)%nat then 1 else 0))).
  - now apply sum_n_delta_r.
  - intros k Hk; unfold identity; now rewrite entry_mk_array2.
Qed.

Lemma matmul_identity_l (n r : nat) (A : array2) :
  rect n r A -> (1 <= n)%nat -> matmul (identity n) A = A.
Proof.
  intros HA Hn.
  rewrite (matmul_rect n n r _ A (identity_rect n) HA Hn Hn).
  apply (rect_ext n r); [apply mk_array2_rect | exact HA |].
  intros i j Hi Hj; rewrite entry_mk_array2 by assumption.
  rewrite (sum_n_ext n _
             (fun k => (if (i =? k)%nat then 1 else 0) * entry A k j)).
  - now apply (sum_n_delta_l n (fun k => entry A k j)).
  - intros k Hk; unfold identity; now rewrite entry_mk_array2.
Qed.

(** ** The inverse *)

Lemma is_inverse_unique (M W W' : array2) :
  is_inverse M W -> is_inverse M W' -> W = W'.
Proof.
  intros (n & HM & HW & HMW & HWM) (n' & HM' & HW' & HMW' & HWM').
  assert (n' = n) by (destruct HM, HM'; congruence); subst n'.
  destruct n as [|n].
  - destruct HW as [HW _], HW' as [HW' _].
    destruct W, W'; cbn in *; congruence.
  - rewrite <- (matmul_identity_r (S n) (S n) W HW) by lia.
    rewrite <- HMW'.
    rewrite <- (matmul_assoc (S n) (S n) (S n) (S n) W M W') by (auto; lia).
    rewrite HWM.
    apply (matmul_identity_l (S n) (S n)); [assumption | lia].
Qed.

(** [np.linalg.inv] returns the inverse whenever there is one. *)
Lemma linalg_inv_spec (M W : array2) :
  is_inverse M W -> linalg_inv M = Some W.
Proof.
  intros HW; unfold linalg_inv.
  destruct (excluded_middle_informative (exists W0, is_inverse M W0))
    as [ex | nex].
  - f_equal; apply (is_inverse_unique M); [|assumption].
    exact (proj2_sig (constructive_indefinite_description _ ex)).
  - exfalso; apply nex; now exists W.
Qed.

Lemma linalg_inv_sound (M W : array2) :
  linalg_inv M = Some W -> is_inverse M W.
Proof.
  unfold linalg_inv.
  destruct (excluded_middle_informative (exists W0, is_inverse M W0))
    as [ex | nex]; [|discriminate].
  intros H; injection H as <-.
  exact (proj2_sig (constructive_indefinite_description _ ex)).
Qed.

(** ** Arrays given by their table of entries *)

Lemma map_mk_array1 (g : R -> R) (n : nat) (f : nat -> R) :
  map g (mk_array1 n f) = mk_array1 n (fun i => g (f i)).
Proof. unfold mk_array1; now rewrite map_map. Qed.

Lemma map_map_mk_array2 (g : R -> R) (r c : nat) (f : nat -> nat -> R) :
  map (map g) (mk_array2 r c f) = mk_array2 r c (fun i j => g (f i j)).
Proof.
  unfold mk_array2; rewrite map_map.
  apply map_ext; intros i; apply map_mk_array1.
Qed.

Lemma map2_map_map {A B C D : Type} (f : B -> C -> D) (a : A -> B) (b : A -> C)
  (l : list A) :
  map2 f (map a l) (map b l) = map (fun x => f (a x) (b x)) l.
Proof. induction l as [|x l IH]; cbn; [reflexivity | now rewrite IH]. Qed.

Lemma map2_mk_array1 (op : R -> R -> R) (n : nat) (f g : nat -> R) :
  map2 op (mk_array1 n f) (mk_array1 n g) = mk_array1 n (fun i => op (f i) (g i)).
Proof. unfold mk_array1; apply map2_map_map. Qed.

Lemma map2_mk_array2 (op : R -> R -> R) (r c : nat) (f g : nat -> nat -> R) :
  map2 (map2 op) (mk_array2 r c f) (mk_array2 r c g)
  = mk_array2 r c (fun i j => op (f i j) (g i j)).
Proof.
  unfold mk_array2; rewrite map2_map_map.
  apply map_ext; intros i; apply map2_mk_array1.
Qed.

Lemma transpose_mk_array2 (r c : nat) (f : nat -> nat -> R) :
  (1 <= r)%nat ->
  transpose (mk_array2 r c f) = mk_array2 c r (fun j i => f i j).
Proof.
  intros Hr.
  rewrite (transpose_rect r c _ (mk_array2_rect r c f) Hr).
  apply mk_array2_ext; intros j i Hj Hi; now apply entry_mk_array2.
Qed.

Lemma bcast_rows_mk_array2 (op : R -> R -> R) (r c : nat)
  (f : nat -> nat -> R) (x : nat -> R) :
  (1 <= r)%nat ->
  bcast_rows op (mk_array2 r c f) (mk_array1 c x)
  = Some (mk_array2 r c (fun i j => op (f i j) (x j))).
Proof.
  intros Hr; unfold bcast_rows.
  rewrite ncols_mk_array2, mk_array1_length, Nat.eqb_refl by assumption.
  f_equal; unfold mk_array2; rewrite map_map.
  apply map_ext; intros i; apply map2_mk_array1.
Qed.

Lemma column_mk_array2 (r c : nat) (f : nat -> nat -> R) (k : nat) :
  (k < c)%nat -> column (mk_array2 r c f) k = mk_array1 r (fun i => f i k).
Proof.
  intros Hk; unfold column, mk_array2; rewrite map_map.
  apply map_ext; intros i; now apply item_mk_array1.
Qed.

Lemma norm_axis0_mk_array2 (r c : nat) (f : nat -> nat -> R) :
  (1 <= r)%nat ->
  norm_axis0 (mk_array2 r c f)
  = mk_array1 c (fun k => sqrt (sum_n r (fun i => f i k ^ 2))).
Proof.
  intros Hr; unfold norm_axis0; rewrite ncols_mk_array2 by assumption.
  apply mk_array1_ext; intros k Hk.
  rewrite column_mk_array2 by assumption.
  now rewrite map_mk_array1.
Qed.

Lemma np_dot_vec_mk_array2 (r c : nat) (f : nat -> nat -> R) (w : nat -> R) :
  (1 <= r)%nat ->
  np_dot_vec (mk_array2 r c f) (mk_array1 c w)
  = Some (mk_array1 r (fun i => sum_n c (fun k => f i k * w k))).
Proof.
  intros Hr; unfold np_dot_vec.
  rewrite ncols_mk_array2, mk_array1_length, Nat.eqb_refl, nrows_mk_array2
    by assumption.
  f_equal; apply mk_array1_ext; intros i Hi.
  apply sum_n_ext; intros k Hk.
  now rewrite entry_mk_array2, item_mk_array1.
Qed.

Lemma arr_div_scalar_mk_array2 (r c : nat) (f : nat -> nat -> R) (t : R) :
  t <> 0 ->
  arr_div_scalar (mk_array2 r c f) t = Some (mk_array2 r c (fun i j => f i j / t)).
Proof.
  intros Ht; rewrite arr_div_scalar_defined by assumption.
  now rewrite map_map_mk_array2.
Qed.

Lemma all_some_map_seq {A : Type} (f : nat -> option A) (g : nat -> A) (n : nat) :
  (forall l, (l < n)%nat -> f l = Some (g l)) ->
  all_some (map f (seq 0 n)) = Some (map g (seq 0 n)).
Proof.
  intros Hfg; apply all_some_map.
  intros l Hl; apply in_seq in Hl; apply Hfg; lia.
Qed.

Lemma sum_n_pos (n : nat) (f : nat -> R) :
  (1 <= n)%nat -> (forall k, (k < n)%nat -> 0 < f k) -> 0 < sum_n n f.
Proof.
  intros Hn Hf; unfold sum_n; apply Rsum_pos.
  - intros Hnil; apply (f_equal (@length R)) in Hnil.
    rewrite mk_array1_length in Hnil; cbn in Hnil; lia.
  - apply Forall_forall; intros y Hy.
    apply in_map_iff in Hy as (k & <- & Hk); apply in_seq in Hk; apply Hf; lia.
Qed.

Lemma sum_n_nonneg (n : nat) (f : nat -> R) :
  (forall k, (k < n)%nat -> 0 <= f k) -> 0 <= sum_n n f.
Proof.
  intros Hf; unfold sum_n; apply Rsum_nonneg.
  apply Forall_forall; intros y Hy.
  apply in_map_iff in Hy as (k & <- & Hk); apply in_seq in Hk; apply Hf; lia.
Qed.

Lemma transpose_rect_shape (r c : nat) (A : array2) :
  rect r c A -> (1 <= r)%nat -> rect c r (transpose A).
Proof.
  intros HA Hr; rewrite (transpose_rect r c A HA Hr); apply mk_array2_rect.
Qed.

(** * The sample getter *)

(** X3: a positive request on a dictionary that holds a training set and an
    augmented pool: the test of the source is the strict [k*N < P].  When it
    fails the source raises [Exception], unless the training set has no row:
    the message divides by its size, and [ZeroDivisionError] is raised. *)
Lemma get_samples_positive (plom_dict : pyval) (training augmented : array2)
  (k : Z) :
  rbind (subscript plom_dict "data") (fun data => subscript data "training")
    = Ok (PyArray training) ->
  rbind (subscript plom_dict "data") (fun data => subscript data "augmented")
    = Ok (PyArray augmented) ->
  (0 < k)%Z ->
  get_samples plom_dict (PyInt k) =
    if (k * Z.of_nat (nrows training) <? Z.of_nat (nrows augmented))%Z
    then Ok (firstn (Z.to_nat (k * Z.of_nat (nrows training))) augmented)
    else if (Z.of_nat (nrows training) =? 0)%Z then Raise ZeroDivisionError
    else Raise Exception_.
Proof.
  intros Htrain Haug Hk.
  unfold get_samples; cbn [as_int].
  destruct (k <? 0)%Z eqn:Hneg; [apply Z.ltb_lt in Hneg; lia|].
  destruct (k =? 0)%Z eqn:Hzero; [apply Z.eqb_eq in Hzero; lia|].
  rewrite Htrain, Haug; cbn [rbind shape0].
  reflexivity.
Qed.

(** C10: with a training set of one row and a pool of one row, the request
    [k = 1] asks for exactly the pool ([k*N = P]) and the getter raises. *)
Theorem get_samples_whole_pool_raises :
  get_samples
    (set_item2 (initialize (PyArray [[1]])) "data" "augmented" (PyArray [[2]]))
    (PyInt 1)
  = Raise Exception_.
Proof. reflexivity. Qed.

(** The same request is served as soon as the pool has one more row. *)
Lemma get_samples_below_pool_returns :
  get_samples
    (set_item2 (initialize (PyArray [[1]])) "data" "augmented"
       (PyArray [[2]; [3]]))
    (PyInt 1)
  = Ok [[2]].
Proof. reflexivity. Qed.

(** * Manifold dimension *)

(** The scan over [range(start, start + len)] stops at the first index whose
    ratio to the second eigenvalue is below [L]. *)
Lemma dimension_scan_first_gap (mu : array1) (L : R) (m0 : Z) :
  item mu 1 <> 0 ->
  forall (len start : nat),
    (exists a : nat,
        (start <= a < start + len)%nat /\
        item mu a / item mu 1 < L /\
        (forall a' : nat, (start <= a' < a)%nat ->
                          ~ item mu a' / item mu 1 < L) /\
        dimension_scan mu L (seq start len) m0 = (Z.of_nat a - 1)%Z)
    \/
    ((forall a : nat, (start <= a < start + len)%nat ->
                      ~ item mu a / item mu 1 < L) /\
     dimension_scan mu L (seq start len) m0 = m0).
Proof.
  intros Hmu len; induction len as [|len IH]; intros start.
  - right; split; [intros a Ha; lia | reflexivity].
  - cbn [seq dimension_scan].
    rewrite np_divide_finite by assumption.
    destruct (float_lt (Finite (item mu start / item mu 1)) L) eqn:Hlt.
    + left; exists start.
      split; [lia|]. split; [now apply float_lt_finite|].
      split; [intros a' Ha'; lia | reflexivity].
    + assert (Hno : ~ item mu start / item mu 1 < L).
      { intros Hc; apply float_lt_finite in Hc; congruence. }
      destruct (IH (S start)) as [(a & Ha & Hgap & Hmin & Hres) | (Hall & Hres)].
      * left; exists a.
        split; [lia|]. split; [assumption|]. split; [|assumption].
        intros a' Ha'.
        destruct (Nat.eq_dec a' start) as [-> | Hne]; [assumption|].
        apply Hmin; lia.
      * right; split; [|assumption].
        intros a Ha.
        destruct (Nat.eq_dec a start) as [-> | Hne]; [assumption|].
        apply Hall; lia.
Qed.

(** C3 (as the code has it): the dimension is [a - 1] for the smallest [a]
    in [2 .. N-1] with [mu_a / mu_1 < L], and [N - 1] when there is no such
    [a]. *)
Theorem dmaps_optimal_dimension_first_gap (mu : array1) (L : R) :
  item mu 1 <> 0 ->
  (exists a : nat,
      (2 <= a <= length mu - 1)%nat /\
      item mu a / item mu 1 < L /\
      (forall a' : nat, (2 <= a' < a)%nat -> ~ item mu a' / item mu 1 < L) /\
      _get_dmaps_optimal_dimension mu L = (Z.of_nat a - 1)%Z)
  \/
  ((forall a : nat, (2 <= a <= length mu - 1)%nat ->
                    ~ item mu a / item mu 1 < L) /\
   _get_dmaps_optimal_dimension mu L = (Z.of_nat (length mu) - 1)%Z).
Proof.
  intros Hmu; unfold _get_dmaps_optimal_dimension.
  destruct (dimension_scan_first_gap mu L (Z.of_nat (length mu) - 1)%Z Hmu
              (length mu - 2) 2)
    as [(a & Ha & Hgap & Hmin & Hres) | (Hall & Hres)].
  - left; exists a.
    split; [lia|]. split; [assumption|]. split; [|assumption].
    intros a' Ha'; apply Hmin; lia.
  - right; split; [|assumption].
    intros a Ha; apply Hall; lia.
Qed.

Lemma dmaps_optimal_dimension_first_gap_witness :
  item [1; 1/2; 2/5; 1/100; 1/200] 1 <> 0 /\
  ((exists a : nat,
      (2 <= a <= length [1; 1/2; 2/5; 1/100; 1/200] - 1)%nat /\
      item [1; 1/2; 2/5; 1/100; 1/200] a / item [1; 1/2; 2/5; 1/100; 1/200] 1
        < 1/10 /\
      (forall a' : nat, (2 <= a' < a)%nat ->
         ~ item [1; 1/2; 2/5; 1/100; 1/200] a'
             / item [1; 1/2; 2/5; 1/100; 1/200] 1 < 1/10) /\
      _get_dmaps_optimal_dimension [1; 1/2; 2/5; 1/100; 1/200] (1/10)
        = (Z.of_nat a - 1)%Z)
   \/
   ((forall a : nat, (2 <= a <= length [1; 1/2; 2/5; 1/100; 1/200] - 1)%nat ->
       ~ item [1; 1/2; 2/5; 1/100; 1/200] a
           / item [1; 1/2; 2/5; 1/100; 1/200] 1 < 1/10) /\
    _get_dmaps_optimal_dimension [1; 1/2; 2/5; 1/100; 1/200] (1/10)
      = (Z.of_nat (length [1; 1/2; 2/5; 1/100; 1/200]) - 1)%Z)).
Proof.
  assert (H : item [1; 1/2; 2/5; 1/100; 1/200] 1 <> 0) by (cbn; lra).
  split; [exact H|].
  exact (dmaps_optimal_dimension_first_gap [1; 1/2; 2/5; 1/100; 1/200] (1/10) H).
Defined.

(** The code on the spectrum [1, 1/2, 2/5, 1/100, 1/200] with [L = 1/10]:
    the first gap is at [a = 3] and the dimension is [2]. *)
Lemma dmaps_optimal_dimension_example :
  _get_dmaps_optimal_dimension [1; 1/2; 2/5; 1/100; 1/200] (1/10) = 2%Z.
Proof.
  unfold _get_dmaps_optimal_dimension.
  cbn [length Nat.sub seq dimension_scan item nth].
  rewrite !np_divide_finite by lra.
  destruct (float_lt (Finite (2/5 / (1/2))) (1/10)) eqn:H1.
  { apply float_lt_finite in H1; lra. }
  destruct (float_lt (Finite (1/100 / (1/2))) (1/10)) eqn:H2.
  - reflexivity.
  - exfalso.
    assert (Hlt : 1/100 / (1/2) < 1/10) by lra.
    apply float_lt_finite in Hlt; congruence.
Qed.

(** C3, as the specification words it, fails on that spectrum: there the
    specification's rule selects [i = 2] (since [mu_3 / mu_1 = 1/50 < 1/10])
    and so the dimension [1], while the code answers [2]. *)
Lemma claimed_dimension_counterexample :
  ~ claimed_dimension [1; 1/2; 2/5; 1/100; 1/200] (1/10)
      (_get_dmaps_optimal_dimension [1; 1/2; 2/5; 1/100; 1/200] (1/10)).
Proof.
  rewrite dmaps_optimal_dimension_example.
  intros (i & Hi & Hgap & Hmin & Hm).
  assert (i = 3%nat) by lia; subst i.
  apply (Hmin 2%nat); [lia|].
  cbn; lra.
Qed.

(** The dimension that the specification's rule gives on that spectrum. *)
Lemma claimed_dimension_example :
  claimed_dimension [1; 1/2; 2/5; 1/100; 1/200] (1/10) 1%Z.
Proof.
  exists 2%nat.
  split; [cbn; lia|]. split; [cbn; lra|].
  split; [intros i' Hi'; lia | reflexivity].
Qed.

(** * PCA: the cumulative-energy truncation *)

(** The loop breaks at the first [i] whose prefix share exceeds the
    threshold. *)
Lemma cum_energy_scan_first (eigvals : array1) (T thr : R) :
  T <> 0 ->
  forall (len start : nat),
    (exists i : nat,
        (start <= i < start + len)%nat /\
        thr < Rsum (firstn i eigvals) / T /\
        (forall i' : nat, (start <= i' < i)%nat ->
                          ~ thr < Rsum (firstn i' eigvals) / T) /\
        cum_energy_scan eigvals T thr (seq start len)
          = Some (py_slice_from (Z.of_nat i - 1) eigvals))
    \/
    ((forall i : nat, (start <= i < start + len)%nat ->
                      ~ thr < Rsum (firstn i eigvals) / T) /\
     cum_energy_scan eigvals T thr (seq start len) = None).
Proof.
  intros HT len; induction len as [|len IH]; intros start.
  - right; split; [intros i Hi; lia | reflexivity].
  - cbn [seq cum_energy_scan]; unfold py_slice_to.
    rewrite np_divide_finite by assumption.
    destruct (float_gt (Finite (Rsum (firstn start eigvals) / T)) thr) eqn:Hgt.
    + left; exists start.
      split; [lia|]. split; [now apply float_gt_finite|].
      split; [intros i' Hi'; lia | reflexivity].
    + assert (Hno : ~ thr < Rsum (firstn start eigvals) / T).
      { intros Hc; apply float_gt_finite in Hc; congruence. }
      destruct (IH (S start)) as [(i & Hi & Hex & Hmin & Hres) | (Hall & Hres)].
      * left; exists i.
        split; [lia|]. split; [assumption|]. split; [|assumption].
        intros i' Hi'.
        destruct (Nat.eq_dec i' start) as [-> | Hne]; [assumption|].
        apply Hmin; lia.
      * right; split; [|assumption].
        intros i Hi.
        destruct (Nat.eq_dec i start) as [-> | Hne]; [assumption|].
        apply Hall; lia.
Qed.

Lemma energy_share_prefix (eigvals : array1) (nu : nat) :
  Rsum eigvals <> 0 ->
  energy_share nu eigvals
  = 1 - Rsum (firstn (length eigvals - nu) eigvals) / Rsum eigvals.
Proof.
  intros HT; unfold energy_share, top_eigvals.
  pose proof (Rsum_firstn_skipn (length eigvals - nu) eigvals) as Hsplit.
  set (T := Rsum eigvals) in *.
  replace (Rsum (skipn (length eigvals - nu) eigvals))
    with (T - Rsum (firstn (length eigvals - nu) eigvals)) by lra.
  field; exact HT.
Qed.

(** C5: on non-negative eigenvalues of positive total and for a threshold
    [E] in (0, 1], the tail test of the code keeps the [nu] largest
    eigenvalues for the smallest [nu] whose share of the total is at least
    [E]. *)
Theorem pca_cum_energy_keeps_smallest_dim (eigvals : array1) (E : R)
  (eigenvalues_cutoff : R) (pca_dim : Z) :
  Forall (fun x => 0 <= x) eigvals ->
  0 < Rsum eigvals ->
  0 < E <= 1 ->
  exists nu : nat,
    _pca_eigvals_trunc eigvals "cum_energy" E eigenvalues_cutoff pca_dim
      = Some (top_eigvals nu eigvals) /\
    length (top_eigvals nu eigvals) = nu /\
    smallest_cum_energy_dim eigvals E nu.
Proof.
  intros Hpos HT HE.
  set (T := Rsum eigvals) in *.
  set (n := length eigvals).
  assert (HT0 : T <> 0) by lra.
  unfold _pca_eigvals_trunc; cbn [String.eqb Ascii.eqb Bool.eqb].
  fold T.
  destruct (cum_energy_scan_first eigvals T (1 - E) HT0 (n + 1) 0)
    as [(i & Hi & Hex & Hmin & Hres) | (Hall & Hres)].
  - (* the prefix of length 0 has share 0, so the loop breaks at some i >= 1 *)
    assert (Hi1 : (1 <= i)%nat).
    { destruct i as [|i]; [|lia].
      exfalso; cbn in Hex; unfold Rdiv in Hex; rewrite Rmult_0_l in Hex.
      lra. }
    exists (n - (i - 1))%nat.
    assert (Hdrop : (n - (n - (i - 1)) = i - 1)%nat) by lia.
    split; [|split].
    + fold n; rewrite Hres; unfold top_eigvals, py_slice_from; fold n.
      rewrite Hdrop.
      destruct (Z.of_nat i - 1 <? 0)%Z eqn:Hneg; [apply Z.ltb_lt in Hneg; lia|].
      replace (Z.to_nat (Z.of_nat i - 1)) with (i - 1)%nat by lia.
      reflexivity.
    + unfold top_eigvals; fold n; rewrite Hdrop, length_skipn; fold n; lia.
    + unfold smallest_cum_energy_dim; fold n.
      split; [lia|]. split.
      * rewrite energy_share_prefix by assumption; fold n T.
        rewrite Hdrop.
        assert (Hprev : ~ 1 - E < Rsum (firstn (i - 1) eigvals) / T)
          by (apply Hmin; lia).
        lra.
      * intros nu' Hnu'.
        rewrite energy_share_prefix by assumption; fold n T.
        assert (Hmono : Rsum (firstn i eigvals)
                        <= Rsum (firstn (n - nu') eigvals))
          by (apply Rsum_firstn_mono; [assumption | lia]).
        assert (Hdiv : Rsum (firstn i eigvals) / T
                       <= Rsum (firstn (n - nu') eigvals) / T).
        { unfold Rdiv; apply Rmult_le_compat_r; [|assumption].
          left; now apply Rinv_0_lt_compat. }
        lra.
  - (* the whole spectrum has share 1 > 1 - E, so the loop does break *)
    exfalso; apply (Hall n); [lia|].
    unfold n; rewrite firstn_all; fold T.
    unfold Rdiv; rewrite Rinv_r by assumption; lra.
Qed.

Lemma pca_cum_energy_keeps_smallest_dim_witness :
  Forall (fun x => 0 <= x) [1; 3; 6] /\
  0 < Rsum [1; 3; 6] /\
  0 < 9/10 <= 1 /\
  exists nu : nat,
    _pca_eigvals_trunc [1; 3; 6] "cum_energy" (9/10) 0 1
      = Some (top_eigvals nu [1; 3; 6]) /\
    length (top_eigvals nu [1; 3; 6]) = nu /\
    smallest_cum_energy_dim [1; 3; 6] (9/10) nu.
Proof.
  assert (H1 : Forall (fun x => 0 <= x) [1; 3; 6])
    by (repeat constructor; lra).
  assert (H2 : 0 < Rsum [1; 3; 6]) by (cbn; lra).
  assert (H3 : 0 < 9/10 <= 1) by lra.
  split; [exact H1|]. split; [exact H2|]. split; [exact H3|].
  exact (pca_cum_energy_keeps_smallest_dim [1; 3; 6] (9/10) 0 1 H1 H2 H3).
Defined.

(** * The scaler *)

Lemma replace_zeros_length (scale : array1) :
  length (replace_zeros scale) = length scale.
Proof. unfold replace_zeros; apply length_map. Qed.

Lemma replace_zeros_nonzero (scale : array1) :
  Forall (fun s => s <> 0) (replace_zeros scale).
Proof.
  unfold replace_zeros; apply Forall_forall; intros s Hin.
  apply in_map_iff in Hin as (s0 & <- & _).
  destruct (Req_dec_T s0 0); [lra | assumption].
Qed.

(** A scale that is zero is replaced by one, any other is kept. *)
Lemma replace_zeros_item (scale : array1) (j : nat) :
  (j < length scale)%nat ->
  item (replace_zeros scale) j
  = if Req_dec_T (item scale j) 0 then 1 else item scale j.
Proof.
  intros Hj; unfold replace_zeros, item.
  now rewrite (nth_map_in _ _ _ 0).
Qed.

Lemma row_div_defined (row s : array1) :
  length row = length s -> Forall (fun x => x <> 0) s ->
  all_some (map2 div row s) = Some (map2 Rdiv row s).
Proof.
  revert s; induction row as [|x row IH]; intros [|y s] Hlen Hs; cbn in *;
    try reflexivity; try discriminate.
  inversion Hs as [|? ? Hy Hs']; subst.
  rewrite div_defined by assumption; cbn [bind].
  rewrite IH by (auto; lia); reflexivity.
Qed.

Lemma row_round_trip (row c s : array1) :
  length row = length c -> length row = length s ->
  Forall (fun x => x <> 0) s ->
  map2 Rplus (map2 Rmult (map2 Rdiv (map2 Rminus row c) s) s) c = row.
Proof.
  revert c s; induction row as [|x row IH]; intros [|y c] [|z s] Hc Hs Hnz;
    cbn in *; try reflexivity; try discriminate.
  inversion Hnz as [|? ? Hz Hnz']; subst.
  f_equal; [field; assumption | apply IH; auto; lia].
Qed.

(** Centring by [c] and dividing by a scale [s] without zero entry is undone
    by [_inverse_scale]. *)
Lemma scaler_round_trip (X : array2) (N n : nat) (c s : array1) :
  (1 <= N)%nat -> rect N n X ->
  length c = n -> length s = n -> Forall (fun x => x <> 0) s ->
  exists Xs : array2,
    (centred <- bcast_rows Rminus X c ;; bcast_rows_div centred s) = Some Xs /\
    rect N n Xs /\
    _inverse_scale Xs c s = Some X.
Proof.
  intros HN HX Hc Hs Hnz.
  pose proof (rect_ncols _ _ _ HX HN) as HcolsX.
  set (centred := map (fun row => map2 Rminus row c) X).
  assert (Hcentred : rect N n centred).
  { apply rect_map; [assumption|].
    intros row Hin; rewrite map2_length; rewrite (rect_row _ _ _ _ HX Hin); lia. }
  set (Xs := map (fun row => map2 Rdiv row s) centred).
  assert (HXs : rect N n Xs).
  { apply rect_map; [assumption|].
    intros row Hin; rewrite map2_length;
      rewrite (rect_row _ _ _ _ Hcentred Hin); lia. }
  exists Xs; split; [|split]; [|assumption|].
  - unfold bcast_rows; rewrite HcolsX, Hc, Nat.eqb_refl; cbn [bind]; fold centred.
    unfold bcast_rows_div.
    rewrite (rect_ncols _ _ _ Hcentred HN), Hs, Nat.eqb_refl.
    apply all_some_map; intros row Hin.
    apply row_div_defined; [|assumption].
    rewrite (rect_row _ _ _ _ Hcentred Hin); lia.
  - unfold _inverse_scale, bcast_rows.
    rewrite (rect_ncols _ _ _ HXs HN), Hs, Nat.eqb_refl; cbn [bind].
    assert (Hst : rect N n (map (fun row => map2 Rmult row s) Xs)).
    { apply rect_map; [assumption|].
      intros row Hin; rewrite map2_length;
        rewrite (rect_row _ _ _ _ HXs Hin); lia. }
    rewrite (rect_ncols _ _ _ Hst HN), Hc, Nat.eqb_refl.
    unfold Xs, centred; rewrite !map_map.
    apply f_equal, map_id_on; intros row Hin.
    apply row_round_trip; [| |assumption];
      rewrite (rect_row _ _ _ _ HX Hin); lia.
Qed.

Lemma fold_map2_length (f : R -> R -> R) (rest : array2) (r : array1) (n : nat) :
  length r = n -> Forall (fun row => length row = n) rest ->
  length (fold_left (map2 f) rest r) = n.
Proof.
  revert r; induction rest as [|row rest IH]; intros r Hr Hrest; [assumption|].
  inversion Hrest as [|? ? Hrow Hrest']; subst.
  cbn [fold_left]; apply IH; [|assumption].
  rewrite map2_length; lia.
Qed.

Lemma np_min0_defined (X : array2) (N n : nat) :
  (1 <= N)%nat -> rect N n X ->
  exists v, np_min0 X = Some v /\ length v = n.
Proof.
  intros HN [Hlen Hrows]; destruct X as [|r rest]; [cbn in Hlen; lia|].
  inversion Hrows; subst.
  eexists; split; [reflexivity|]; now apply fold_map2_length.
Qed.

Lemma np_max0_defined (X : array2) (N n : nat) :
  (1 <= N)%nat -> rect N n X ->
  exists v, np_max0 X = Some v /\ length v = n.
Proof.
  intros HN [Hlen Hrows]; destruct X as [|r rest]; [cbn in Hlen; lia|].
  inversion Hrows; subst.
  eexists; split; [reflexivity|]; now apply fold_map2_length.
Qed.

Lemma all_some_seq {A : Type} (f : nat -> option A) (n : nat) :
  (forall j, (j < n)%nat -> exists a, f j = Some a) ->
  exists v, all_some (map f (seq 0 n)) = Some v /\ length v = n.
Proof.
  intros Hf.
  assert (Hgen : forall len start,
             (forall j, (start <= j < start + len)%nat -> exists a, f j = Some a) ->
             exists v, all_some (map f (seq start len)) = Some v /\ length v = len).
  { induction len as [|len IH]; intros start Hs.
    - exists []; split; reflexivity.
    - destruct (Hs start) as [a Ha]; [lia|].
      destruct (IH (S start)) as (v & Hv & Hlen); [intros j Hj; apply Hs; lia|].
      exists (a :: v); cbn [seq map all_some]; rewrite Ha, Hv; cbn.
      split; [reflexivity | now rewrite Hlen]. }
  apply Hgen; intros j Hj; apply Hf; lia.
Qed.

Lemma column_length (X : array2) (j : nat) : length (column X j) = length X.
Proof. unfold column; apply length_map. Qed.

Lemma np_mean_defined (v : array1) :
  v <> [] -> np_mean v = Some (Rsum v / INR (length v)).
Proof.
  intros Hv; unfold np_mean; apply div_defined.
  apply not_0_INR; destruct v; [congruence | cbn; lia].
Qed.

Lemma np_std_defined (v : array1) : v <> [] -> exists sd, np_std v = Some sd.
Proof.
  intros Hv; unfold np_std.
  rewrite (np_mean_defined v Hv); cbn [bind].
  set (mu := Rsum v / INR (length v)).
  set (sq := map (fun x => Rabs (x - mu) ^ 2) v).
  assert (Hsq : sq <> []) by (destruct v; [congruence | discriminate]).
  rewrite (np_mean_defined sq Hsq); cbn [bind].
  unfold np_sqrt.
  destruct (Rle_dec 0 (Rsum sq / INR (length sq))) as [Hle | Hgt];
    [eexists; reflexivity|].
  exfalso; apply Hgt.
  apply Rmult_le_pos.
  - apply Rsum_nonneg, Forall_forall; intros y Hy.
    apply in_map_iff in Hy as (x & <- & _).
    apply pow_le, Rabs_pos.
  - left; apply Rinv_0_lt_compat, lt_0_INR.
    destruct sq; [congruence | cbn; lia].
Qed.

Lemma column_nonempty (X : array2) (N n j : nat) :
  (1 <= N)%nat -> rect N n X -> column X j <> [].
Proof.
  intros HN [Hlen _] Hc.
  apply (f_equal (@length R)) in Hc; rewrite column_length in Hc; cbn in Hc; lia.
Qed.

Lemma np_mean0_defined (X : array2) (N n : nat) :
  (1 <= N)%nat -> rect N n X ->
  exists v, np_mean0 X = Some v /\ length v = n.
Proof.
  intros HN HX; unfold np_mean0; rewrite (rect_ncols _ _ _ HX HN).
  apply all_some_seq; intros j _.
  eexists; apply np_mean_defined; eapply column_nonempty; eassumption.
Qed.

Lemma np_std0_defined (X : array2) (N n : nat) :
  (1 <= N)%nat -> rect N n X ->
  exists v, np_std0 X = Some v /\ length v = n.
Proof.
  intros HN HX; unfold np_std0; rewrite (rect_ncols _ _ _ HX HN).
  apply all_some_seq; intros j _.
  apply np_std_defined; eapply column_nonempty; eassumption.
Qed.

(** C7: on an [N] x [n] matrix with at least one row, either scaler followed
    by the inverse scaler gives the matrix back; the recorded scales have no
    zero entry. *)
Theorem inverse_scale_undoes_scale (X : array2) (N n : nat) :
  (1 <= N)%nat -> rect N n X ->
  (exists (X_scaled : array2) (centers scales : array1),
      _scaleMinMax X = Some (X_scaled, centers, scales) /\
      Forall (fun s => s <> 0) scales /\
      _inverse_scale X_scaled centers scales = Some X)
  /\
  (exists (X_scaled : array2) (centers scales : array1),
      _scaleNormalize X = Some (X_scaled, centers, scales) /\
      Forall (fun s => s <> 0) scales /\
      _inverse_scale X_scaled centers scales = Some X).
Proof.
  intros HN HX; split.
  - destruct (np_min0_defined X N n HN HX) as (Xmin & Hmin & Hlmin).
    destruct (np_max0_defined X N n HN HX) as (Xmax & Hmax & Hlmax).
    set (scale := replace_zeros (map2 Rminus Xmax Xmin)).
    assert (Hls : length scale = n).
    { unfold scale; rewrite replace_zeros_length, map2_length; lia. }
    destruct (scaler_round_trip X N n Xmin scale HN HX Hlmin Hls
                (replace_zeros_nonzero _)) as (Xs & Hfwd & _ & Hback).
    exists Xs, Xmin, scale; split; [|split];
      [|apply replace_zeros_nonzero|assumption].
    unfold _scaleMinMax; rewrite Hmin, Hmax; cbn [bind].
    unfold vec_op; rewrite Hlmax, Hlmin, Nat.eqb_refl; cbn [bind]; fold scale.
    destruct (bcast_rows Rminus X Xmin) as [centred|]; [|discriminate].
    cbn [bind] in *; rewrite Hfwd; reflexivity.
  - destruct (np_mean0_defined X N n HN HX) as (means & Hmean & Hlmean).
    destruct (np_std0_defined X N n HN HX) as (sds & Hstd & Hlstd).
    set (scales := replace_zeros sds).
    assert (Hls : length scales = n).
    { unfold scales; rewrite replace_zeros_length; lia. }
    destruct (scaler_round_trip X N n means scales HN HX Hlmean Hls
                (replace_zeros_nonzero _)) as (Xs & Hfwd & _ & Hback).
    exists Xs, means, scales; split; [|split];
      [|apply replace_zeros_nonzero|assumption].
    unfold _scaleNormalize; rewrite Hmean, Hstd; cbn [bind]; fold scales.
    destruct (bcast_rows Rminus X means) as [centred|]; [|discriminate].
    cbn [bind] in *; rewrite Hfwd; reflexivity.
Qed.

Lemma inverse_scale_undoes_scale_witness :
  (1 <= 2)%nat /\ rect 2 2 [[1; 2]; [1; 5]] /\
  ((exists (X_scaled : array2) (centers scales : array1),
       _scaleMinMax [[1; 2]; [1; 5]] = Some (X_scaled, centers, scales) /\
       Forall (fun s => s <> 0) scales /\
       _inverse_scale X_scaled centers scales = Some [[1; 2]; [1; 5]])
   /\
   (exists (X_scaled : array2) (centers scales : array1),
       _scaleNormalize [[1; 2]; [1; 5]] = Some (X_scaled, centers, scales) /\
       Forall (fun s => s <> 0) scales /\
       _inverse_scale X_scaled centers scales = Some [[1; 2]; [1; 5]])).
Proof.
  assert (H1 : (1 <= 2)%nat) by lia.
  assert (H2 : rect 2 2 [[1; 2]; [1; 5]])
    by (split; [reflexivity | repeat constructor]).
  split; [exact H1|]. split; [exact H2|].
  exact (inverse_scale_undoes_scale [[1; 2]; [1; 5]] 2 2 H1 H2).
Defined.

(** * Conditioning weights *)

Lemma np_std_value (v : array1) :
  v <> [] ->
  np_std v
  = Some (sqrt (Rsum (map (fun x => Rabs (x - Rsum v / INR (length v)) ^ 2) v)
                / INR (length v))).
Proof.
  intros Hv; unfold np_std.
  rewrite (np_mean_defined v Hv); cbn [bind].
  set (mu := Rsum v / INR (length v)).
  set (sq := map (fun x => Rabs (x - mu) ^ 2) v).
  assert (Hsq : sq <> []) by (destruct v; [congruence | discriminate]).
  rewrite (np_mean_defined sq Hsq); cbn [bind].
  replace (length sq) with (length v) by (unfold sq; now rewrite length_map).
  unfold np_sqrt.
  destruct (Rle_dec 0 (Rsum sq / INR (length v))) as [Hle | Hgt];
    [reflexivity|].
  exfalso; apply Hgt.
  apply Rmult_le_pos.
  - apply Rsum_nonneg, Forall_forall; intros y Hy.
    apply in_map_iff in Hy as (x & <- & _).
    apply pow_le, Rabs_pos.
  - left; apply Rinv_0_lt_compat, lt_0_INR.
    destruct v; [congruence | cbn; lia].
Qed.

(** A sample with two different values has a standard deviation that is not
    zero. *)
Lemma np_std_nonzero (v : array1) (x x' sd : R) :
  In x v -> In x' v -> x <> x' -> np_std v = Some sd -> sd <> 0.
Proof.
  intros Hx Hx' Hne Hsd.
  assert (Hv : v <> []) by (intros ->; contradiction).
  rewrite (np_std_value v Hv) in Hsd; injection Hsd as <-.
  set (mu := Rsum v / INR (length v)).
  assert (Hn : 0 < INR (length v)).
  { apply lt_0_INR; destruct v; [congruence | cbn; lia]. }
  assert (Hy : exists y, In y v /\ y <> mu).
  { destruct (Req_dec_T x mu) as [-> | Hxm]; [exists x'; auto | exists x; auto]. }
  destruct Hy as (y & Hy & Hym).
  assert (Hsum : 0 < Rsum (map (fun x => Rabs (x - mu) ^ 2) v)).
  { apply (Rsum_pos_exists _ (Rabs (y - mu) ^ 2)).
    - apply Forall_forall; intros z Hz.
      apply in_map_iff in Hz as (z0 & <- & _); apply pow_le, Rabs_pos.
    - apply in_map_iff; exists y; auto.
    - apply pow_lt, Rabs_pos_lt; lra. }
  apply Rgt_not_eq, Rlt_gt, sqrt_lt_R0.
  apply Rmult_lt_0_compat; [assumption | now apply Rinv_0_lt_compat].
Qed.

Lemma all_some_seq_forall {A : Type} (f : nat -> option A) (P : A -> Prop)
  (n : nat) (v : list A) :
  all_some (map f (seq 0 n)) = Some v ->
  (forall j a, (j < n)%nat -> f j = Some a -> P a) ->
  Forall P v.
Proof.
  intros Hv HP.
  apply all_some_inv in Hv.
  apply Forall_forall; intros a Ha.
  assert (Hin : In (Some a) (map f (seq 0 n))) by (rewrite Hv; now apply in_map).
  apply in_map_iff in Hin as (j & Hj & Hjn).
  apply in_seq in Hjn; apply (HP j); [lia | assumption].
Qed.

Lemma column_item_in (W : array2) (i j : nat) :
  (i < length W)%nat -> In (entry W i j) (column W j).
Proof.
  intros Hi; unfold column, entry.
  apply in_map_iff; exists (nth i W []); split; [reflexivity|].
  now apply nth_In.
Qed.

Lemma np_max_defined (v : array1) : v <> [] -> exists top, np_max v = Some top.
Proof. destruct v; [congruence | intros _; eexists; reflexivity]. Qed.

(** C9 (as the code has it): when [W] has at least one row and no constant
    column, the weights are defined, non-negative, and sum to one. *)
Theorem conditional_weights_normalised (W : array2) (w0 : array1) (sw : R)
  (N nw nq : nat) :
  (1 <= N)%nat -> rect N nw W -> length w0 = nw -> 0 < sw ->
  (forall j : nat, (j < nw)%nat ->
     exists i i' : nat, (i < N)%nat /\ (i' < N)%nat /\
                        entry W i j <> entry W i' j) ->
  exists weights : array1,
    _get_conditional_weights W w0 (Some sw) nq = Some weights /\
    length weights = N /\
    Forall (fun a => 0 <= a) weights /\
    Rsum weights = 1.
Proof.
  intros HN HW Hw0 Hsw Hcols.
  destruct (np_std0_defined W N nw HN HW) as (w_std & Hstd & Hlstd).
  assert (Hnz : Forall (fun s => s <> 0) w_std).
  { unfold np_std0 in Hstd; rewrite (rect_ncols _ _ _ HW HN) in Hstd.
    apply (all_some_seq_forall _ _ _ _ Hstd); intros j sd Hj Hsd.
    destruct (Hcols j Hj) as (i & i' & Hi & Hi' & Hne).
    destruct HW as [HlenW _].
    apply (np_std_nonzero (column W j) (entry W i j) (entry W i' j));
      auto; apply column_item_in; lia. }
  destruct (scaler_round_trip W N nw w0 w_std HN HW Hw0 Hlstd Hnz)
    as (standardized & Hfwd & Hrect & _).
  unfold _get_conditional_weights, shape.
  rewrite Hstd; cbn [bind].
  destruct (bcast_rows Rminus W w0) as [centred|]; [|discriminate].
  cbn [bind] in *; rewrite Hfwd; cbn [bind].
  rewrite div_defined by nra; cbn [bind].
  set (w_norms := map (fun n => -1 / (2 * sw ^ 2) * n ^ 2)
                    (norm_axis1 standardized)).
  assert (Hlen : length w_norms = N).
  { unfold w_norms, norm_axis1; rewrite !length_map; apply Hrect. }
  destruct (np_max_defined w_norms) as [top Htop].
  { intros Hnil; rewrite Hnil in Hlen; cbn in Hlen; lia. }
  rewrite Htop; cbn [bind].
  set (w_dist := map (fun x => exp (x - top)) w_norms).
  assert (Hpos : Forall (fun x => 0 < x) w_dist).
  { apply Forall_forall; intros y Hy.
    apply in_map_iff in Hy as (x & <- & _); apply exp_pos. }
  assert (Htot : 0 < Rsum w_dist).
  { apply Rsum_pos; [|assumption].
    intros Hnil; apply (f_equal (@length R)) in Hnil.
    unfold w_dist in Hnil; rewrite length_map, Hlen in Hnil; cbn in Hnil; lia. }
  rewrite vec_div_scalar_defined by lra.
  eexists; split; [reflexivity|]. split; [|split].
  - unfold w_dist; now rewrite !length_map.
  - apply Forall_forall; intros y Hy.
    apply in_map_iff in Hy as (x & <- & Hx).
    rewrite Forall_forall in Hpos; specialize (Hpos x Hx).
    apply Rmult_le_pos; [lra|]; left; now apply Rinv_0_lt_compat.
  - rewrite Rsum_map_div; field; lra.
Qed.

Lemma conditional_weights_normalised_witness :
  (1 <= 2)%nat /\ rect 2 1 [[0]; [2]] /\ length [1] = 1%nat /\ 0 < 1 /\
  (forall j : nat, (j < 1)%nat ->
     exists i i' : nat, (i < 2)%nat /\ (i' < 2)%nat /\
                        entry [[0]; [2]] i j <> entry [[0]; [2]] i' j) /\
  exists weights : array1,
    _get_conditional_weights [[0]; [2]] [1] (Some 1) 1 = Some weights /\
    length weights = 2%nat /\
    Forall (fun a => 0 <= a) weights /\
    Rsum weights = 1.
Proof.
  assert (H1 : (1 <= 2)%nat) by lia.
  assert (H2 : rect 2 1 [[0]; [2]])
    by (split; [reflexivity | repeat constructor]).
  assert (H3 : length [1] = 1%nat) by reflexivity.
  assert (H4 : 0 < 1) by lra.
  assert (H5 : forall j : nat, (j < 1)%nat ->
     exists i i' : nat, (i < 2)%nat /\ (i' < 2)%nat /\
                        entry [[0]; [2]] i j <> entry [[0]; [2]] i' j).
  { intros j Hj; exists 0%nat, 1%nat.
    split; [lia|]. split; [lia|].
    destruct j as [|j]; [cbn; lra | lia]. }
  split; [exact H1|]. split; [exact H2|]. split; [exact H3|].
  split; [exact H4|]. split; [exact H5|].
  exact (conditional_weights_normalised [[0]; [2]] [1] 1 2 1 1 H1 H2 H3 H4 H5).
Defined.

(** The standard deviation of a constant sample is zero. *)
Lemma np_std_constant_pair : np_std [1; 1] = Some 0.
Proof.
  rewrite np_std_value by discriminate.
  cbn [length map Rsum fold_right].
  replace (INR 2) with 2 by (cbn; lra).
  replace ((1 + (1 + 0)) / 2) with 1 by lra.
  replace (1 - 1) with 0 by lra.
  rewrite Rabs_R0.
  replace ((0 ^ 2 + (0 ^ 2 + 0)) / 2) with 0 by lra.
  now rewrite sqrt_0.
Qed.

(** On the constant column [[1]; [1]] the standardisation divides by a zero
    standard deviation and the weights have no finite value. *)
Lemma conditional_weights_constant_column :
  _get_conditional_weights [[1]; [1]] [0] (Some 1) 1 = None.
Proof.
  unfold _get_conditional_weights, shape, np_std0.
  cbn [ncols nrows length seq map column item nth all_some].
  rewrite np_std_constant_pair; cbn [bind].
  unfold bcast_rows; cbn [ncols length Nat.eqb map map2 bind].
  unfold bcast_rows_div; cbn [ncols length Nat.eqb map map2 all_some].
  unfold div, np_divide.
  destruct (Req_dec_T 0 0) as [_ | Hne]; [|congruence].
  destruct (Rlt_dec 0 (1 - 0)) as [_ | Hn]; [reflexivity | lra].
Qed.

(** C9, as the specification words it, fails on a conditioning sample with a
    constant column: the code yields no weights that are non-negative and sum
    to one. *)
Lemma conditional_weights_counterexample :
  ~ exists weights : array1,
      _get_conditional_weights [[1]; [1]] [0] (Some 1) 1 = Some weights /\
      Forall (fun a => 0 <= a) weights /\
      Rsum weights = 1.
Proof.
  intros (weights & Hw & _).
  rewrite conditional_weights_constant_column in Hw; discriminate.
Qed.

(** * Sample projection *)

(** The reduction matrix [a = g (g^T g)^-1] is computed whenever [g^T g] has
    an inverse, and then [g^T a] is the identity. *)
Lemma reduction_matrix (g W : array2) (N m : nat) :
  (1 <= N)%nat -> (1 <= m)%nat -> rect N m g ->
  is_inverse (matmul (transpose g) g) W ->
  np_dot (transpose g) g = Some (matmul (transpose g) g) /\
  linalg_inv (matmul (transpose g) g) = Some W /\
  np_dot g W = Some (matmul g W) /\
  rect N m (matmul g W) /\
  matmul (transpose g) (matmul g W) = identity m.
Proof.
  intros HN Hm Hg Hinv.
  pose proof (transpose_rect_shape N m g Hg HN) as Hgt.
  destruct (np_dot_rect m N m _ g Hgt Hg Hm HN) as [Hdot Hgram].
  assert (HW : rect m m W /\ matmul (matmul (transpose g) g) W = identity m).
  { destruct Hinv as (n & HM & HWn & HMW & _).
    assert (n = m) by (destruct HM, Hgram; congruence); subst n; auto. }
  destruct HW as [HW HMW].
  destruct (np_dot_rect N m m g W Hg HW HN Hm) as [Hdot' Ha].
  repeat split; try assumption; try apply Ha.
  - now apply linalg_inv_spec.
  - rewrite <- (matmul_assoc m N m m (transpose g) g W) by assumption.
    exact HMW.
Qed.

(** [_sample_projection] on an [H] that it transposes ([H.shape[1]] differs
    from the number of rows of [a]) and on one that it takes as it is. *)
Lemma sample_projection_transposed (H g W : array2) (N m nu : nat) :
  (1 <= N)%nat -> (1 <= m)%nat -> (1 <= nu)%nat -> nu <> N ->
  rect N m g -> rect N nu H ->
  is_inverse (matmul (transpose g) g) W ->
  _sample_projection H g
  = Some (matmul (transpose H) (matmul g W), matmul g W).
Proof.
  intros HN Hm Hnu Hne Hg HH Hinv.
  destruct (reduction_matrix g W N m HN Hm Hg Hinv)
    as (Hgram & HinvW & Ha & Harect & _).
  unfold _sample_projection.
  rewrite Hgram; cbn [bind]; rewrite HinvW; cbn [bind]; rewrite Ha; cbn [bind].
  rewrite (rect_ncols N nu H HH HN), (rect_nrows N m _ Harect).
  destruct (nu =? N)%nat eqn:E; [apply Nat.eqb_eq in E; contradiction|].
  cbn [negb].
  pose proof (transpose_rect_shape N nu H HH HN) as HHt.
  rewrite (proj1 (np_dot_rect nu N m _ _ HHt Harect Hnu HN)).
  reflexivity.
Qed.

Lemma sample_projection_square (H g W : array2) (N m : nat) :
  (1 <= N)%nat -> (1 <= m)%nat ->
  rect N m g -> rect N N H ->
  is_inverse (matmul (transpose g) g) W ->
  _sample_projection H g = Some (matmul H (matmul g W), matmul g W).
Proof.
  intros HN Hm Hg HH Hinv.
  destruct (reduction_matrix g W N m HN Hm Hg Hinv)
    as (Hgram & HinvW & Ha & Harect & _).
  unfold _sample_projection.
  rewrite Hgram; cbn [bind]; rewrite HinvW; cbn [bind]; rewrite Ha; cbn [bind].
  rewrite (rect_ncols N N H HH HN), (rect_nrows N m _ Harect), Nat.eqb_refl.
  cbn [negb].
  rewrite (proj1 (np_dot_rect N N m _ _ HH Harect HN HN)).
  reflexivity.
Qed.

(** X11: the invariant of the reduction matrix, and the round trip when the
    number [nu] of features differs from the number [N] of samples: [g^T a]
    is the identity and projecting [g Z^T] gives [Z] back. *)
Theorem sample_projection_round_trip (g Z : array2) (N m nu : nat) :
  (1 <= N)%nat -> (1 <= m)%nat -> (1 <= nu)%nat -> nu <> N ->
  rect N m g -> rect nu m Z ->
  (exists W, is_inverse (matmul (transpose g) g) W) ->
  exists H a : array2,
    _inverse_sample_projection Z g = Some H /\
    _sample_projection H g = Some (Z, a) /\
    matmul (transpose g) a = identity m.
Proof.
  intros HN Hm Hnu Hne Hg HZ [W Hinv].
  destruct (reduction_matrix g W N m HN Hm Hg Hinv)
    as (_ & _ & _ & Harect & Hleft).
  pose proof (transpose_rect_shape nu m Z HZ Hnu) as HZt.
  pose proof (transpose_rect_shape N m g Hg HN) as Hgt.
  destruct (np_dot_rect N m nu g _ Hg HZt HN Hm) as [Hdot HH].
  exists (matmul g (transpose Z)), (matmul g W).
  split; [exact Hdot|]. split; [|exact Hleft].
  rewrite (sample_projection_transposed _ g W N m nu) by assumption.
  rewrite (transpose_matmul N m nu g _ Hg HZt HN Hm Hnu).
  rewrite (transpose_involutive nu m Z HZ Hnu Hm).
  rewrite (matmul_assoc nu m N m Z _ _ HZ Hgt Harect Hnu Hm HN).
  rewrite Hleft.
  now rewrite (matmul_identity_r nu m Z HZ Hnu Hm).
Qed.

Lemma sample_projection_round_trip_witness :
  (1 <= 1)%nat /\ (1 <= 1)%nat /\ (1 <= 2)%nat /\ 2%nat <> 1%nat /\
  rect 1 1 [[2]] /\ rect 2 1 [[3]; [5]] /\
  (exists W, is_inverse (matmul (transpose [[2]]) [[2]]) W) /\
  exists H a : array2,
    _inverse_sample_projection [[3]; [5]] [[2]] = Some H /\
    _sample_projection H [[2]] = Some ([[3]; [5]], a) /\
    matmul (transpose [[2]]) a = identity 1.
Proof.
  assert (H1 : (1 <= 1)%nat) by lia.
  assert (H2 : (1 <= 2)%nat) by lia.
  assert (H3 : 2%nat <> 1%nat) by lia.
  assert (H4 : rect 1 1 [[2]]) by (split; [reflexivity | repeat constructor]).
  assert (H5 : rect 2 1 [[3]; [5]])
    by (split; [reflexivity | repeat constructor]).
  assert (H6 : exists W, is_inverse (matmul (transpose [[2]]) [[2]]) W).
  { exists [[1/4]]; exists 1%nat.
    split; [split; [reflexivity | repeat constructor]|].
    split; [split; [reflexivity | repeat constructor]|].
    split; cbn; do 2 f_equal; lra. }
  split; [exact H1|]. split; [exact H1|]. split; [exact H2|].
  split; [exact H3|]. split; [exact H4|]. split; [exact H5|].
  split; [exact H6|].
  exact (sample_projection_round_trip [[2]] [[3]; [5]] 1 1 2 H1 H1 H2 H3 H4 H5 H6).
Defined.

(** C6, the round trip on a square data matrix ([nu = N = 2], [m = 1]): with
    [g = [[1]; [0]]] and [Z = [[1]; [1]]] the inverse projection gives
    [g Z^T = [[1, 1]; [0, 0]]], which [_sample_projection] does not transpose
    because its two extents agree, and the projection answers [[1]; [0]]
    instead of [Z]. *)
Theorem sample_projection_square_loses_Z :
  exists H : array2,
    _inverse_sample_projection [[1]; [1]] [[1]; [0]] = Some H /\
    H = [[1; 1]; [0; 0]] /\
    _sample_projection H [[1]; [0]] = Some ([[1]; [0]], [[1]; [0]]).
Proof.
  assert (Hg : rect 2 1 [[1]; [0]]) by (split; [reflexivity | repeat constructor]).
  assert (HH : matmul [[1]; [0]] (transpose [[1]; [1]]) = [[1; 1]; [0; 0]]).
  { cbn; repeat (f_equal; try lra). }
  exists [[1; 1]; [0; 0]]; split; [|split; [reflexivity|]].
  - unfold _inverse_sample_projection, np_dot; cbn [ncols nrows length].
    cbn [transpose ncols nrows length mk_array2 seq map mk_array1 Nat.eqb].
    f_equal; exact HH.
  - assert (Hinv : is_inverse (matmul (transpose [[1]; [0]]) [[1]; [0]]) [[1]]).
    { exists 1%nat.
      split; [split; [reflexivity | repeat constructor]|].
      split; [split; [reflexivity | repeat constructor]|].
      split; cbn; do 2 f_equal; lra. }
    rewrite (sample_projection_square _ [[1]; [0]] [[1]] 2 1);
      [| lia | lia | exact Hg | split; [reflexivity | repeat constructor]
       | exact Hinv].
    cbn; repeat (f_equal; try lra).
Qed.

(** * The KDE gradient *)

Lemma float_pow_pos (x y : R) : 0 < x -> float_pow x y = Some (Rpower x y).
Proof.
  intros Hx; unfold float_pow.
  destruct (Rlt_dec 0 x); [reflexivity | contradiction].
Qed.

Lemma np_sqrt_nonneg (x : R) : 0 <= x -> np_sqrt x = Some (sqrt x).
Proof.
  intros Hx; unfold np_sqrt.
  destruct (Rle_dec 0 x); [reflexivity | contradiction].
Qed.

Lemma Rpower_pos (x y : R) : 0 < Rpower x y.
Proof. unfold Rpower; apply exp_pos. Qed.

(** The bandwidths of the code are Silverman's [s] and [shat] of the
    specification, and both are positive. *)
Lemma kde_bandwidths_value (H : array2) (beta : R) :
  (1 <= ncols H)%nat -> 0 < beta ->
  kde_bandwidths (nrows H) (ncols H) beta
    = Some (silverman_s H beta, silverman_shat H beta) /\
  0 < silverman_s H beta /\ 0 < silverman_shat H beta.
Proof.
  intros HN Hbeta.
  set (nu := nrows H); set (N := ncols H) in *.
  assert (HNr : 1 <= INR N) by (replace 1 with (INR 1) by reflexivity; now apply le_INR).
  assert (Hnur : 0 <= INR nu) by apply pos_INR.
  assert (Hbase : INR (N * (2 + nu)) = INR N * (2 + INR nu)).
  { rewrite mult_INR, plus_INR; cbn [INR]; ring. }
  assert (Hexp : INR (nu + 4) = INR nu + 4).
  { rewrite plus_INR; cbn [INR]; ring. }
  assert (Hbpos : 0 < INR N * (2 + INR nu)) by nra.
  assert (Hs : 0 < silverman_s H beta).
  { unfold silverman_s; apply Rmult_lt_0_compat; [apply Rpower_pos | assumption]. }
  assert (Hfrac : 0 <= (INR N - 1) / INR N).
  { apply Rmult_le_pos; [lra|]. left; apply Rinv_0_lt_compat; lra. }
  assert (Hrad : 0 < silverman_s H beta ^ 2 + (INR N - 1) / INR N)
    by (assert (0 < silverman_s H beta ^ 2) by (apply pow_lt; assumption); lra).
  assert (Hroot : 0 < sqrt (silverman_s H beta ^ 2 + (INR N - 1) / INR N))
    by now apply sqrt_lt_R0.
  split; [|split; [assumption|]].
  - unfold kde_bandwidths.
    rewrite div_defined by (rewrite Hbase; lra); cbn [bind].
    rewrite float_pow_pos
      by (rewrite Hbase; apply Rmult_lt_0_compat;
          [lra | now apply Rinv_0_lt_compat]); cbn [bind].
    rewrite div_defined by lra; cbn [bind].
    rewrite Hbase, Hexp.
    fold nu N; change (Rpower (4 / (INR N * (2 + INR nu))) (1 / (INR nu + 4)) * beta)
      with (silverman_s H beta).
    rewrite np_sqrt_nonneg by lra; cbn [bind].
    rewrite div_defined by lra; cbn [bind].
    reflexivity.
  - unfold silverman_shat; fold nu N.
    apply Rmult_lt_0_compat; [assumption | now apply Rinv_0_lt_compat].
Qed.

Lemma sqrt_pow2 (x : R) : 0 <= x -> sqrt x ^ 2 = x.
Proof. intros Hx; cbn [pow]; rewrite Rmult_1_r; now apply sqrt_sqrt. Qed.

(** The table computed by the joint KDE of the code (methods 1 and 2) is the
    gradient of the log-density of the specification. *)
Lemma joint_kde_gradient_value (H u : array2) (beta : R) (nu N M : nat) :
  (1 <= nu)%nat -> (1 <= N)%nat -> (1 <= M)%nat ->
  rect nu N H -> rect nu M u -> 0 < beta ->
  joint_kde_gradient H u beta = Some (grad_log_q H u beta).
Proof.
  intros Hnu HN HM HH Hu Hbeta.
  pose proof (rect_nrows nu N H HH) as HrH.
  pose proof (rect_ncols nu N H HH Hnu) as HcH.
  pose proof (rect_ncols nu M u Hu Hnu) as Hcu.
  destruct (kde_bandwidths_value H beta) as (Hbw & Hs & Hshat);
    [rewrite HcH; exact HN | exact Hbeta |].
  set (s := silverman_s H beta) in *.
  set (shat := silverman_shat H beta) in *.
  assert (HNr : 0 < INR N) by (apply lt_0_INR; lia).
  assert (Hshat2 : 0 < shat ^ 2) by now apply pow_lt.
  set (c := -1 / (2 * shat ^ 2)).
  (* the distances, the kernel values and their sums, as tables *)
  set (r := fun l i k => entry H i k * shat / s - entry u i l).
  set (w := fun l k => exp (c * sqrt (sum_n nu (fun i => r l i k ^ 2)) ^ 2)).
  set (q := fun l => sum_n N (w l) / INR N).
  set (dq := fun l i => sum_n N (fun k => r l i k * w l k) / shat ^ 2 / INR N).
  assert (Hq : forall l, 0 < q l).
  { intros l; unfold q; apply Rmult_lt_0_compat;
      [|now apply Rinv_0_lt_compat].
    apply sum_n_pos; [assumption | intros k _; apply exp_pos]. }
  unfold joint_kde_gradient, shape.
  rewrite Hbw; cbn [bind]; fold s shat.
  (* scaled_H *)
  assert (HHm : map (map (fun h => h * shat)) H
                = mk_array2 nu N (fun i k => entry H i k * shat)).
  { transitivity (map (map (fun h => h * shat)) (mk_array2 nu N (entry H))).
    - f_equal; now apply rect_as_mk_array2.
    - apply map_map_mk_array2. }
  rewrite HHm, arr_div_scalar_mk_array2 by lra; cbn [bind].
  rewrite transpose_mk_array2 by assumption.
  (* dist_mat_list *)
  rewrite (transpose_rect nu M u Hu Hnu).
  unfold mk_array2 at 2; rewrite map_map.
  rewrite (all_some_map_seq _ (fun l => mk_array2 nu N (r l))).
  2:{ intros l Hl.
      rewrite bcast_rows_mk_array2 by assumption; cbn [bind].
      now rewrite transpose_mk_array2 by assumption. }
  cbn [bind].
  rewrite div_defined by lra; cbn [bind]; fold c.
  (* norms_list *)
  rewrite HcH.
  assert (Hnorms :
            map (fun x => map (fun n => exp (c * n ^ 2)) (norm_axis0 x))
              (map (fun l => mk_array2 nu N (r l)) (seq 0 M))
            = map (fun l => mk_array1 N (w l)) (seq 0 M)).
  { rewrite map_map; apply map_ext; intros l.
    rewrite norm_axis0_mk_array2 by assumption.
    now rewrite map_mk_array1. }
  rewrite Hnorms.
  (* q_list *)
  assert (Hsums : map Rsum (map (fun l => mk_array1 N (w l)) (seq 0 M))
                  = map (fun l => sum_n N (w l)) (seq 0 M))
    by (rewrite map_map; reflexivity).
  rewrite Hsums.
  rewrite vec_div_scalar_defined by lra; cbn [bind].
  assert (Hqs : map (fun x => x / INR N) (map (fun l => sum_n N (w l)) (seq 0 M))
                = map q (seq 0 M))
    by (rewrite map_map; reflexivity).
  rewrite Hqs.
  (* product *)
  rewrite (map2_map_map np_dot_vec (fun l => mk_array2 nu N (r l))
             (fun l => mk_array1 N (w l)) (seq 0 M)).
  rewrite (all_some_map_seq _
             (fun l => mk_array1 nu (fun i => sum_n N (fun k => r l i k * w l k)))).
  2:{ intros l Hl; now apply np_dot_vec_mk_array2. }
  cbn [bind].
  fold (mk_array2 M nu (fun l i => sum_n N (fun k => r l i k * w l k))).
  rewrite arr_div_scalar_mk_array2 by lra; cbn [bind].
  rewrite arr_div_scalar_mk_array2 by lra; cbn [bind].
  (* pot *)
  change (mk_array2 M nu
            (fun i j => sum_n N (fun k => r i j k * w i k) / shat ^ 2 / INR N))
    with (map (fun l => mk_array1 nu (dq l)) (seq 0 M)).
  rewrite (map2_map_map (fun row q0 => vec_div_scalar row q0)
             (fun l => mk_array1 nu (dq l)) q (seq 0 M)).
  rewrite (all_some_map_seq _ (fun l => mk_array1 nu (fun i => dq l i / q l))).
  2:{ intros l Hl.
      rewrite vec_div_scalar_defined by (specialize (Hq l); lra).
      now rewrite map_mk_array1. }
  cbn [bind].
  fold (mk_array2 M nu (fun l i => dq l i / q l)).
  rewrite transpose_mk_array2 by assumption.
  (* comparison with the specification *)
  f_equal; unfold grad_log_q; rewrite HrH, Hcu.
  apply mk_array2_ext; intros i l Hi Hl.
  assert (Hr : forall k, kde_r H u beta k l i = r l i k).
  { intros k; unfold kde_r, r; fold s shat; field; lra. }
  assert (Hw : forall k, kde_w H u beta k l = w l k).
  { intros k; unfold kde_w, w; fold s shat; rewrite HrH.
    assert (Hsum : sum_n nu (fun i0 => kde_r H u beta k l i0 ^ 2)
                   = sum_n nu (fun i0 => r l i0 k ^ 2)).
    { apply sum_n_ext; intros i0 _.
      unfold kde_r, r; fold s shat; f_equal; field; lra. }
    rewrite Hsum, sqrt_pow2
      by (apply sum_n_nonneg; intros i0 _; apply pow2_ge_0).
    f_equal; unfold c; field; lra. }
  unfold kde_grad_q, kde_q; fold s shat; rewrite HcH.
  rewrite (sum_n_ext N (fun k => kde_r H u beta k l i * kde_w H u beta k l)
             (fun k => r l i k * w l k))
    by (intros k _; now rewrite Hr, Hw).
  rewrite (sum_n_ext N (fun k => kde_w H u beta k l) (w l))
    by (intros k _; apply Hw).
  unfold dq, q.
  assert (Hsw : 0 < sum_n N (w l))
    by (apply sum_n_pos; [assumption | intros k _; apply exp_pos]).
  field; repeat split; lra.
Qed.

Lemma grad_log_q_rect (H u : array2) (beta : R) (nu N M : nat) :
  (1 <= nu)%nat -> rect nu N H -> rect nu M u ->
  rect nu M (grad_log_q H u beta).
Proof.
  intros Hnu HH Hu; unfold grad_log_q.
  rewrite (rect_nrows nu N H HH), (rect_ncols nu M u Hu Hnu).
  apply mk_array2_rect.
Qed.



(** * The Ito step *)

Lemma smul_as_table (k : R) (r c : nat) (A : array2) :
  rect r c A -> smul k A = mk_array2 r c (fun i j => k * entry A i j).
Proof.
  intros HA; unfold smul.
  transitivity (map (map (Rmult k)) (mk_array2 r c (entry A))).
  - f_equal; now apply rect_as_mk_array2.
  - apply map_map_mk_array2.
Qed.

Lemma smul_rect (k : R) (r c : nat) (A : array2) :
  rect r c A -> rect r c (smul k A).
Proof. intros HA; rewrite (smul_as_table k r c A HA); apply mk_array2_rect. Qed.

Lemma madd_as_table (r c : nat) (A B : array2) :
  rect r c A -> rect r c B ->
  madd A B = mk_array2 r c (fun i j => entry A i j + entry B i j).
Proof.
  intros HA HB; unfold madd.
  transitivity (map2 (map2 Rplus) (mk_array2 r c (entry A))
                  (mk_array2 r c (entry B))).
  - f_equal; now apply rect_as_mk_array2.
  - apply map2_mk_array2.
Qed.

Lemma np_add_rect (r c : nat) (A B : array2) :
  (1 <= r)%nat -> rect r c A -> rect r c B ->
  np_add A B = Some (madd A B) /\ rect r c (madd A B).
Proof.
  intros Hr HA HB; split.
  - unfold np_add, mat_op.
    rewrite (rect_nrows r c A HA), (rect_nrows r c B HB),
      (rect_ncols r c A HA Hr), (rect_ncols r c B HB Hr), !Nat.eqb_refl.
    reflexivity.
  - rewrite (madd_as_table r c A B HA HB); apply mk_array2_rect.
Qed.

Lemma matmul_smul_l (k : R) (p q r : nat) (A B : array2) :
  (1 <= p)%nat -> (1 <= q)%nat -> rect p q A -> rect q r B ->
  matmul (smul k A) B = smul k (matmul A B).
Proof.
  intros Hp Hq HA HB.
  pose proof (smul_rect k p q A HA) as HkA.
  pose proof (proj2 (np_dot_rect p q r A B HA HB Hp Hq)) as HAB.
  rewrite (matmul_rect p q r _ B HkA HB Hp Hq).
  rewrite (smul_as_table k p r _ HAB).
  apply mk_array2_ext; intros i j Hi Hj.
  rewrite (matmul_rect p q r A B HA HB Hp Hq), entry_mk_array2 by assumption.
  rewrite <- sum_n_scal; apply sum_n_ext; intros l Hl.
  rewrite (smul_as_table k p q A HA), entry_mk_array2 by assumption; ring.
Qed.

Lemma randn_rect (rows cols : nat) (g : rng) :
  rect rows cols (fst (randn rows cols g)).
Proof. apply mk_array2_rect. Qed.

Lemma sqrt_as_power (x : R) : 0 < x -> Rpower x (1 / 2) = sqrt x.
Proof.
  intros Hx; replace (1 / 2) with (/ 2) by lra; now apply Rpower_sqrt.
Qed.

(** The step of the code, computed: every shape test passes, every quotient
    is defined, and the result is the one the specification writes. *)
Lemma ito_step_value (Z Y H g a : array2) (f0 dr beta : R) (gen : rng)
  (nu N m : nat) :
  (1 <= nu)%nat -> (1 <= N)%nat -> (1 <= m)%nat ->
  rect nu m Z -> rect nu m Y -> rect nu N H -> rect N m g -> rect N m a ->
  0 < f0 -> 0 < dr -> 0 < beta ->
  _simulate_ito_step Z Y H g a f0 dr beta 2 gen
  = Some (fst (ito_step_spec Z Y H g a f0 dr beta (fst (randn nu N gen))),
          snd (ito_step_spec Z Y H g a f0 dr beta (fst (randn nu N gen))),
          snd (randn nu N gen)).
Proof.
  intros Hnu HN Hm HZ HY HH Hg Ha Hf0 Hdr Hbeta.
  set (b := f0 * dr / 4).
  assert (Hb : 0 < 1 + b) by (unfold b; nra).
  set (draw := fst (randn nu N gen)).
  pose proof (randn_rect nu N gen) as Hdraw; fold draw in Hdraw.
  (* the half position *)
  destruct (np_add_rect nu m Z (smul (dr / 2) Y) Hnu HZ (smul_rect _ _ _ _ HY))
    as [HaddZ HZhalf].
  set (Zhalf := madd Z (smul (dr / 2) Y)) in *.
  (* the force *)
  pose proof (transpose_rect_shape N m g Hg HN) as Hgt.
  destruct (np_dot_rect nu m N Zhalf _ HZhalf Hgt Hnu Hm) as [Hdotu Hu].
  set (u := matmul Zhalf (transpose g)) in *.
  pose proof (joint_kde_gradient_value H u beta nu N N Hnu HN HN HH Hu Hbeta)
    as Hpot.
  pose proof (grad_log_q_rect H u beta nu N N Hnu HH Hu) as Hpotr.
  destruct (np_dot_rect nu N m _ a Hpotr Ha Hnu HN) as [HdotL HL].
  set (L := matmul (grad_log_q H u beta) a) in *.
  (* the Wiener increment *)
  destruct (np_dot_rect nu N m _ a (smul_rect (sqrt dr) _ _ _ Hdraw) Ha Hnu HN)
    as [HdotW _].
  rewrite (matmul_smul_l (sqrt dr) nu N m draw a Hnu HN Hdraw Ha) in HdotW.
  destruct (np_dot_rect nu N m draw a Hdraw Ha Hnu HN) as [_ HRa].
  pose proof (smul_rect (sqrt dr) _ _ _ HRa) as HdW.
  set (dW := smul (sqrt dr) (matmul draw a)) in *.
  (* the momentum and the position *)
  destruct (np_add_rect nu m _ _ Hnu (smul_rect ((1 - b) / (1 + b)) _ _ _ HY)
              (smul_rect (dr / (1 + b)) _ _ _ HL)) as [Hadd1 Hdrift].
  destruct (np_add_rect nu m _ _ Hnu Hdrift
              (smul_rect (sqrt f0 / (1 + b)) _ _ _ HdW)) as [Hadd2 HYnext].
  destruct (np_add_rect nu m _ _ Hnu HZhalf
              (smul_rect (dr / 2) _ _ _ HYnext)) as [Hadd3 _].
  unfold _simulate_ito_step, shape.
  rewrite (rect_nrows nu N H HH), (rect_ncols nu N H HH Hnu).
  rewrite float_pow_pos, sqrt_as_power by assumption; cbn [bind].
  unfold randn; fold draw.
  change (mk_array2 nu N
            (fun i j => normal_stream gen (consumed gen + i * N + j)%nat))
    with draw.
  rewrite HdotW; cbn [bind].
  rewrite HaddZ; cbn [bind].
  rewrite Hdotu; cbn [bind].
  cbn [_get_L]; rewrite Hpot; cbn [bind].
  rewrite HdotL; cbn [bind].
  fold b; rewrite !div_defined by lra; cbn [bind].
  rewrite np_sqrt_nonneg by lra; cbn [bind].
  rewrite div_defined by lra; cbn [bind].
  rewrite Hadd1; cbn [bind]; rewrite Hadd2; cbn [bind]; rewrite Hadd3.
  reflexivity.
Qed.

Lemma ito_step_spec_rect (Z Y H g a : array2) (f0 dr beta : R) (draw : array2)
  (nu N m : nat) :
  (1 <= nu)%nat -> (1 <= N)%nat -> (1 <= m)%nat ->
  rect nu m Z -> rect nu m Y -> rect nu N H -> rect N m g -> rect N m a ->
  rect nu N draw ->
  rect nu m (fst (ito_step_spec Z Y H g a f0 dr beta draw)) /\
  rect nu m (snd (ito_step_spec Z Y H g a f0 dr beta draw)).
Proof.
  intros Hnu HN Hm HZ HY HH Hg Ha Hdraw.
  unfold ito_step_spec; cbn [fst snd].
  set (b := f0 * dr / 4).
  destruct (np_add_rect nu m Z (smul (dr / 2) Y) Hnu HZ (smul_rect _ _ _ _ HY))
    as [_ HZhalf].
  set (Zhalf := madd Z (smul (dr / 2) Y)) in *.
  pose proof (transpose_rect_shape N m g Hg HN) as Hgt.
  destruct (np_dot_rect nu m N Zhalf _ HZhalf Hgt Hnu Hm) as [_ Hu].
  pose proof (grad_log_q_rect H _ beta nu N N Hnu HH Hu) as Hpotr.
  destruct (np_dot_rect nu N m _ a Hpotr Ha Hnu HN) as [_ HL].
  destruct (np_dot_rect nu N m draw a Hdraw Ha Hnu HN) as [_ HRa].
  pose proof (smul_rect (sqrt dr) _ _ _ HRa) as HdW.
  destruct (np_add_rect nu m _ _ Hnu (smul_rect ((1 - b) / (1 + b)) _ _ _ HY)
              (smul_rect (dr / (1 + b)) _ _ _ HL)) as [_ Hdrift].
  destruct (np_add_rect nu m _ _ Hnu Hdrift
              (smul_rect (sqrt f0 / (1 + b)) _ _ _ HdW)) as [_ HYnext].
  destruct (np_add_rect nu m _ _ Hnu HZhalf
              (smul_rect (dr / 2) _ _ _ HYnext)) as [_ HZnext].
  split; assumption.
Qed.



(** ** The step from rest *)










(** * The automatic kernel width *)

Section OptimalEpsilonFacts.

Variable dim : R -> Z.








End OptimalEpsilonFacts.






Lemma bisection_eq (dim : R -> Z) (fuel : nat) (m : Z) (lower upper : R) :
  bisection dim fuel m lower upper
  = if Rlt_dec (1/2) (upper - lower) then
      match fuel with
      | O => None
      | S fuel' =>
          if (dim ((lower + upper) / 2)%R >? m)%Z
          then bisection dim fuel' m ((lower + upper) / 2) upper
          else bisection dim fuel' m lower ((lower + upper) / 2)
      end
    else Some (lower, upper).
Proof. destruct fuel; reflexivity. Qed.

Lemma linear_scan_eq (dim : R -> Z) (fuel : nat) (m : Z) (lower : R) :
  linear_scan dim fuel m lower
  = if (dim lower >? m)%Z then
      match fuel with
      | O => None
      | S fuel' => linear_scan dim fuel' m (lower + 1/10)
      end
    else Some lower.
Proof. destruct fuel; reflexivity. Qed.

(** ** Three samples on a line *)

(** The kernel entry between neighbours lies strictly between 0 and 1. *)
Lemma three_point_kernel_range (s eps : R) :
  s <> 0 -> 0 < eps -> 0 < exp (- s ^ 2 / eps) < 1.
Proof.
  intros Hs Heps; split; [apply exp_pos|].
  rewrite <- exp_0; apply exp_increasing.
  assert (Hs2 : 0 < s ^ 2) by (destruct (Rdichotomy _ _ Hs); nra).
  unfold Rdiv; rewrite <- Ropp_mult_distr_l.
  apply Ropp_lt_gt_0_contravar, Rlt_gt, Rmult_lt_0_compat;
    [exact Hs2 | now apply Rinv_0_lt_compat].
Qed.






(** ** What the search does without the assumptions of its theorem *)

(** Without monotonicity the last loop need not end: on a dimension that is
    1 at the width 1 only, the bisection leaves the lower bound 0.55 and no
    point [0.55 + k/10] is 1. *)
Lemma linear_scan_isolated_never_ends (fuel k : nat) :
  linear_scan isolated_dimension fuel 1%Z (11/20 + INR k / 10) = None.
Proof.
  revert k; induction fuel as [|fuel IH]; intros k;
    rewrite linear_scan_eq; unfold isolated_dimension at 1;
    (destruct (Req_dec_T (11/20 + INR k / 10) 1) as [Heq | _];
     [exfalso;
      assert (H : INR (2 * k) = INR 9)
        by (rewrite mult_INR; change (INR 2) with 2;
            replace (INR 9) with 9 by (cbn [INR]; lra); lra);
      apply INR_eq in H; lia |]);
    cbn [Z.gtb Z.compare Pos.compare Pos.compare_cont]; [reflexivity|].
  replace (11/20 + INR k / 10 + 1/10) with (11/20 + INR (S k) / 10)
    by (rewrite S_INR; lra).
  apply IH.
Qed.

Lemma optimal_epsilon_may_not_terminate (fuel : nat) :
  _get_dmaps_optimal_epsilon isolated_dimension fuel = None.
Proof.
  assert (Hother : forall x : R, x <> 1 -> isolated_dimension x = 2%Z).
  { intros x Hx; unfold isolated_dimension.
    destruct (Req_dec_T x 1); [contradiction | reflexivity]. }
  assert (H1 : isolated_dimension 1 = 1%Z).
  { unfold isolated_dimension.
    destruct (Req_dec_T 1 1); [reflexivity | contradiction]. }
  unfold _get_dmaps_optimal_epsilon, epsilon_bracket, min_argmin,
    eps_for_m_target, epsilon_list.
  cbn [map argmin_from tl nth bracket_scan].
  rewrite H1, (Hother 10), (Hother 100), (Hother 1000), (Hother 10000) by lra.
  cbn [Z.ltb Z.gtb Z.compare Pos.compare Pos.compare_cont argmin_from bind
         nth].
  rewrite bisection_eq.
  destruct (Rlt_dec (1/2) (1 - 1/10)) as [_ | Hn]; [|lra].
  destruct fuel as [|fuel]; [reflexivity|].
  rewrite (Hother ((1/10 + 1) / 2)) by lra.
  cbn [Z.gtb Z.compare Pos.compare Pos.compare_cont].
  rewrite bisection_eq.
  destruct (Rlt_dec (1/2) (1 - (1/10 + 1) / 2)) as [Hy | _]; [lra|].
  cbn [bind].
  replace ((1/10 + 1) / 2) with (11/20 + INR 0 / 10) by (cbn [INR]; lra).
  rewrite linear_scan_isolated_never_ends; reflexivity.
Qed.

(** When every midpoint has a dimension above the target, the bisection
    halves the bracket from the left until it is 0.5 wide or less. *)
Lemma bisection_halves_from_left (dim : R -> Z) (m : Z) (upper : R) :
  (forall x : R, x < upper -> (dim x > m)%Z) ->
  forall (k fuel : nat) (lower : R),
    (k <= fuel)%nat -> lower < upper ->
    upper - lower <= 2 ^ k / 2 ->
    (k = 0%nat \/ 2 ^ k / 4 < upper - lower) ->
    bisection dim fuel m lower upper
    = Some (upper - (upper - lower) / 2 ^ k, upper).
Proof.
  intros Hdim; induction k as [|k IH]; intros fuel lower Hk Hlt Hgap Hbig;
    rewrite bisection_eq.
  - cbn [pow] in *.
    destruct (Rlt_dec (1/2) (upper - lower)) as [Hc | _]; [lra|].
    do 2 f_equal; lra.
  - assert (Hpos : 0 < 2 ^ k) by (apply pow_lt; lra).
    destruct Hbig as [Hbig | Hbig]; [discriminate|].
    cbn [pow] in Hbig, Hgap.
    assert (H1 : 1 <= 2 ^ k) by (apply pow_R1_Rle; lra).
    destruct (Rlt_dec (1/2) (upper - lower)) as [_ | Hc]; [|lra].
    destruct fuel as [|fuel]; [lia|].
    assert (Hmid : (lower + upper) / 2 < upper) by lra.
    pose proof (Hdim _ Hmid) as Hgt.
    destruct (Z.gtb_spec (dim ((lower + upper) / 2)) m) as [_ | Hle]; [|lia].
    rewrite (IH fuel ((lower + upper) / 2)); try lia; try lra.
    do 2 f_equal; cbn [pow]; field; lra.
Qed.

(** Without the bound [eps <= 10000] the dimension at the result can be
    below the target, for a dimension that does not increase with the width:
    with 3 below 10000, 2 at 10000 and 1 above, the target is 2, the
    bisection ends 0.302... below 10000 and the fourth step of the last loop
    lands above 10000, where the dimension is 1. *)
Lemma optimal_epsilon_may_undershoot :
  (forall x y : R,
      x <= y -> (late_step_dimension y <= late_step_dimension x)%Z) /\
  probe_minimum late_step_dimension = 2%Z /\
  exists eps : R,
    _get_dmaps_optimal_epsilon late_step_dimension 15 = Some (eps, 2%Z) /\
    10000 < eps /\ late_step_dimension eps = 1%Z.
Proof.
  assert (Hlow : forall x : R, x < 10000 -> late_step_dimension x = 3%Z).
  { intros x Hx; unfold late_step_dimension.
    destruct (Rlt_dec x 10000); [reflexivity | lra]. }
  assert (Hat : late_step_dimension 10000 = 2%Z).
  { unfold late_step_dimension.
    destruct (Rlt_dec 10000 10000); [lra|].
    destruct (Req_dec_T 10000 10000); [reflexivity | contradiction]. }
  assert (Hhigh : forall x : R, 10000 < x -> late_step_dimension x = 1%Z).
  { intros x Hx; unfold late_step_dimension.
    destruct (Rlt_dec x 10000); [lra|].
    destruct (Req_dec_T x 10000); [lra | reflexivity]. }
  split.
  { intros x y Hxy; unfold late_step_dimension.
    destruct (Rlt_dec y 10000), (Rlt_dec x 10000),
      (Req_dec_T y 10000), (Req_dec_T x 10000); try lia; lra. }
  split.
  { unfold probe_minimum, eps_for_m_target; cbn [map hd tl fold_left].
    rewrite (Hlow 1), (Hlow 10), (Hlow 100), (Hlow 1000), Hat by lra.
    reflexivity. }
  exists (10000 - 9900 / 2 ^ 15 + 1/10 + 1/10 + 1/10 + 1/10).
  assert (Hpow : 2 ^ 15 = 32768) by (cbn [pow]; lra).
  split; [|split; [rewrite Hpow; lra | apply Hhigh; rewrite Hpow; lra]].
  unfold _get_dmaps_optimal_epsilon, epsilon_bracket, min_argmin,
    eps_for_m_target, epsilon_list.
  cbn [map argmin_from tl nth bracket_scan].
  rewrite (Hlow 1), (Hlow 2), (Hlow 8), (Hlow 10), (Hlow 16), (Hlow 32),
    (Hlow 64), (Hlow 100), (Hlow 1000), Hat by lra.
  cbn [Z.ltb Z.gtb Z.compare Pos.compare Pos.compare_cont argmin_from bind
         nth].
  rewrite (bisection_halves_from_left late_step_dimension 2 10000)
    with (k := 15%nat).
  - cbn [bind].
    replace (10000 - (10000 - 100) / 2 ^ 15) with (10000 - 9900 / 2 ^ 15)
      by (rewrite Hpow; lra).
    rewrite linear_scan_eq, Hlow by (rewrite Hpow; lra).
    cbn [Z.gtb Z.compare Pos.compare Pos.compare_cont].
    rewrite linear_scan_eq, Hlow by (rewrite Hpow; lra).
    cbn [Z.gtb Z.compare Pos.compare Pos.compare_cont].
    rewrite linear_scan_eq, Hlow by (rewrite Hpow; lra).
    cbn [Z.gtb Z.compare Pos.compare Pos.compare_cont].
    rewrite linear_scan_eq, Hlow by (rewrite Hpow; lra).
    cbn [Z.gtb Z.compare Pos.compare Pos.compare_cont].
    rewrite linear_scan_eq, Hhigh by (rewrite Hpow; lra).
    reflexivity.
  - intros x Hx; rewrite Hlow by exact Hx; lia.
  - lia.
  - lra.
  - rewrite Hpow; lra.
  - right; rewrite Hpow; lra.
Qed.

(** * Further properties of the sample getter *)

Lemma get_samples_positive_witness :
  rbind (subscript (set_item2 (initialize (PyArray [[1]])) "data" "augmented"
                      (PyArray [[2]; [3]])) "data")
    (fun data => subscript data "training") = Ok (PyArray [[1]]) /\
  rbind (subscript (set_item2 (initialize (PyArray [[1]])) "data" "augmented"
                      (PyArray [[2]; [3]])) "data")
    (fun data => subscript data "augmented") = Ok (PyArray [[2]; [3]]) /\
  (0 < 1)%Z /\
  get_samples (set_item2 (initialize (PyArray [[1]])) "data" "augmented"
                 (PyArray [[2]; [3]])) (PyInt 1)
  = if (1 * Z.of_nat (nrows [[1%R]]) <? Z.of_nat (nrows [[2%R]; [3%R]]))%Z
    then Ok (firstn (Z.to_nat (1 * Z.of_nat (nrows [[1%R]]))) [[2]; [3]])
    else if (Z.of_nat (nrows [[1%R]]) =? 0)%Z then Raise ZeroDivisionError
    else Raise Exception_.
Proof.
  assert (H1 : rbind (subscript (set_item2 (initialize (PyArray [[1]])) "data"
                                   "augmented" (PyArray [[2]; [3]])) "data")
                 (fun data => subscript data "training") = Ok (PyArray [[1]]))
    by reflexivity.
  assert (H2 : rbind (subscript (set_item2 (initialize (PyArray [[1]])) "data"
                                   "augmented" (PyArray [[2]; [3]])) "data")
                 (fun data => subscript data "augmented")
               = Ok (PyArray [[2]; [3]]))
    by reflexivity.
  assert (H3 : (0 < 1)%Z) by lia.
  split; [exact H1|]. split; [exact H2|]. split; [exact H3|].
  exact (get_samples_positive _ [[1]] [[2]; [3]] 1 H1 H2 H3).
Defined.

(** X2: the arguments are validated before the dictionary is read: whatever
    [plom_dict] is, a [k] that is not an integer raises [TypeError] and a
    negative [k] raises [ValueError]. *)
Theorem get_samples_validates_k (plom_dict k : pyval) :
  (as_int k = None -> get_samples plom_dict k = Raise TypeError) /\
  (forall z : Z, as_int k = Some z -> (z < 0)%Z ->
                 get_samples plom_dict k = Raise ValueError).
Proof.
  split.
  - intros Hk; unfold get_samples; now rewrite Hk.
  - intros z Hk Hz; unfold get_samples; rewrite Hk.
    destruct (Z.ltb_spec z 0); [reflexivity | lia].
Qed.

(** X1: on a model fresh from [initialize] no request is served, whatever the
    training value and whatever [k]: the pool is [None]. *)
Theorem get_samples_before_sampling (training k : pyval) :
  exists e : exn, get_samples (initialize training) k = Raise e.
Proof.
  unfold get_samples.
  destruct (as_int k) as [z|]; [|eexists; reflexivity].
  destruct (z <? 0)%Z; [eexists; reflexivity|].
  destruct (z =? 0)%Z; [eexists; reflexivity|].
  cbn [initialize subscript dict_get String.eqb Ascii.eqb Bool.eqb rbind].
  destruct (shape0 training); eexists; reflexivity.
Qed.

Lemma get_samples_validates_k_witness :
  get_samples PyNone (PyStr "two") = Raise TypeError /\
  get_samples PyNone (PyInt (-1)) = Raise ValueError.
Proof.
  split.
  - exact (proj1 (get_samples_validates_k PyNone (PyStr "two")) eq_refl).
  - exact (proj2 (get_samples_validates_k PyNone (PyInt (-1))) (-1)%Z eq_refl
             eq_refl).
Defined.

(** * Further properties of the manifold dimension *)

Lemma dimension_scan_range (mu : list R) (L : R) (m0 : Z) (cands : list nat) :
  dimension_scan mu L cands m0 = m0 \/
  exists a : nat, In a cands /\ dimension_scan mu L cands m0 = (Z.of_nat a - 1)%Z.
Proof.
  induction cands as [|a rest IH]; [left; reflexivity|].
  cbn [dimension_scan].
  destruct (float_lt (np_divide (item mu a) (item mu 1)) L).
  - right; exists a; split; [left; reflexivity | reflexivity].
  - destruct IH as [IH | (a' & Hin & IH)]; [left; exact IH|].
    right; exists a'; split; [right; exact Hin | exact IH].
Qed.

Lemma optimal_dimension_range (mu : list R) (L : R) :
  (Z.min 1 (Z.of_nat (length mu) - 1)
   <= _get_dmaps_optimal_dimension mu L
   <= Z.of_nat (length mu) - 1)%Z.
Proof.
  unfold _get_dmaps_optimal_dimension.
  destruct (dimension_scan_range mu L (Z.of_nat (length mu) - 1)
              (seq 2 (length mu - 2))) as [-> | (a & Hin & ->)]; [lia|].
  apply in_seq in Hin; lia.
Qed.

(** X13: whatever the eigenvalues and the cutoff (zero, negative or non finite
    ratios included), the dimension lies between 1 and [N - 1] when there are
    at least two eigenvalues; with fewer it is [N - 1], which is [-1] for an
    empty spectrum. *)
Theorem dmaps_optimal_dimension_bounds (mu : list R) (L : R) :
  (Z.min 1 (Z.of_nat (length mu) - 1)
   <= _get_dmaps_optimal_dimension mu L
   <= Z.of_nat (length mu) - 1)%Z.
Proof.
  unfold _get_dmaps_optimal_dimension.
  destruct (dimension_scan_range mu L (Z.of_nat (length mu) - 1)
              (seq 2 (length mu - 2))) as [-> | (a & Hin & ->)]; [lia|].
  apply in_seq in Hin; lia.
Qed.

(** * Further properties of the PCA truncation *)

(** X6: the rule ['pca_dim'] keeps the [k] largest eigenvalues when
    [1 <= k <= n]; [k = 0] keeps the whole spectrum (the slice
    [eigvals[-0:]]), and so does any [k > n]. *)
Theorem pca_dim_truncation (eigvals : list R) (k : Z)
  (cumulative_energy eigenvalues_cutoff : R) :
  (0 <= k)%Z ->
  _pca_eigvals_trunc eigvals "pca_dim" cumulative_energy eigenvalues_cutoff k
  = Some (top_eigvals
            (if (k =? 0)%Z then length eigvals
             else Nat.min (Z.to_nat k) (length eigvals))
            eigvals).
Proof.
  intros Hk; unfold _pca_eigvals_trunc; cbn [String.eqb Ascii.eqb Bool.eqb].
  unfold py_slice_from, top_eigvals; f_equal.
  destruct (Z.eqb_spec k 0) as [-> | Hne].
  - cbn; now rewrite Nat.sub_diag.
  - destruct (Z.ltb_spec (- k) 0) as [_ | Hge]; [|lia].
    f_equal; lia.
Qed.

Lemma pca_dim_truncation_witness :
  (0 <= 0)%Z /\
  _pca_eigvals_trunc [1; 3; 6] "pca_dim" (9/10) 0 0
  = Some (top_eigvals
            (if (0 =? 0)%Z then length [1; 3; 6]
             else Nat.min (Z.to_nat 0) (length [1; 3; 6]))
            [1; 3; 6]).
Proof.
  assert (H0 : (0 <= 0)%Z) by lia.
  split; [exact H0|].
  exact (pca_dim_truncation [1; 3; 6] 0 (9/10) 0 H0).
Defined.

(** X7: the rule ['cum_energy'] outside its range, on non-negative eigenvalues
    of positive total: a threshold above 1 makes the loop break at [i = 0]
    and keeps the largest eigenvalue alone, whatever its share; a threshold
    of 0 or less is never passed and [eigvals_trunc] stays unbound. *)
Theorem pca_cum_energy_out_of_range (eigvals : list R) (E : R)
  (eigenvalues_cutoff : R) (pca_dim : Z) :
  Forall (fun x => 0 <= x) eigvals ->
  0 < Rsum eigvals ->
  (1 < E ->
   _pca_eigvals_trunc eigvals "cum_energy" E eigenvalues_cutoff pca_dim
   = Some (top_eigvals 1 eigvals)) /\
  (E <= 0 ->
   _pca_eigvals_trunc eigvals "cum_energy" E eigenvalues_cutoff pca_dim
   = None).
Proof.
  intros Hpos HT.
  assert (HT0 : Rsum eigvals <> 0) by lra.
  unfold _pca_eigvals_trunc; cbn [String.eqb Ascii.eqb Bool.eqb].
  split; intros HE.
  - rewrite Nat.add_1_r; cbn [seq cum_energy_scan py_slice_to firstn Rsum fold_right].
    rewrite np_divide_finite by assumption.
    destruct (float_gt (Finite (0 / Rsum eigvals)) (1 - E)) eqn:Hgt.
    + unfold py_slice_from, top_eigvals; cbn [Z.of_nat Z.sub Z.ltb Z.compare Z.opp Z.add Z.pos_sub].
      f_equal; f_equal; lia.
    + exfalso.
      assert (Hlt : 1 - E < 0 / Rsum eigvals)
        by (unfold Rdiv; rewrite Rmult_0_l; lra).
      apply float_gt_finite in Hlt; congruence.
  - destruct (cum_energy_scan_first eigvals (Rsum eigvals) (1 - E) HT0
                (length eigvals + 1) 0)
      as [(i & Hi & Hex & _) | (_ & Hres)]; [|exact Hres].
    exfalso.
    assert (Hle : Rsum (firstn i eigvals) <= Rsum eigvals).
    { rewrite <- (firstn_all eigvals) at 2.
      apply Rsum_firstn_mono; [assumption | lia]. }
    assert (Hdiv : Rsum (firstn i eigvals) / Rsum eigvals <= 1).
    { apply (Rmult_le_reg_r (Rsum eigvals)); [assumption|].
      unfold Rdiv; rewrite Rmult_assoc, Rinv_l by assumption; lra. }
    lra.
Qed.

Lemma pca_cum_energy_out_of_range_witness :
  Forall (fun x => 0 <= x) [1; 3; 6] /\ 0 < Rsum [1; 3; 6] /\
  (1 < 2 ->
   _pca_eigvals_trunc [1; 3; 6] "cum_energy" 2 0 1
   = Some (top_eigvals 1 [1; 3; 6])) /\
  (2 <= 0 ->
   _pca_eigvals_trunc [1; 3; 6] "cum_energy" 2 0 1 = None).
Proof.
  assert (H1 : Forall (fun x => 0 <= x) [1; 3; 6])
    by (repeat constructor; lra).
  assert (H2 : 0 < Rsum [1; 3; 6]) by (cbn; lra).
  split; [exact H1|]. split; [exact H2|].
  exact (pca_cum_energy_out_of_range [1; 3; 6] 2 0 1 H1 H2).
Defined.

(** * The kernel width search on a monotone dimension *)


(** * Reconstruction error *)

Lemma Rsum_zero_all (l : list R) :
  Forall (fun x => 0 <= x) l -> Rsum l = 0 -> Forall (fun x => x = 0) l.
Proof.
  induction 1 as [|x l Hx Hl IH]; intros Hs; [constructor|].
  rewrite Rsum_cons in Hs.
  pose proof (Rsum_nonneg l Hl).
  constructor; [lra | apply IH; lra].
Qed.

Lemma Rsum_all_zero (l : list R) : Forall (fun x => x = 0) l -> Rsum l = 0.
Proof.
  induction 1 as [|x l Hx _ IH]; [reflexivity|].
  rewrite Rsum_cons, Hx, IH; lra.
Qed.

Lemma squares_nonneg (l : list R) :
  Forall (fun x => 0 <= x) (map (fun d => d ^ 2) l).
Proof.
  apply Forall_forall; intros y Hy.
  apply in_map_iff in Hy as (x & <- & _); nra.
Qed.

Lemma row_squares_zero (r r' : array1) :
  length r = length r' ->
  Forall (fun x => x = 0) (map (fun d => d ^ 2) (map2 Rminus r r')) ->
  r = r'.
Proof.
  revert r'; induction r as [|x r IH]; intros [|y r'] Hlen Hz; cbn in *;
    try reflexivity; try discriminate.
  inversion Hz as [|? ? Hxy Hrest]; subst.
  f_equal; [nra | apply IH; [lia | assumption]].
Qed.

Lemma squared_difference_zero (X Y : array2) (N n : nat) :
  rect N n X -> rect N n Y ->
  Forall (fun x => x = 0)
    (concat (map (map (fun d => d ^ 2)) (map2 (map2 Rminus) X Y))) ->
  X = Y.
Proof.
  revert Y N; induction X as [|r X IH]; intros [|r' Y] N [HlX HrX] [HlY HrY] Hz;
    cbn in *; try reflexivity; try lia.
  inversion HrX as [|? ? Hr HX]; inversion HrY as [|? ? Hr' HY]; subst.
  apply Forall_app in Hz as [Hrow Hrest].
  f_equal.
  - apply row_squares_zero; [congruence | assumption].
  - apply (IH Y (length X)); [split; auto | split; [lia | auto] | assumption].
Qed.

Lemma squared_difference_length (X Y : array2) (N n : nat) :
  rect N n X -> rect N n Y ->
  length (concat (map (map (fun d => d ^ 2)) (map2 (map2 Rminus) X Y)))
  = (N * n)%nat.
Proof.
  revert Y N; induction X as [|r X IH]; intros [|r' Y] N [HlX HrX] [HlY HrY];
    cbn in *; try lia.
  inversion HrX as [|? ? Hr HX]; inversion HrY as [|? ? Hr' HY]; subst.
  rewrite length_app, length_map, map2_length by congruence.
  rewrite (IH Y (length X)); [lia | split; auto | split; [lia | auto]].
Qed.

Lemma squared_difference_self (X : array2) :
  Forall (fun x => x = 0)
    (concat (map (map (fun d => d ^ 2)) (map2 (map2 Rminus) X X))).
Proof.
  induction X as [|r X IH]; cbn; [constructor|].
  apply Forall_app; split; [|assumption].
  clear; induction r as [|x r IH]; cbn; constructor; [ring | assumption].
Qed.

(** X20: on two arrays of one shape with at least one entry, [mse] returns the
    mean squared difference [e], which is not negative and is zero exactly
    when the arrays are equal; with [squared=False] it returns the square
    root of [e]. *)
Theorem mse_nonneg_zero_iff_equal (X Y : array2) (N n : nat) :
  (1 <= N)%nat -> (1 <= n)%nat -> rect N n X -> rect N n Y ->
  exists e : R,
    mse X Y true = Some e /\
    mse X Y false = Some (sqrt e) /\
    0 <= e /\
    (e = 0 <-> X = Y).
Proof.
  intros HN Hn HX HY.
  set (sq := concat (map (map (fun d => d ^ 2)) (map2 (map2 Rminus) X Y))).
  assert (Hlen : length sq = (N * n)%nat)
    by (apply squared_difference_length; assumption).
  assert (Hpos : 0 < INR (length sq)).
  { rewrite Hlen; apply lt_0_INR; nia. }
  assert (Hnn : Forall (fun x => 0 <= x) sq).
  { unfold sq; apply Forall_concat, Forall_forall; intros row Hrow.
    apply in_map_iff in Hrow as (d & <- & _); apply squares_nonneg. }
  pose proof (Rsum_nonneg sq Hnn) as Hsum.
  assert (He : 0 <= Rsum sq / INR (length sq)).
  { apply Rmult_le_pos; [assumption | left; now apply Rinv_0_lt_compat]. }
  assert (Hmse : forall b, mse X Y b
            = if b then Some (Rsum sq / INR (length sq))
              else np_sqrt (Rsum sq / INR (length sq))).
  { intros b; unfold mse, mat_op.
    rewrite (rect_nrows _ _ _ HX), (rect_nrows _ _ _ HY).
    rewrite (rect_ncols _ _ _ HX HN), (rect_ncols _ _ _ HY HN).
    rewrite !Nat.eqb_refl; cbn [andb bind].
    unfold np_mean_all; fold sq.
    rewrite np_mean_defined; [reflexivity|].
    intros Hnil; rewrite Hnil in Hpos; cbn in Hpos; lra. }
  exists (Rsum sq / INR (length sq)); split; [apply (Hmse true)|].
  split; [|split; [assumption|split]].
  - rewrite (Hmse false); unfold np_sqrt.
    destruct (Rle_dec 0 (Rsum sq / INR (length sq))); [reflexivity | contradiction].
  - intros Hz.
    apply (squared_difference_zero X Y N n HX HY); fold sq.
    apply Rsum_zero_all; [assumption|].
    apply (Rmult_eq_compat_r (INR (length sq))) in Hz.
    unfold Rdiv in Hz; rewrite Rmult_assoc, Rinv_l in Hz by lra; lra.
  - intros <-.
    unfold sq; rewrite (Rsum_all_zero _ (squared_difference_self X)).
    unfold Rdiv; ring.
Qed.

Lemma mse_nonneg_zero_iff_equal_witness :
  (1 <= 1)%nat /\ (1 <= 2)%nat /\ rect 1 2 [[1; 2]] /\ rect 1 2 [[1; 4]] /\
  exists e : R,
    mse [[1; 2]] [[1; 4]] true = Some e /\
    mse [[1; 2]] [[1; 4]] false = Some (sqrt e) /\
    0 <= e /\
    (e = 0 <-> [[1; 2]] = [[1; 4]]).
Proof.
  assert (H1 : (1 <= 1)%nat) by lia.
  assert (H2 : (1 <= 2)%nat) by lia.
  assert (H3 : rect 1 2 [[1; 2]]) by (split; [reflexivity | repeat constructor]).
  assert (H4 : rect 1 2 [[1; 4]]) by (split; [reflexivity | repeat constructor]).
  split; [exact H1|]. split; [exact H2|]. split; [exact H3|]. split; [exact H4|].
  exact (mse_nonneg_zero_iff_equal [[1; 2]] [[1; 4]] 1 2 H1 H2 H3 H4).
Defined.

(** * The range of the scaled data *)

(** The entries of the scaled matrix. *)
Lemma scaler_forward (X : array2) (N n : nat) (c s : array1) :
  (1 <= N)%nat -> rect N n X ->
  length c = n -> length s = n -> Forall (fun x => x <> 0) s ->
  (centred <- bcast_rows Rminus X c ;; bcast_rows_div centred s)
  = Some (mk_array2 N n (fun i j => (entry X i j - item c j) / item s j)).
Proof.
  intros HN HX Hc Hs Hnz.
  pose proof (rect_ncols _ _ _ HX HN) as HcolsX.
  set (centred := map (fun row => map2 Rminus row c) X).
  assert (Hcentred : rect N n centred).
  { apply rect_map; [assumption|].
    intros row Hin; rewrite map2_length; rewrite (rect_row _ _ _ _ HX Hin); lia. }
  set (Xs := map (fun row => map2 Rdiv row s) centred).
  assert (HXs : rect N n Xs).
  { apply rect_map; [assumption|].
    intros row Hin; rewrite map2_length;
      rewrite (rect_row _ _ _ _ Hcentred Hin); lia. }
  transitivity (Some Xs).
  - unfold bcast_rows; rewrite HcolsX, Hc, Nat.eqb_refl; cbn [bind]; fold centred.
    unfold bcast_rows_div.
    rewrite (rect_ncols _ _ _ Hcentred HN), Hs, Nat.eqb_refl.
    apply all_some_map; intros row Hin.
    apply row_div_defined; [|assumption].
    rewrite (rect_row _ _ _ _ Hcentred Hin); lia.
  - apply f_equal, (rect_ext N n); [assumption | apply mk_array2_rect |].
    intros i j Hi Hj.
    rewrite entry_mk_array2 by assumption.
    destruct HX as [HlX HrX].
    assert (Hrow : length (nth i X []) = n).
    { rewrite Forall_forall in HrX; apply HrX, nth_In; lia. }
    unfold entry, Xs, centred; rewrite map_map.
    rewrite (nth_map_in _ X i [] []) by lia.
    rewrite (nth_map2 Rdiv _ s j 0 0 0);
      [| rewrite map2_length; lia | rewrite map2_length; lia].
    rewrite (nth_map2 Rminus _ c j 0 0 0) by lia.
    reflexivity.
Qed.

(** What [fold_left (map2 f)] selects in each column when [f] picks one of
    its two arguments that is in relation [rel] with both. *)
Lemma fold_select (f : R -> R -> R) (rel : R -> R -> Prop) :
  (forall a b, rel (f a b) a) -> (forall a b, rel (f a b) b) ->
  (forall a b, f a b = a \/ f a b = b) ->
  (forall a b c, rel a b -> rel b c -> rel a c) -> (forall a, rel a a) ->
  forall (rest : array2) (r : array1) (n j : nat),
    length r = n -> Forall (fun row => length row = n) rest -> (j < n)%nat ->
    (forall row, In row (r :: rest) ->
       rel (item (fold_left (map2 f) rest r) j) (item row j)) /\
    (exists row, In row (r :: rest) /\
       item (fold_left (map2 f) rest r) j = item row j).
Proof.
  intros Hl Hr Hsel Htrans Hrefl.
  induction rest as [|row rest IH]; intros r n j Hlen Hrest Hj.
  - cbn [fold_left]; split.
    + intros row [<- | []]; apply Hrefl.
    + exists r; split; [now left | reflexivity].
  - inversion Hrest as [|? ? Hrow Hrest']; subst.
    cbn [fold_left].
    assert (Hlen' : length (map2 f r row) = length r)
      by (apply map2_length; lia).
    destruct (IH (map2 f r row) (length r) j Hlen' Hrest' Hj) as [Hall Hex].
    assert (Hitem : item (map2 f r row) j = f (item r j) (item row j)).
    { unfold item; apply nth_map2; lia. }
    split.
    + intros row' [<- | [<- | Hin]].
      * apply (Htrans _ (item (map2 f r row) j)); [apply Hall; now left|].
        rewrite Hitem; apply Hl.
      * apply (Htrans _ (item (map2 f r row) j)); [apply Hall; now left|].
        rewrite Hitem; apply Hr.
      * apply Hall; now right.
    + destruct Hex as (row' & [<- | Hin] & Heq).
      * rewrite Heq, Hitem.
        destruct (Hsel (item r j) (item row j)) as [-> | ->];
          [exists r; split; [now left | reflexivity]
          |exists row; split; [right; now left | reflexivity]].
      * exists row'; split; [right; now right | assumption].
Qed.

Lemma in_rows_entry (X : array2) (row : array1) (j : nat) :
  In row X -> exists i, (i < length X)%nat /\ item row j = entry X i j.
Proof.
  intros Hin; apply (In_nth _ _ []) in Hin as (i & Hi & <-).
  exists i; split; [assumption | reflexivity].
Qed.

Lemma entry_in_rows (X : array2) (i : nat) :
  (i < length X)%nat -> In (nth i X []) X.
Proof. apply nth_In. Qed.

(** [np.min(X, axis=0)] is a lower bound of every column and is attained
    in it; [np.max(X, axis=0)] likewise from above. *)
Lemma np_min0_spec (X : array2) (N n : nat) :
  (1 <= N)%nat -> rect N n X ->
  exists v, np_min0 X = Some v /\ length v = n /\
    forall j, (j < n)%nat ->
      (forall i, (i < N)%nat -> item v j <= entry X i j) /\
      (exists i, (i < N)%nat /\ item v j = entry X i j).
Proof.
  intros HN [Hlen Hrows]; destruct X as [|r rest]; [cbn in Hlen; lia|].
  inversion Hrows as [|? ? Hr Hrest]; subst.
  exists (fold_left (map2 Rmin) rest r); split; [reflexivity|].
  split; [now apply fold_map2_length|].
  intros j Hj.
  destruct (fold_select Rmin Rle Rmin_l Rmin_r) with (rest := rest) (r := r)
    (n := length r) (j := j) as [Hall Hex]; auto.
  { intros a b; unfold Rmin; destruct (Rle_dec a b); auto. }
  { intros a b c; apply Rle_trans. }
  { intros a; apply Rle_refl. }
  split.
  - intros i Hi; apply (Hall (nth i (r :: rest) [])), nth_In; assumption.
  - destruct Hex as (row & Hin & Heq).
    destruct (in_rows_entry _ _ j Hin) as (i & Hi & Hrow).
    exists i; split; [assumption | congruence].
Qed.

Lemma np_max0_spec (X : array2) (N n : nat) :
  (1 <= N)%nat -> rect N n X ->
  exists v, np_max0 X = Some v /\ length v = n /\
    forall j, (j < n)%nat ->
      (forall i, (i < N)%nat -> entry X i j <= item v j) /\
      (exists i, (i < N)%nat /\ item v j = entry X i j).
Proof.
  intros HN [Hlen Hrows]; destruct X as [|r rest]; [cbn in Hlen; lia|].
  inversion Hrows as [|? ? Hr Hrest]; subst.
  exists (fold_left (map2 Rmax) rest r); split; [reflexivity|].
  split; [now apply fold_map2_length|].
  intros j Hj.
  destruct (fold_select Rmax (fun a b => b <= a) Rmax_l Rmax_r)
    with (rest := rest) (r := r) (n := length r) (j := j) as [Hall Hex]; auto.
  { intros a b; unfold Rmax; destruct (Rle_dec a b); auto. }
  { intros a b c H1 H2; apply (Rle_trans _ b); assumption. }
  { intros a; apply Rle_refl. }
  split.
  - intros i Hi; apply (Hall (nth i (r :: rest) [])), nth_In; assumption.
  - destruct Hex as (row & Hin & Heq).
    destruct (in_rows_entry _ _ j Hin) as (i & Hi & Hrow).
    exists i; split; [assumption | congruence].
Qed.

(** X4: [_scaleMinMax] maps every entry into [0, 1]; each column attains 0,
    and a column with two different values attains 1 as well. *)
Theorem scaleMinMax_unit_interval (X : array2) (N n : nat) :
  (1 <= N)%nat -> rect N n X ->
  exists (X_scaled : array2) (Xmin scale : array1),
    _scaleMinMax X = Some (X_scaled, Xmin, scale) /\
    rect N n X_scaled /\
    forall j : nat, (j < n)%nat ->
      (forall i : nat, (i < N)%nat -> 0 <= entry X_scaled i j <= 1) /\
      (exists i : nat, (i < N)%nat /\ entry X_scaled i j = 0) /\
      ((exists i i' : nat, (i < N)%nat /\ (i' < N)%nat /\
                           entry X i j <> entry X i' j) ->
       exists i : nat, (i < N)%nat /\ entry X_scaled i j = 1).
Proof.
  intros HN HX.
  destruct (np_min0_spec X N n HN HX) as (Xmin & Hmin & Hlmin & Hminspec).
  destruct (np_max0_spec X N n HN HX) as (Xmax & Hmax & Hlmax & Hmaxspec).
  set (scale := replace_zeros (map2 Rminus Xmax Xmin)).
  assert (Hls : length scale = n).
  { unfold scale; rewrite replace_zeros_length, map2_length; lia. }
  pose proof (scaler_forward X N n Xmin scale HN HX Hlmin Hls
                (replace_zeros_nonzero _)) as Hfwd.
  eexists _, Xmin, scale; split; [|split; [apply mk_array2_rect|]].
  { unfold _scaleMinMax; rewrite Hmin, Hmax; cbn [bind].
    unfold vec_op; rewrite Hlmax, Hlmin, Nat.eqb_refl; cbn [bind]; fold scale.
    destruct (bcast_rows Rminus X Xmin) as [centred|]; [|discriminate].
    cbn [bind] in *; rewrite Hfwd; reflexivity. }
  intros j Hj.
  destruct (Hminspec j Hj) as [Hlow (imin & Himin & Hatmin)].
  destruct (Hmaxspec j Hj) as [Hup (imax & Himax & Hatmax)].
  assert (Hscale : item scale j
            = if Req_dec_T (item Xmax j - item Xmin j) 0 then 1
              else item Xmax j - item Xmin j).
  { unfold scale; rewrite replace_zeros_item by (rewrite map2_length; lia).
    unfold item; rewrite (nth_map2 Rminus Xmax Xmin j 0 0 0) by lia.
    reflexivity. }
  assert (Hspread : 0 <= item Xmax j - item Xmin j).
  { specialize (Hlow imax Himax); rewrite <- Hatmax in Hlow; lra. }
  split; [|split].
  - intros i Hi; rewrite entry_mk_array2 by assumption.
    specialize (Hlow i Hi); specialize (Hup i Hi).
    rewrite Hscale.
    destruct (Req_dec_T (item Xmax j - item Xmin j) 0) as [Hz | Hnz].
    + replace (entry X i j - item Xmin j) with 0 by lra.
      unfold Rdiv; rewrite Rmult_0_l; lra.
    + assert (Hd : 0 < item Xmax j - item Xmin j) by lra.
      split.
      * apply Rmult_le_pos; [lra | left; now apply Rinv_0_lt_compat].
      * apply (Rmult_le_reg_r (item Xmax j - item Xmin j)); [assumption|].
        unfold Rdiv; rewrite Rmult_assoc, Rinv_l by lra; lra.
  - exists imin; split; [assumption|].
    rewrite entry_mk_array2 by assumption.
    rewrite <- Hatmin; unfold Rdiv; ring.
  - intros (i & i' & Hi & Hi' & Hne).
    exists imax; split; [assumption|].
    rewrite entry_mk_array2 by assumption.
    rewrite Hscale, <- Hatmax.
    destruct (Req_dec_T (item Xmax j - item Xmin j) 0) as [Hz | Hnz].
    + exfalso; apply Hne.
      pose proof (Hlow i Hi); pose proof (Hup i Hi).
      pose proof (Hlow i' Hi'); pose proof (Hup i' Hi'); lra.
    + field; assumption.
Qed.

Lemma scaleMinMax_unit_interval_witness :
  (1 <= 2)%nat /\ rect 2 2 [[1; 2]; [1; 5]] /\
  exists (X_scaled : array2) (Xmin scale : array1),
    _scaleMinMax [[1; 2]; [1; 5]] = Some (X_scaled, Xmin, scale) /\
    rect 2 2 X_scaled /\
    forall j : nat, (j < 2)%nat ->
      (forall i : nat, (i < 2)%nat -> 0 <= entry X_scaled i j <= 1) /\
      (exists i : nat, (i < 2)%nat /\ entry X_scaled i j = 0) /\
      ((exists i i' : nat, (i < 2)%nat /\ (i' < 2)%nat /\
                           entry [[1; 2]; [1; 5]] i j
                           <> entry [[1; 2]; [1; 5]] i' j) ->
       exists i : nat, (i < 2)%nat /\ entry X_scaled i j = 1).
Proof.
  assert (H1 : (1 <= 2)%nat) by lia.
  assert (H2 : rect 2 2 [[1; 2]; [1; 5]])
    by (split; [reflexivity | repeat constructor]).
  split; [exact H1|]. split; [exact H2|].
  exact (scaleMinMax_unit_interval [[1; 2]; [1; 5]] 2 2 H1 H2).
Defined.

(** * The moments of the normalised data *)

Lemma column_as_table (X : array2) (N n j : nat) :
  rect N n X -> column X j = mk_array1 N (fun i => entry X i j).
Proof.
  intros [Hlen _]; unfold column, mk_array1.
  apply (nth_ext _ _ 0 0); [now rewrite !length_map, length_seq|].
  intros i Hi; rewrite length_map in Hi.
  rewrite (nth_map_in _ X i [] 0) by assumption.
  rewrite (nth_map_in _ (seq 0 N) i 0%nat 0) by (rewrite length_seq; lia).
  rewrite seq_nth by lia; reflexivity.
Qed.

Lemma sum_n_const (n : nat) (c : R) : sum_n n (fun _ => c) = INR n * c.
Proof.
  induction n as [|n IH]; [rewrite sum_n_O; cbn; ring|].
  rewrite sum_n_S, IH, S_INR; ring.
Qed.

Lemma sum_n_minus (n : nat) (f g : nat -> R) :
  sum_n n (fun k => f k - g k) = sum_n n f - sum_n n g.
Proof.
  induction n as [|n IH]; [rewrite !sum_n_O; ring|].
  rewrite !sum_n_S, IH; ring.
Qed.

Lemma np_mean_table (N : nat) (f : nat -> R) :
  (1 <= N)%nat -> np_mean (mk_array1 N f) = Some (sum_n N f / INR N).
Proof.
  intros HN; rewrite np_mean_defined.
  - now rewrite mk_array1_length.
  - intros Hnil; apply (f_equal (@length R)) in Hnil.
    rewrite mk_array1_length in Hnil; cbn in Hnil; lia.
Qed.

Lemma np_std_table (N : nat) (f : nat -> R) :
  (1 <= N)%nat ->
  np_std (mk_array1 N f)
  = Some (sqrt (sum_n N (fun i => (f i - sum_n N f / INR N) ^ 2) / INR N)).
Proof.
  intros HN; rewrite np_std_value.
  - rewrite mk_array1_length, map_mk_array1.
    fold (sum_n N f).
    do 3 f_equal; apply sum_n_ext; intros i _.
    rewrite RPow_abs; apply Rabs_pos_eq, pow2_ge_0.
  - intros Hnil; apply (f_equal (@length R)) in Hnil.
    rewrite mk_array1_length in Hnil; cbn in Hnil; lia.
Qed.

Lemma np_mean0_value (X : array2) (N n : nat) :
  (1 <= N)%nat -> rect N n X ->
  np_mean0 X
  = Some (mk_array1 n (fun j => sum_n N (fun i => entry X i j) / INR N)).
Proof.
  intros HN HX; unfold np_mean0; rewrite (rect_ncols _ _ _ HX HN).
  apply all_some_map_seq; intros j _.
  rewrite (column_as_table X N n j HX); now apply np_mean_table.
Qed.

Lemma np_std0_value (X : array2) (N n : nat) :
  (1 <= N)%nat -> rect N n X ->
  np_std0 X
  = Some (mk_array1 n (fun j =>
            sqrt (sum_n N (fun i =>
                    (entry X i j - sum_n N (fun i' => entry X i' j) / INR N) ^ 2)
                  / INR N))).
Proof.
  intros HN HX; unfold np_std0; rewrite (rect_ncols _ _ _ HX HN).
  apply all_some_map_seq; intros j _.
  rewrite (column_as_table X N n j HX); now apply np_std_table.
Qed.

(** X5: every column of the input of [_scaleNormalize] that has two
    different values comes out with mean zero and standard deviation one. *)
Theorem scaleNormalize_standardises (X : array2) (N n : nat) :
  (1 <= N)%nat -> rect N n X ->
  exists (X_scaled : array2) (means scales : array1),
    _scaleNormalize X = Some (X_scaled, means, scales) /\
    rect N n X_scaled /\
    forall j : nat, (j < n)%nat ->
      (exists i i' : nat, (i < N)%nat /\ (i' < N)%nat /\
                          entry X i j <> entry X i' j) ->
      np_mean (column X_scaled j) = Some 0 /\
      np_std (column X_scaled j) = Some 1.
Proof.
  intros HN HX.
  pose (mu := fun j => sum_n N (fun i => entry X i j) / INR N).
  pose (sd := fun j =>
          sqrt (sum_n N (fun i => (entry X i j - mu j) ^ 2) / INR N)).
  assert (Hmean : np_mean0 X = Some (mk_array1 n mu))
    by exact (np_mean0_value X N n HN HX).
  assert (Hstd : np_std0 X = Some (mk_array1 n sd))
    by exact (np_std0_value X N n HN HX).
  set (means := mk_array1 n mu) in *.
  set (scales := replace_zeros (mk_array1 n sd)).
  assert (Hlm : length means = n) by apply mk_array1_length.
  assert (Hls : length scales = n).
  { unfold scales; rewrite replace_zeros_length; apply mk_array1_length. }
  pose proof (scaler_forward X N n means scales HN HX Hlm Hls
                (replace_zeros_nonzero _)) as Hfwd.
  assert (HNpos : 0 < INR N) by (apply lt_0_INR; lia).
  eexists _, means, scales; split; [|split; [apply mk_array2_rect|]].
  { unfold _scaleNormalize; rewrite Hmean, Hstd; cbn [bind]; fold scales.
    destruct (bcast_rows Rminus X means) as [centred|]; [|discriminate].
    cbn [bind] in *; rewrite Hfwd; reflexivity. }
  intros j Hj (i & i' & Hi & Hi' & Hne).
  rewrite column_mk_array2 by assumption.
  assert (Hmu : item means j = mu j) by (now apply item_mk_array1).
  assert (Hscale : item scales j = if Req_dec_T (sd j) 0 then 1 else sd j).
  { unfold scales; rewrite replace_zeros_item by (now rewrite mk_array1_length).
    now rewrite item_mk_array1. }
  assert (Hsn : item scales j <> 0).
  { rewrite Hscale; destruct (Req_dec_T (sd j) 0); lra. }
  assert (Hsum0 : sum_n N (fun i => (entry X i j - item means j) / item scales j)
                  = 0).
  { unfold Rdiv; rewrite sum_n_scal_r, sum_n_minus, sum_n_const, Hmu.
    unfold mu; field; split; [assumption | lra]. }
  split.
  - rewrite np_mean_table by assumption.
    rewrite Hsum0; f_equal; unfold Rdiv; ring.
  - rewrite np_std_table by assumption.
    rewrite Hsum0.
    assert (Hsdj : np_std (column X j) = Some (sd j)).
    { rewrite (column_as_table X N n j HX); now apply np_std_table. }
    assert (Hsdnz : sd j <> 0).
    { destruct HX as [HlenX _].
      apply (np_std_nonzero (column X j) (entry X i j) (entry X i' j));
        auto; apply column_item_in; lia. }
    assert (Hvar : 0 <= sum_n N (fun i => (entry X i j - mu j) ^ 2) / INR N).
    { apply Rmult_le_pos; [|left; now apply Rinv_0_lt_compat].
      apply sum_n_nonneg; intros k _; apply pow2_ge_0. }
    assert (Hsq : sd j * sd j
                  = sum_n N (fun i => (entry X i j - mu j) ^ 2) / INR N)
      by (unfold sd; now apply sqrt_sqrt).
    rewrite Hscale; destruct (Req_dec_T (sd j) 0) as [|_]; [contradiction|].
    rewrite Hmu.
    rewrite (sum_n_ext N _ (fun i => (entry X i j - mu j) ^ 2 * / (sd j * sd j))).
    2:{ intros k _; field; repeat split; first [assumption | lra]. }
    rewrite sum_n_scal_r.
    replace (sum_n N (fun i => (entry X i j - mu j) ^ 2))
      with (sd j * sd j * INR N) by (rewrite Hsq; field; lra).
    apply f_equal; rewrite <- sqrt_1; apply f_equal.
    field; repeat split; first [assumption | lra].
Qed.

Lemma scaleNormalize_standardises_witness :
  (1 <= 2)%nat /\ rect 2 2 [[1; 2]; [3; 5]] /\
  exists (X_scaled : array2) (means scales : array1),
    _scaleNormalize [[1; 2]; [3; 5]] = Some (X_scaled, means, scales) /\
    rect 2 2 X_scaled /\
    forall j : nat, (j < 2)%nat ->
      (exists i i' : nat, (i < 2)%nat /\ (i' < 2)%nat /\
                          entry [[1; 2]; [3; 5]] i j
                          <> entry [[1; 2]; [3; 5]] i' j) ->
      np_mean (column X_scaled j) = Some 0 /\
      np_std (column X_scaled j) = Some 1.
Proof.
  assert (H1 : (1 <= 2)%nat) by lia.
  assert (H2 : rect 2 2 [[1; 2]; [3; 5]])
    by (split; [reflexivity | repeat constructor]).
  split; [exact H1|]. split; [exact H2|].
  exact (scaleNormalize_standardises [[1; 2]; [3; 5]] 2 2 H1 H2).
Defined.

(** * Conditioning: the weights and the conditional moments *)

Lemma np_std0_nonconstant (W : array2) (N nw : nat) :
  (1 <= N)%nat -> rect N nw W ->
  (forall j : nat, (j < nw)%nat ->
     exists i i' : nat, (i < N)%nat /\ (i' < N)%nat /\
                        entry W i j <> entry W i' j) ->
  exists w_std : array1,
    np_std0 W = Some w_std /\ length w_std = nw /\
    Forall (fun s => s <> 0) w_std.
Proof.
  intros HN HW Hcols.
  destruct (np_std0_defined W N nw HN HW) as (w_std & Hstd & Hlstd).
  exists w_std; split; [assumption | split; [assumption|]].
  unfold np_std0 in Hstd; rewrite (rect_ncols _ _ _ HW HN) in Hstd.
  apply (all_some_seq_forall _ _ _ _ Hstd); intros j sd Hj Hsd.
  destruct (Hcols j Hj) as (i & i' & Hi & Hi' & Hne).
  destruct HW as [HlenW _].
  apply (np_std_nonzero (column W j) (entry W i j) (entry W i' j));
    auto; apply column_item_in; lia.
Qed.

Lemma Rsum_map_scal_r (A : Type) (f : A -> R) (c : R) (l : list A) :
  Rsum (map (fun k => f k * c) l) = Rsum (map f l) * c.
Proof.
  induction l as [|x l IH]; cbn [map]; [cbn; ring|].
  rewrite !Rsum_cons, IH; ring.
Qed.

Lemma exp_sum_pos (f : nat -> R) (N : nat) :
  (1 <= N)%nat -> 0 < Rsum (map (fun k => exp (f k)) (seq 0 N)).
Proof.
  intros HN; apply Rsum_pos.
  - intros Hnil; apply (f_equal (@length R)) in Hnil.
    rewrite length_map, length_seq in Hnil; cbn in Hnil; lia.
  - apply Forall_forall; intros y Hy.
    apply in_map_iff in Hy as (k & <- & _); apply exp_pos.
Qed.

(** The weights that the code computes with the exponents shifted by their
    maximum are those of the unshifted formula. *)
Lemma conditional_weights_given_std (W : array2) (w0 w_std : array1) (sw : R)
  (N nw nq : nat) :
  (1 <= N)%nat -> rect N nw W -> length w0 = nw -> sw <> 0 ->
  np_std0 W = Some w_std -> length w_std = nw ->
  Forall (fun s => s <> 0) w_std ->
  _get_conditional_weights W w0 (Some sw) nq
  = Some (softmax_weights W w0 w_std sw).
Proof.
  intros HN HW Hw0 Hsw Hstd Hlstd Hnz.
  pose proof (scaler_forward W N nw w0 w_std HN HW Hw0 Hlstd Hnz) as Hfwd.
  unfold _get_conditional_weights, shape.
  rewrite Hstd; cbn [bind].
  destruct (bcast_rows Rminus W w0) as [centred|]; [|discriminate].
  cbn [bind] in *; rewrite Hfwd; cbn [bind].
  assert (Hden : 2 * sw ^ 2 <> 0) by nra.
  rewrite div_defined by assumption; cbn [bind].
  set (z := fun i j => (entry W i j - item w0 j) / item w_std j).
  set (x := weight_exponent W w0 w_std sw).
  assert (Hnorms :
            map (fun n => -1 / (2 * sw ^ 2) * n ^ 2)
              (norm_axis1 (mk_array2 N nw z))
            = map x (seq 0 N)).
  { unfold norm_axis1, mk_array2; rewrite !map_map.
    apply map_ext; intros i.
    rewrite map_mk_array1, pow2_sqrt.
    - unfold x, weight_exponent, mk_array1; rewrite Hw0.
      unfold z, Rdiv; ring.
    - apply Rsum_nonneg, Forall_forall; intros y Hy.
      apply in_map_iff in Hy as (j & <- & _); apply pow2_ge_0. }
  fold z; rewrite Hnorms.
  destruct (np_max_defined (map x (seq 0 N))) as [top Htop].
  { intros Hnil; apply (f_equal (@length R)) in Hnil.
    rewrite length_map, length_seq in Hnil; cbn in Hnil; lia. }
  rewrite Htop; cbn [bind].
  rewrite map_map.
  pose proof (exp_sum_pos (fun k => x k - top) N HN) as Htot.
  rewrite vec_div_scalar_defined by lra.
  rewrite map_map.
  unfold softmax_weights; rewrite (rect_nrows _ _ _ HW); fold x.
  apply f_equal, map_ext; intros i.
  rewrite (map_ext (fun k => exp (x k - top))
             (fun k => exp (x k) * exp (- top))).
  2:{ intros k; unfold Rminus; apply exp_plus. }
  rewrite Rsum_map_scal_r.
  pose proof (exp_sum_pos x N HN).
  pose proof (exp_pos (- top)).
  unfold Rminus; rewrite exp_plus; field; split; lra.
Qed.

Lemma softmax_weights_simplex (W : array2) (w0 w_std : array1) (sw : R) :
  (1 <= nrows W)%nat ->
  length (softmax_weights W w0 w_std sw) = nrows W /\
  Forall (fun a => 0 < a) (softmax_weights W w0 w_std sw) /\
  Rsum (softmax_weights W w0 w_std sw) = 1.
Proof.
  intros HN; unfold softmax_weights.
  set (x := weight_exponent W w0 w_std sw).
  pose proof (exp_sum_pos x (nrows W) HN) as Htot.
  split; [now rewrite length_map, length_seq|]. split.
  - apply Forall_forall; intros y Hy.
    apply in_map_iff in Hy as (i & <- & _).
    apply Rmult_lt_0_compat; [apply exp_pos | now apply Rinv_0_lt_compat].
  - unfold Rdiv; rewrite (Rsum_map_scal_r nat (fun i => exp (x i))).
    field; lra.
Qed.

(** X21: when no conditioning column is constant, the weights are those of
    the specification's formula, [exp(x_i) / sum_k exp(x_k)]; the shift by
    the largest exponent does not change them, and each one is positive. *)
Theorem conditional_weights_are_softmax (W : array2) (w0 : array1) (sw : R)
  (N nw nq : nat) :
  (1 <= N)%nat -> rect N nw W -> length w0 = nw -> sw <> 0 ->
  (forall j : nat, (j < nw)%nat ->
     exists i i' : nat, (i < N)%nat /\ (i' < N)%nat /\
                        entry W i j <> entry W i' j) ->
  exists w_std : array1,
    np_std0 W = Some w_std /\
    _get_conditional_weights W w0 (Some sw) nq
    = Some (softmax_weights W w0 w_std sw) /\
    Forall (fun a => 0 < a) (softmax_weights W w0 w_std sw).
Proof.
  intros HN HW Hw0 Hsw Hcols.
  destruct (np_std0_nonconstant W N nw HN HW Hcols) as (w_std & Hstd & Hl & Hnz).
  exists w_std; split; [assumption|]. split.
  - now apply (conditional_weights_given_std W w0 w_std sw N nw nq).
  - apply softmax_weights_simplex; rewrite (rect_nrows _ _ _ HW); assumption.
Qed.

Lemma conditional_weights_are_softmax_witness :
  (1 <= 2)%nat /\ rect 2 1 [[0]; [2]] /\ length [1] = 1%nat /\ 1 <> 0 /\
  (forall j : nat, (j < 1)%nat ->
     exists i i' : nat, (i < 2)%nat /\ (i' < 2)%nat /\
                        entry [[0]; [2]] i j <> entry [[0]; [2]] i' j) /\
  exists w_std : array1,
    np_std0 [[0]; [2]] = Some w_std /\
    _get_conditional_weights [[0]; [2]] [1] (Some 1) 1
    = Some (softmax_weights [[0]; [2]] [1] w_std 1) /\
    Forall (fun a => 0 < a) (softmax_weights [[0]; [2]] [1] w_std 1).
Proof.
  assert (H1 : (1 <= 2)%nat) by lia.
  assert (H2 : rect 2 1 [[0]; [2]])
    by (split; [reflexivity | repeat constructor]).
  assert (H3 : length [1] = 1%nat) by reflexivity.
  assert (H4 : 1 <> 0) by lra.
  assert (H5 : forall j : nat, (j < 1)%nat ->
     exists i i' : nat, (i < 2)%nat /\ (i' < 2)%nat /\
                        entry [[0]; [2]] i j <> entry [[0]; [2]] i' j).
  { intros j Hj; exists 0%nat, 1%nat.
    split; [lia|]. split; [lia|].
    destruct j as [|j]; [cbn; lra | lia]. }
  split; [exact H1|]. split; [exact H2|]. split; [exact H3|].
  split; [exact H4|]. split; [exact H5|].
  exact (conditional_weights_are_softmax [[0]; [2]] [1] 1 2 1 1 H1 H2 H3 H4 H5).
Defined.

(** A weighted mean with weights on the simplex lies between the bounds of
    the values, and the weighted second moment minus its square is the
    weighted mean of the squared deviations. *)
Lemma weighted_mean_between (ws q : array1) (lo hi : R) :
  length ws = length q -> Forall (fun a => 0 <= a) ws ->
  Forall (fun x => lo <= x <= hi) q ->
  lo * Rsum ws <= Rsum (map2 Rmult ws q) <= hi * Rsum ws.
Proof.
  revert q; induction ws as [|a ws IH]; intros [|x q] Hlen Hws Hq;
    try discriminate.
  - unfold Rsum; cbn [map2 fold_right]; lra.
  - inversion Hws as [|? ? Ha Hws']; inversion Hq as [|? ? Hx Hq']; subst.
    assert (Hl : length ws = length q) by (cbn in Hlen; lia).
    specialize (IH q Hl Hws' Hq').
    cbn [map2]; rewrite !Rsum_cons; nra.
Qed.

Lemma weighted_deviations (ws q : array1) (E : R) :
  length ws = length q ->
  Rsum (map2 Rmult ws (map (fun x => (x - E) ^ 2) q))
  = Rsum (map2 Rmult ws (map2 Rmult q q))
    - 2 * E * Rsum (map2 Rmult ws q) + E ^ 2 * Rsum ws.
Proof.
  revert q; induction ws as [|a ws IH]; intros [|x q] Hlen; try discriminate.
  - unfold Rsum; cbn [map2 map fold_right]; ring.
  - assert (Hl : length ws = length q) by (cbn in Hlen; lia).
    specialize (IH q Hl).
    cbn [map2 map]; rewrite !Rsum_cons, IH; ring.
Qed.

Lemma weighted_squares_nonneg (ws q : array1) :
  Forall (fun a => 0 <= a) ws ->
  0 <= Rsum (map2 Rmult ws (map (fun x => x ^ 2) q)).
Proof.
  intros Hws; revert q; induction Hws as [|a ws Ha _ IH]; intros [|x q];
    cbn [map2 map]; try (unfold Rsum; cbn [fold_right]; lra).
  specialize (IH q); rewrite Rsum_cons.
  assert (0 <= x ^ 2) by apply pow2_ge_0.
  nra.
Qed.

Lemma take_columns_rect (X : array2) (N n : nat) (cols : list nat) :
  (1 <= N)%nat -> rect N n X -> Forall (fun j => (j < n)%nat) cols ->
  take_columns X cols
  = Some (mk_array2 N (length cols) (fun i k => entry X i (nth k cols 0%nat))).
Proof.
  intros HN HX Hcols; unfold take_columns.
  rewrite (rect_ncols _ _ _ HX HN).
  assert (Hall : forallb (fun j => (j <? n)%nat) cols = true).
  { apply forallb_forall; intros j Hj.
    rewrite Forall_forall in Hcols; apply Nat.ltb_lt; auto. }
  rewrite Hall; apply f_equal.
  destruct HX as [HlX _].
  apply (nth_ext _ _ [] []).
  - rewrite length_map; unfold mk_array2; now rewrite length_map, length_seq.
  - intros i Hi; rewrite length_map in Hi.
    rewrite (nth_map_in _ X i [] []) by assumption.
    unfold mk_array2.
    rewrite (nth_map_in _ (seq 0 N) i 0%nat []) by (rewrite length_seq; lia).
    rewrite seq_nth by lia; cbn [Nat.add].
    unfold mk_array1.
    apply (nth_ext _ _ 0 0); [now rewrite !length_map, length_seq|].
    intros k Hk; rewrite length_map in Hk.
    rewrite (nth_map_in _ cols k 0%nat 0) by assumption.
    rewrite (nth_map_in _ (seq 0 (length cols)) k 0%nat 0)
      by (now rewrite length_seq).
    rewrite seq_nth by assumption; reflexivity.
Qed.

(** X22: when no conditioning column is constant, and with the default
    bandwidth or any bandwidth other than zero, the conditional expectation
    is a weighted mean of the column of interest, so it lies between any two
    bounds of that column, and the conditional variance is not negative. *)
Theorem conditional_expectation_bounds (X : array2) (N n : nat)
  (qoi_cols : nat) (cond_cols : list nat) (cond_vals : array1)
  (sw : option R) :
  (1 <= N)%nat -> rect N n X -> (qoi_cols < n)%nat ->
  Forall (fun j => (j < n)%nat) cond_cols ->
  length cond_vals = length cond_cols -> sw <> Some 0 ->
  Forall (fun j => exists i i' : nat, (i < N)%nat /\ (i' < N)%nat /\
                                      entry X i j <> entry X i' j) cond_cols ->
  exists expn var : R,
    _conditional_expectation X qoi_cols cond_cols cond_vals sw
    = Some (expn, var) /\
    (forall lo hi : R,
       (forall i : nat, (i < N)%nat -> lo <= entry X i qoi_cols <= hi) ->
       lo <= expn <= hi) /\
    0 <= var.
Proof.
  intros HN HX Hq Hcols Hvals Hsw0 Hvary.
  set (nw := length cond_cols).
  assert (Hbw : exists s : R, s <> 0 /\
            match sw with
            | Some sw => Some sw
            | None =>
                base <- div 4 (INR (nrows X * (2 + nw + 1))) ;;
                float_pow base (1 / INR (4 + nw + 1))
            end = Some s).
  { destruct sw as [s|].
    - exists s; split; [congruence | reflexivity].
    - assert (Hden : 0 < INR (nrows X * (2 + nw + 1))).
      { apply lt_0_INR; rewrite (rect_nrows _ _ _ HX); nia. }
      rewrite div_defined by lra; cbn [bind].
      assert (Hbase : 0 < 4 / INR (nrows X * (2 + nw + 1)))
        by (apply Rdiv_lt_0_compat; lra).
      rewrite float_pow_pos by assumption.
      eexists; split; [|reflexivity].
      apply Rgt_not_eq, Rpower_pos. }
  destruct Hbw as (s & Hsw & Hbw).
  set (W := mk_array2 N nw (fun i k => entry X i (nth k cond_cols 0%nat))).
  assert (HW : rect N nw W) by apply mk_array2_rect.
  assert (HWv : forall j : nat, (j < nw)%nat ->
            exists i i' : nat, (i < N)%nat /\ (i' < N)%nat /\
                               entry W i j <> entry W i' j).
  { intros j Hj.
    rewrite Forall_forall in Hvary.
    destruct (Hvary (nth j cond_cols 0%nat)) as (i & i' & Hi & Hi' & Hne);
      [now apply nth_In|].
    exists i, i'; split; [assumption|]. split; [assumption|].
    unfold W; now rewrite !entry_mk_array2. }
  destruct (np_std0_nonconstant W N nw HN HW HWv) as (w_std & Hstd & Hl & Hnz).
  pose proof (conditional_weights_given_std W cond_vals w_std s N nw 1
                HN HW Hvals Hsw Hstd Hl Hnz) as Hweights.
  set (ws := softmax_weights W cond_vals w_std s) in *.
  assert (HNW : (1 <= nrows W)%nat) by (now rewrite (rect_nrows _ _ _ HW)).
  destruct (softmax_weights_simplex W cond_vals w_std s HNW)
    as (Hlws & Hpos & Hone).
  fold ws in Hlws, Hpos, Hone.
  rewrite (rect_nrows _ _ _ HW) in Hlws.
  assert (Hnn : Forall (fun a => 0 <= a) ws).
  { eapply Forall_impl; [|exact Hpos]; cbn; intros; lra. }
  set (q := column X qoi_cols).
  assert (Hlq : length q = N).
  { unfold q; rewrite column_length; apply HX. }
  assert (Hlqq : length (map2 Rmult q q) = N) by (rewrite map2_length; lia).
  set (expn := Rsum (map2 Rmult ws q)).
  exists expn, (Rsum (map2 Rmult ws (map2 Rmult q q)) - expn ^ 2).
  split; [|split].
  - unfold _conditional_expectation.
    fold nw; rewrite Hbw; cbn [bind].
    rewrite (take_columns_rect X N n cond_cols HN HX Hcols); cbn [bind].
    fold nw; fold W; rewrite Hweights; cbn [bind].
    unfold take_column; rewrite (rect_ncols _ _ _ HX HN).
    destruct (Nat.ltb_spec qoi_cols n) as [_ | Hge]; [|lia].
    cbn [bind]; fold q.
    unfold vec_dot; rewrite Hlws, Hlq, Hlqq, Nat.eqb_refl; cbn [bind].
    reflexivity.
  - intros lo hi Hb.
    assert (Hqb : Forall (fun x => lo <= x <= hi) q).
    { apply Forall_forall; intros x Hx.
      apply (In_nth _ _ 0) in Hx as (i & Hi & <-).
      rewrite Hlq in Hi; specialize (Hb i Hi).
      unfold q; rewrite (column_as_table X N n qoi_cols HX).
      fold (item (mk_array1 N (fun i => entry X i qoi_cols)) i).
      now rewrite item_mk_array1. }
    pose proof (weighted_mean_between ws q lo hi) as Hm.
    rewrite Hone in Hm; unfold expn.
    assert (length ws = length q) by lia.
    specialize (Hm H Hnn Hqb); lra.
  - assert (Hlen : length ws = length q) by lia.
    pose proof (weighted_deviations ws q expn Hlen) as Hd.
    rewrite Hone in Hd; fold expn in Hd.
    pose proof (weighted_squares_nonneg ws (map (fun x => x - expn) q) Hnn)
      as Hsq.
    rewrite map_map in Hsq.
    rewrite Hd in Hsq; nra.
Qed.

Lemma conditional_expectation_bounds_witness :
  (1 <= 2)%nat /\ rect 2 2 [[0; 3]; [2; 5]] /\ (1 < 2)%nat /\
  Forall (fun j => (j < 2)%nat) [0%nat] /\
  length [1] = length [0%nat] /\ @None R <> Some 0 /\
  Forall (fun j => exists i i' : nat, (i < 2)%nat /\ (i' < 2)%nat /\
                     entry [[0; 3]; [2; 5]] i j <> entry [[0; 3]; [2; 5]] i' j)
    [0%nat] /\
  exists expn var : R,
    _conditional_expectation [[0; 3]; [2; 5]] 1 [0%nat] [1] None
    = Some (expn, var) /\
    (forall lo hi : R,
       (forall i : nat, (i < 2)%nat ->
          lo <= entry [[0; 3]; [2; 5]] i 1 <= hi) ->
       lo <= expn <= hi) /\
    0 <= var.
Proof.
  assert (H1 : (1 <= 2)%nat) by lia.
  assert (H2 : rect 2 2 [[0; 3]; [2; 5]])
    by (split; [reflexivity | repeat constructor]).
  assert (H3 : (1 < 2)%nat) by lia.
  assert (H4 : Forall (fun j => (j < 2)%nat) [0%nat]) by (repeat constructor).
  assert (H5 : length [1] = length [0%nat]) by reflexivity.
  assert (H6 : @None R <> Some 0) by discriminate.
  assert (H7 : Forall (fun j => exists i i' : nat, (i < 2)%nat /\ (i' < 2)%nat /\
                     entry [[0; 3]; [2; 5]] i j <> entry [[0; 3]; [2; 5]] i' j)
                 [0%nat]).
  { constructor; [|constructor].
    exists 0%nat, 1%nat; split; [lia|]. split; [lia|]. cbn; lra. }
  split; [exact H1|]. split; [exact H2|]. split; [exact H3|].
  split; [exact H4|]. split; [exact H5|]. split; [exact H6|].
  split; [exact H7|].
  exact (conditional_expectation_bounds [[0; 3]; [2; 5]] 2 2 1 [0%nat] [1] None
           H1 H2 H3 H4 H5 H6 H7).
Defined.

(** * Walks of the Ito integrator *)

Lemma last_Forall {A : Type} (P : A -> Prop) (l : list A) (d : A) :
  Forall P l -> P d -> P (last l d).
Proof.
  intros Hl Hd; induction Hl as [|x l Hx Hl IH]; [assumption|].
  destruct l as [|y l]; [assumption | exact IH].
Qed.

Section Walk.

Variables (H g a : array2) (f0 dr beta : R) (nu N m : nat).
Hypotheses (Hnu : (1 <= nu)%nat) (HN : (1 <= N)%nat) (Hm : (1 <= m)%nat).
Hypotheses (HH : rect nu N H) (Hg : rect N m g) (Ha : rect N m a).
Hypotheses (Hf0 : 0 < f0) (Hdr : 0 < dr) (Hbeta : 0 < beta).

(** One step keeps the shape of the state and draws [nu * N] numbers. *)
Lemma ito_step_keeps_shape (Z Y : array2) (gen : rng) :
  rect nu m Z -> rect nu m Y ->
  exists (Z' Y' : array2) (gen' : rng),
    _simulate_ito_step Z Y H g a f0 dr beta 2 gen = Some (Z', Y', gen') /\
    rect nu m Z' /\ rect nu m Y' /\
    consumed gen' = (consumed gen + nu * N)%nat /\
    normal_stream gen' = normal_stream gen.
Proof.
  intros HZ HY.
  pose proof (ito_step_value Z Y H g a f0 dr beta gen nu N m
                Hnu HN Hm HZ HY HH Hg Ha Hf0 Hdr Hbeta) as Hstep.
  destruct (ito_step_spec_rect Z Y H g a f0 dr beta (fst (randn nu N gen))
              nu N m Hnu HN Hm HZ HY HH Hg Ha (randn_rect nu N gen))
    as [HZ' HY'].
  do 3 eexists; split; [exact Hstep|].
  split; [exact HZ'|]. split; [exact HY'|]. split; reflexivity.
Qed.

(** The invariant of the loop: the current state is the last recorded step
    (the initial state [Z0] before the first one). *)
Lemma ito_walk_loop_spec (Z0 : array2) (t : nat) :
  forall (Z Y : array2) (steps : list array2) (gen : rng),
    rect nu m Z -> rect nu m Y -> Forall (rect nu m) steps ->
    Z = last steps Z0 ->
    exists (Zt : array2) (steps' : list array2) (gen' : rng),
      ito_walk_loop t Z Y H g a f0 dr beta 2 steps gen
      = Some (Zt, steps', gen') /\
      length steps' = (length steps + t)%nat /\
      Forall (rect nu m) steps' /\
      Zt = last steps' Z0 /\
      consumed gen' = (consumed gen + t * (nu * N))%nat /\
      normal_stream gen' = normal_stream gen.
Proof.
  induction t as [|t IH]; intros Z Y steps gen HZ HY Hsteps Hlast.
  - exists Z, steps, gen; cbn [ito_walk_loop].
    repeat split; auto; lia.
  - destruct (ito_step_keeps_shape Z Y gen HZ HY)
      as (Z' & Y' & gen1 & Hstep & HZ' & HY' & Hc & Hs).
    destruct (IH Z' Y' (steps ++ [Z']) gen1 HZ' HY')
      as (Zt & steps' & gen' & Hloop & Hlen & Hall & Hlt & Hc' & Hs').
    { apply Forall_app; split; [assumption | constructor; [auto | constructor]]. }
    { now rewrite last_last. }
    exists Zt, steps', gen'; cbn [ito_walk_loop].
    rewrite Hstep; cbn [bind]; rewrite Hloop.
    rewrite length_app in Hlen; cbn [length] in Hlen.
    repeat split; auto; [lia | lia | congruence].
Qed.

Lemma ito_walk_spec (Z : array2) (t : BinNums.Z) (gen : rng) :
  rect nu m Z ->
  exists (Zt : array2) (steps : list array2) (gen' : rng),
    _simulate_ito_walk Z t H g a f0 dr beta 2 gen = Some (Zt, steps, gen') /\
    length steps = Z.to_nat t /\
    Forall (rect nu m) steps /\
    Zt = last steps Z /\
    consumed gen' = (consumed gen + (Z.to_nat t + 1) * (nu * N))%nat /\
    normal_stream gen' = normal_stream gen.
Proof.
  intros HZ.
  pose proof (randn_rect nu N gen) as Hdraw.
  destruct (np_dot_rect nu N m _ a Hdraw Ha Hnu HN) as [Hdot HY].
  destruct (ito_walk_loop_spec Z (Z.to_nat t) Z
              (matmul (fst (randn nu N gen)) a) [] (snd (randn nu N gen))
              HZ HY (Forall_nil _) eq_refl)
    as (Zt & steps & gen' & Hloop & Hlen & Hall & Hlt & Hc & Hs).
  exists Zt, steps, gen'; split.
  - unfold _simulate_ito_walk, shape.
    rewrite (rect_nrows _ _ _ HH), (rect_ncols _ _ _ HH Hnu).
    destruct (randn nu N gen) as [draw gen1] eqn:Hr; cbn [fst snd] in *.
    rewrite Hdot; cbn [bind]; exact Hloop.
  - cbn [length] in Hlen; cbn [randn snd consumed normal_stream] in Hc, Hs.
    repeat split; auto; lia.
Qed.

(** The loop over the [n] walks. *)
Lemma ito_samples_loop_spec (Z : array2) (t : BinNums.Z) (n : nat) :
  rect nu m Z ->
  forall (Zs : list array2) (Zs_steps : list (list array2)) (gen : rng),
    Forall (rect nu m) Zs ->
    Forall (fun steps => length steps = Z.to_nat t /\ Forall (rect nu m) steps)
      Zs_steps ->
    exists (Zs' : list array2) (Zs_steps' : list (list array2)) (gen' : rng),
      ito_samples_loop n Z t H g a f0 dr beta 2 Zs Zs_steps gen
      = Some (Zs', Zs_steps', gen') /\
      length Zs' = (length Zs + n)%nat /\
      length Zs_steps' = (length Zs_steps + n)%nat /\
      Forall (rect nu m) Zs' /\
      Forall (fun steps => length steps = Z.to_nat t /\ Forall (rect nu m) steps)
        Zs_steps' /\
      consumed gen'
      = (consumed gen + n * ((Z.to_nat t + 1) * (nu * N)))%nat /\
      normal_stream gen' = normal_stream gen.
Proof.
  intros HZ; induction n as [|n IH]; intros Zs Zs_steps gen HZs Hsteps.
  - exists Zs, Zs_steps, gen; cbn [ito_samples_loop].
    repeat split; auto; lia.
  - destruct (ito_walk_spec Z t gen HZ)
      as (Zw & Z_steps & gen1 & Hwalk & Hlen & Hall & Hlast & Hc & Hs).
    assert (HZw : rect nu m Zw).
    { rewrite Hlast; now apply last_Forall. }
    destruct (IH (Zs ++ [Zw]) (Zs_steps ++ [Z_steps]) gen1)
      as (Zs' & Zs_steps' & gen' & Hloop & Hl1 & Hl2 & Hr1 & Hr2 & Hc' & Hs').
    { apply Forall_app; split; [assumption | constructor; [auto | constructor]]. }
    { apply Forall_app; split; [assumption | constructor; [auto | constructor]]. }
    exists Zs', Zs_steps', gen'; cbn [ito_samples_loop].
    rewrite Hwalk; cbn [bind]; rewrite Hloop.
    rewrite length_app in Hl1, Hl2; cbn [length] in Hl1, Hl2.
    repeat split; auto; [lia | lia | lia | congruence].
Qed.

End Walk.

(** X17: a walk of [t] steps returns [t] recorded states of the shape of
    [Z], the returned state is the last of them (the initial [Z] when [t] is
    not positive), and the walk draws [(t + 1) * nu * N] numbers: one matrix
    for the initial momentum and one for each step. *)
Theorem ito_walk_returns_t_steps (Z H g a : array2) (f0 dr beta : R)
  (nu N m : nat) (t : BinNums.Z) (gen : rng) :
  (1 <= nu)%nat -> (1 <= N)%nat -> (1 <= m)%nat ->
  rect nu m Z -> rect nu N H -> rect N m g -> rect N m a ->
  0 < f0 -> 0 < dr -> 0 < beta ->
  exists (Zt : array2) (steps : list array2) (gen' : rng),
    _simulate_ito_walk Z t H g a f0 dr beta 2 gen = Some (Zt, steps, gen') /\
    length steps = Z.to_nat t /\
    Forall (rect nu m) steps /\
    Zt = last steps Z /\
    consumed gen' = (consumed gen + (Z.to_nat t + 1) * (nu * N))%nat /\
    normal_stream gen' = normal_stream gen.
Proof.
  intros Hnu HN Hm HZ HH Hg Ha Hf0 Hdr Hbeta.
  exact (ito_walk_spec H g a f0 dr beta nu N m Hnu HN Hm HH Hg Ha Hf0 Hdr Hbeta
           Z t gen HZ).
Qed.

Lemma ito_walk_returns_t_steps_witness :
  (1 <= 1)%nat /\ rect 1 1 [[1]] /\ rect 1 1 [[0]] /\ 0 < 4 /\ 0 < 1 /\
  exists (Zt : array2) (steps : list array2) (gen' : rng),
    _simulate_ito_walk [[1]] 3 [[0]] [[1]] [[1]] 4 1 1 2 (mk_rng (fun _ => 0) 0)
    = Some (Zt, steps, gen') /\
    length steps = Z.to_nat 3 /\
    Forall (rect 1 1) steps /\
    Zt = last steps [[1]] /\
    consumed gen' = (0 + (Z.to_nat 3 + 1) * (1 * 1))%nat /\
    normal_stream gen' = (fun _ => 0).
Proof.
  assert (H1 : (1 <= 1)%nat) by lia.
  assert (H2 : rect 1 1 [[1]]) by (split; [reflexivity | repeat constructor]).
  assert (H3 : rect 1 1 [[0]]) by (split; [reflexivity | repeat constructor]).
  assert (H4 : 0 < 4) by lra.
  assert (H5 : 0 < 1) by lra.
  split; [exact H1|]. split; [exact H2|]. split; [exact H3|].
  split; [exact H4|]. split; [exact H5|].
  exact (ito_walk_returns_t_steps [[1]] [[0]] [[1]] [[1]] 4 1 1 1 1 1 3
           (mk_rng (fun _ => 0) 0) H1 H1 H1 H2 H3 H2 H2 H4 H5 H5).
Defined.

Lemma py_int_floor (x : R) :
  0 <= x -> IZR (py_int x) <= x < IZR (py_int x) + 1.
Proof.
  intros Hx; unfold py_int.
  destruct (Rle_dec 0 x) as [_ | Hn]; [|contradiction].
  destruct (base_Int_part x); lra.
Qed.

(** X18: the sampler returns [n] new states of the shape of [Z0], each with
    its [t] recorded steps, where [t] is the requested number of steps or,
    with ['auto'], the integer with [t - 1 <= 4 ln(100) / (f0 dr) < t]; the
    [n] walks draw [n * (t + 1) * nu * N] numbers, so that no two walks share
    a draw. *)
Theorem sampling_returns_n_walks (Z0 H g a : array2) (f0 dr beta : R)
  (nu N m : nat) (t : option BinNums.Z) (num_samples : BinNums.Z) (gen : rng) :
  (1 <= nu)%nat -> (1 <= N)%nat -> (1 <= m)%nat ->
  rect nu m Z0 -> rect nu N H -> rect N m g -> rect N m a ->
  0 < f0 -> 0 < dr -> 0 < beta ->
  exists (Zs : list array2) (Zs_steps : list (list array2)) (t' : BinNums.Z)
         (gen' : rng),
    _sampling Z0 H g a f0 dr t num_samples beta 2 gen
    = Some (Zs, Zs_steps, t', gen') /\
    length Zs = Z.to_nat num_samples /\
    Forall (rect nu m) Zs /\
    length Zs_steps = Z.to_nat num_samples /\
    Forall (fun steps => length steps = Z.to_nat t' /\ Forall (rect nu m) steps)
      Zs_steps /\
    match t with
    | Some t0 => t' = t0
    | None => IZR t' - 1 <= 4 * ln 100 / f0 / dr < IZR t'
    end /\
    consumed gen'
    = (consumed gen
       + Z.to_nat num_samples * ((Z.to_nat t' + 1) * (nu * N)))%nat.
Proof.
  intros Hnu HN Hm HZ HH Hg Ha Hf0 Hdr Hbeta.
  set (steps := 4 * ln 100 / f0 / dr).
  set (t' := match t with Some t0 => t0 | None => py_int (steps + 1) end).
  destruct (ito_samples_loop_spec H g a f0 dr beta nu N m Hnu HN Hm HH Hg Ha
              Hf0 Hdr Hbeta Z0 t' (Z.to_nat num_samples) HZ [] [] gen
              (Forall_nil _) (Forall_nil _))
    as (Zs & Zs_steps & gen' & Hloop & Hl1 & Hl2 & Hr1 & Hr2 & Hc & _).
  exists Zs, Zs_steps, t', gen'.
  split; [|split; [exact Hl1|split; [exact Hr1|split; [exact Hl2|
           split; [exact Hr2|split; [|exact Hc]]]]]].
  - unfold _sampling, _simulate_entire_ito, shape.
    rewrite (rect_nrows _ _ _ HH), (rect_ncols _ _ _ HH Hnu).
    rewrite div_defined by (apply not_0_INR; nia); cbn [bind].
    assert (Ht : match t with
                 | Some t0 => Some t0
                 | None =>
                     q <- div (4 * ln 100) f0 ;;
                     steps <- div q dr ;;
                     Some (py_int (steps + 1))
                 end = Some t').
    { unfold t'; destruct t as [t0|]; [reflexivity|].
      rewrite div_defined by lra; cbn [bind].
      rewrite div_defined by lra; reflexivity. }
    rewrite Ht; cbn [bind]; rewrite Hloop; reflexivity.
  - unfold t'; destruct t as [t0|]; [reflexivity|].
    assert (Hln : 0 < ln 100).
    { rewrite <- ln_1; apply ln_increasing; lra. }
    assert (Hsteps : 0 < steps).
    { unfold steps; repeat apply Rdiv_lt_0_compat; lra. }
    assert (Hs1 : 0 <= steps + 1) by lra.
    pose proof (py_int_floor (steps + 1) Hs1); lra.
Qed.

Lemma sampling_returns_n_walks_witness :
  (1 <= 1)%nat /\ rect 1 1 [[1]] /\ rect 1 1 [[0]] /\ 0 < 4 /\ 0 < 1 /\
  exists (Zs : list array2) (Zs_steps : list (list array2)) (t' : BinNums.Z)
         (gen' : rng),
    _sampling [[1]] [[0]] [[1]] [[1]] 4 1 None 2 1 2 (mk_rng (fun _ => 0) 0)
    = Some (Zs, Zs_steps, t', gen') /\
    length Zs = Z.to_nat 2 /\
    Forall (rect 1 1) Zs /\
    length Zs_steps = Z.to_nat 2 /\
    Forall (fun steps => length steps = Z.to_nat t' /\ Forall (rect 1 1) steps)
      Zs_steps /\
    IZR t' - 1 <= 4 * ln 100 / 4 / 1 < IZR t' /\
    consumed gen' = (0 + Z.to_nat 2 * ((Z.to_nat t' + 1) * (1 * 1)))%nat.
Proof.
  assert (H1 : (1 <= 1)%nat) by lia.
  assert (H2 : rect 1 1 [[1]]) by (split; [reflexivity | repeat constructor]).
  assert (H3 : rect 1 1 [[0]]) by (split; [reflexivity | repeat constructor]).
  assert (H4 : 0 < 4) by lra.
  assert (H5 : 0 < 1) by lra.
  split; [exact H1|]. split; [exact H2|]. split; [exact H3|].
  split; [exact H4|]. split; [exact H5|].
  exact (sampling_returns_n_walks [[1]] [[0]] [[1]] [[1]] 4 1 1 1 1 1 None 2
           (mk_rng (fun _ => 0) 0) H1 H1 H1 H2 H3 H2 H2 H4 H5 H5).
Defined.

(** X19: with ['auto'] steps the sampler needs [f0] and [dr] different from
    zero: the step count [4 ln(100) / f0 / dr] is otherwise infinite and its
    conversion to an integer raises before any walk is taken. *)
Theorem sampling_auto_raises_on_zero_rate (Z0 H g a : array2) (f0 dr beta : R)
  (num_samples : BinNums.Z) (pot_method : nat) (gen : rng) :
  f0 = 0 \/ dr = 0 ->
  _sampling Z0 H g a f0 dr None num_samples beta pot_method gen = None.
Proof.
  intros Hzero; unfold _sampling, _simulate_entire_ito, shape.
  destruct (div 4 (INR (ncols H * (2 + nrows H)))) as [x|]; [|reflexivity].
  cbn [bind].
  assert (Hdiv0 : forall x, div x 0 = None).
  { intros y; unfold div, np_divide.
    destruct (Req_dec_T 0 0) as [_ | Hne]; [|congruence].
    destruct (Rlt_dec 0 y); [reflexivity|].
    destruct (Rlt_dec y 0); reflexivity. }
  destruct (Req_dec_T f0 0) as [-> | Hf0].
  - rewrite Hdiv0; reflexivity.
  - destruct Hzero as [? | ->]; [contradiction|].
    rewrite div_defined by assumption; cbn [bind].
    rewrite Hdiv0; reflexivity.
Qed.

Lemma sampling_auto_raises_on_zero_rate_witness :
  (1 = 0 \/ 0 = 0) /\
  _sampling [[1]] [[0]] [[1]] [[1]] 1 0 None 1 1 2 (mk_rng (fun _ => 0) 0)
  = None.
Proof.
  assert (H : 1 = 0 \/ 0 = 0) by (right; reflexivity).
  split; [exact H|].
  exact (sampling_auto_raises_on_zero_rate [[1]] [[0]] [[1]] [[1]] 1 0 1 1 2
           (mk_rng (fun _ => 0) 0) H).
Defined.

(** * PCA *)

Lemma vec_as_table (v : array1) (n : nat) :
  length v = n -> v = mk_array1 n (item v).
Proof.
  intros Hlen; apply (nth_ext _ _ 0 0); [now rewrite mk_array1_length|].
  intros i Hi; fold (item v i); fold (item (mk_array1 n (item v)) i).
  rewrite item_mk_array1 by lia; reflexivity.
Qed.

Lemma bcast_rows_rect (op : R -> R -> R) (X : array2) (v : array1) (N n : nat) :
  (1 <= N)%nat -> rect N n X -> length v = n ->
  bcast_rows op X v
  = Some (mk_array2 N n (fun i j => op (entry X i j) (item v j))).
Proof.
  intros HN HX Hv.
  transitivity (bcast_rows op (mk_array2 N n (entry X)) (mk_array1 n (item v))).
  - f_equal; [now apply rect_as_mk_array2 | now apply vec_as_table].
  - now apply bcast_rows_mk_array2.
Qed.

Lemma bcast_rows_div_rect (X : array2) (v : array1) (N n : nat) :
  (1 <= N)%nat -> rect N n X -> length v = n -> Forall (fun x => x <> 0) v ->
  bcast_rows_div X v = Some (mk_array2 N n (fun i j => entry X i j / item v j)).
Proof.
  intros HN HX Hv Hnz.
  set (Xs := map (fun row => map2 Rdiv row v) X).
  assert (HXs : rect N n Xs).
  { apply rect_map; [assumption|].
    intros row Hin; rewrite map2_length;
      rewrite (rect_row _ _ _ _ HX Hin); lia. }
  transitivity (Some Xs).
  - unfold bcast_rows_div.
    rewrite (rect_ncols _ _ _ HX HN), Hv, Nat.eqb_refl.
    apply all_some_map; intros row Hin.
    apply row_div_defined; [|assumption].
    rewrite (rect_row _ _ _ _ HX Hin); lia.
  - apply f_equal, (rect_ext N n); [assumption | apply mk_array2_rect |].
    intros i j Hi Hj.
    rewrite entry_mk_array2 by assumption.
    destruct HX as [HlX HrX].
    assert (Hrow : length (nth i X []) = n).
    { rewrite Forall_forall in HrX; apply HrX, nth_In; lia. }
    unfold entry, Xs.
    rewrite (nth_map_in _ X i [] []) by lia.
    rewrite (nth_map2 Rdiv _ v j 0 0 0) by lia.
    reflexivity.
Qed.

(** [np.cov] on the table of [n >= 2] variables and [N >= 2] observations. *)
Lemma np_cov_table (n N : nat) (f : nat -> nat -> R) :
  (2 <= n)%nat -> (2 <= N)%nat ->
  np_cov (mk_array2 n N f)
  = Some (Cov2 (mk_array2 n n (fun j k =>
       1 / (INR N - 1)
       * sum_n N (fun i => (f j i - sum_n N (f j) / INR N)
                           * (f k i - sum_n N (f k) / INR N))))).
Proof.
  intros Hn HN; unfold np_cov.
  rewrite nrows_mk_array2, ncols_mk_array2 by lia.
  destruct (Nat.eqb_spec n 0) as [|_]; [lia|].
  destruct (Nat.eqb_spec n 1) as [|_]; [lia|].
  set (avg := fun j => sum_n N (f j) / INR N).
  assert (Havg : all_some (map np_mean (mk_array2 n N f))
                 = Some (map avg (seq 0 n))).
  { unfold mk_array2; rewrite map_map.
    apply all_some_map_seq; intros j _; apply np_mean_table; lia. }
  rewrite Havg; cbn [bind].
  assert (HNr : 2 <= INR N) by (apply (le_INR 2); assumption).
  destruct (Rle_dec (INR N - 1) 0) as [Hle | _]; [lra|].
  rewrite div_defined by lra; cbn [bind].
  assert (Hcentred :
            map2 (fun row mu => map (fun x => x - mu) row) (mk_array2 n N f)
              (map avg (seq 0 n))
            = mk_array2 n N (fun j i => f j i - avg j)).
  { unfold mk_array2.
    rewrite (map2_map_map (fun row mu => map (fun x => x - mu) row)).
    apply map_ext; intros j; apply map_mk_array1. }
  rewrite Hcentred.
  rewrite transpose_mk_array2 by lia.
  rewrite (matmul_rect n N n _ _ (mk_array2_rect _ _ _) (mk_array2_rect _ _ _))
    by lia.
  rewrite (smul_as_table _ n n _ (mk_array2_rect _ _ _)).
  do 2 apply f_equal.
  apply mk_array2_ext; intros j k Hj Hk.
  rewrite entry_mk_array2 by assumption.
  apply f_equal, sum_n_ext; intros i Hi.
  now rewrite !entry_mk_array2.
Qed.

(** With one variable the squeezed covariance is a 0-d array. *)
Lemma np_cov_one_variable (M : array2) :
  nrows M = 1%nat ->
  np_cov M = None \/ exists c, np_cov M = Some (Cov0 c).
Proof.
  intros H1; unfold np_cov; rewrite H1; cbn [Nat.eqb].
  destruct (all_some (map np_mean M)) as [avg|]; [|now left].
  cbn [bind].
  match goal with |- context [div 1 ?d] => destruct (div 1 d) as [s|] end;
    [|now left].
  cbn [bind]; right; eexists; reflexivity.
Qed.

Section WithEigh.

Variable linalg_eigh : array2 -> option (array1 * array2).

(** The first lines of [_pca]: the matrix handed to [np.linalg.eigh] is the
    sample covariance of the columns. *)
Lemma pca_covariance (X : array2) (N n : nat) :
  (2 <= N)%nat -> (2 <= n)%nat -> rect N n X ->
  let mu := fun j => sum_n N (fun i => entry X i j) / INR N in
  np_mean0 X = Some (mk_array1 n mu) /\
  bcast_rows Rminus X (mk_array1 n mu)
  = Some (mk_array2 N n (fun i j => entry X i j - mu j)) /\
  np_cov (transpose (mk_array2 N n (fun i j => entry X i j - mu j)))
  = Some (Cov2 (sample_covariance X)).
Proof.
  intros HN Hn HX mu.
  assert (HN1 : (1 <= N)%nat) by lia.
  split; [now apply np_mean0_value|]. split.
  - rewrite (bcast_rows_rect Rminus X _ N n HN1 HX (mk_array1_length _ _)).
    apply f_equal, mk_array2_ext; intros i j Hi Hj.
    now rewrite item_mk_array1.
  - rewrite transpose_mk_array2 by lia.
    rewrite np_cov_table by assumption.
    unfold sample_covariance.
    rewrite (rect_nrows _ _ _ HX), (rect_ncols _ _ _ HX HN1).
    fold mu.
    do 2 apply f_equal.
    apply mk_array2_ext; intros j k Hj Hk.
    assert (Hzero : forall l, sum_n N (fun i => entry X i l - mu l) / INR N = 0).
    { intros l; rewrite sum_n_minus, sum_n_const.
      unfold mu; field; apply not_0_INR; lia. }
    rewrite !Hzero.
    change (1 / (INR N - 1)
            * sum_n N (fun i => (entry X i j - mu j - 0)
                                * (entry X i k - mu k - 0))
            = sum_n N (fun i => (entry X i j - mu j) * (entry X i k - mu k))
              / (INR N - 1)).
    rewrite (sum_n_ext N _
               (fun i => (entry X i j - mu j) * (entry X i k - mu k)))
      by (intros; ring).
    unfold Rdiv; ring.
Qed.

(** X8: on data with a single feature [_pca] raises, whatever the options:
    [np.cov] squeezes the 1 x 1 covariance to a 0-d array, which
    [np.linalg.eigh] refuses. *)
Theorem pca_single_feature_raises (X : array2) (N : nat) (method : string)
  (cumulative_energy eigenvalues_cutoff : R) (pca_dim : Z)
  (scale_evecs : bool) :
  (1 <= N)%nat -> rect N 1 X ->
  _pca linalg_eigh X method cumulative_energy eigenvalues_cutoff pca_dim
    scale_evecs = None.
Proof.
  intros HN HX; unfold _pca, shape.
  destruct (np_mean0_defined X N 1 HN HX) as (means & Hmeans & Hlen).
  rewrite Hmeans; cbn [bind].
  rewrite (bcast_rows_rect Rminus X means N 1 HN HX Hlen); cbn [bind].
  set (Xc := mk_array2 N 1 (fun i j => entry X i j - item means j)).
  assert (Hrows : nrows (transpose Xc) = 1%nat).
  { unfold transpose; rewrite nrows_mk_array2.
    unfold Xc; now apply ncols_mk_array2. }
  destruct (np_cov_one_variable (transpose Xc) Hrows) as [-> | [c ->]];
    reflexivity.
Qed.

(** A projection on [A] followed by the product with [B^T] is the identity
    when [A B^T] is. *)
Lemma projection_round_trip (Xc A B : array2) (N n : nat) :
  (1 <= N)%nat -> (1 <= n)%nat ->
  rect N n Xc -> rect n n A -> rect n n B ->
  matmul A (transpose B) = identity n ->
  (wide <- np_dot (transpose A) (transpose Xc) ;; Some (transpose wide))
  = Some (matmul Xc A) /\
  rect N n (matmul Xc A) /\
  np_dot (matmul Xc A) (transpose B) = Some Xc.
Proof.
  intros HN Hn HXc HA HB Hid.
  pose proof (transpose_rect_shape n n A HA Hn) as HAt.
  pose proof (transpose_rect_shape n n B HB Hn) as HBt.
  pose proof (transpose_rect_shape N n Xc HXc HN) as HXt.
  destruct (np_dot_rect n n N _ _ HAt HXt Hn Hn) as [Hdot _].
  destruct (np_dot_rect N n n Xc A HXc HA HN Hn) as [_ HXA].
  destruct (np_dot_rect N n n _ _ HXA HBt HN Hn) as [Hback _].
  split; [|split; [assumption|]].
  - rewrite Hdot; cbn [bind]; apply f_equal.
    rewrite <- (transpose_matmul N n n Xc A HXc HA HN Hn Hn).
    now apply (transpose_involutive N n).
  - rewrite Hback; apply f_equal.
    rewrite (matmul_assoc N n n n Xc A (transpose B) HXc HA HBt HN Hn Hn).
    rewrite Hid; now apply (matmul_identity_r N n).
Qed.

Lemma py_slice_from_zero {A : Type} (l : list A) : py_slice_from 0 l = l.
Proof. reflexivity. Qed.

(** X9: when the truncation keeps the whole spectrum and the eigenvector
    matrix is orthogonal with positive eigenvalues, [_pca] succeeds and
    [_inverse_pca], with the matrix that [inverse_pca] selects, gives the
    original data back. *)
Theorem inverse_pca_undoes_full_pca (X : array2) (N n : nat) (method : string)
  (cumulative_energy eigenvalues_cutoff : R) (pca_dim : Z)
  (scale_evecs : bool) (eigvals : array1) (eigvecs : array2) :
  (2 <= N)%nat -> (2 <= n)%nat -> rect N n X ->
  linalg_eigh (sample_covariance X) = Some (eigvals, eigvecs) ->
  length eigvals = n -> rect n n eigvecs ->
  matmul eigvecs (transpose eigvecs) = identity n ->
  Forall (fun x => 0 < x) eigvals ->
  _pca_eigvals_trunc eigvals method cumulative_energy eigenvalues_cutoff
    pca_dim = Some eigvals ->
  exists (X_pca scaled_eigvecs_inv scaled_eigvecs : array2) (means : array1),
    _pca linalg_eigh X method cumulative_energy eigenvalues_cutoff pca_dim
      scale_evecs
    = Some (X_pca, scaled_eigvecs_inv, scaled_eigvecs, eigvecs, means,
            eigvals, eigvals) /\
    rect N n X_pca /\
    _inverse_pca X_pca (if scale_evecs then scaled_eigvecs_inv else eigvecs)
      means = Some X.
Proof.
  intros HN Hn HX Heigh Hlen HV Horth Hpos Htrunc.
  assert (HN1 : (1 <= N)%nat) by lia.
  assert (Hn1 : (1 <= n)%nat) by lia.
  pose (mu := fun j => sum_n N (fun i => entry X i j) / INR N).
  pose (means := mk_array1 n mu).
  pose (Xc := mk_array2 N n (fun i j => entry X i j - mu j)).
  assert (Hmeans : np_mean0 X = Some means)
    by exact (proj1 (pca_covariance X N n HN Hn HX)).
  assert (Hcentre : bcast_rows Rminus X means = Some Xc)
    by exact (proj1 (proj2 (pca_covariance X N n HN Hn HX))).
  assert (Hcov : np_cov (transpose Xc) = Some (Cov2 (sample_covariance X)))
    by exact (proj2 (proj2 (pca_covariance X N n HN Hn HX))).
  assert (HXc : rect N n Xc) by apply mk_array2_rect.
  set (sq := map sqrt eigvals).
  assert (Hlsq : length sq = n) by (unfold sq; now rewrite length_map).
  assert (Hsq : forall k, (k < n)%nat -> 0 < item sq k).
  { intros k Hk; unfold sq, item.
    rewrite (nth_map_in sqrt eigvals k 0 0) by lia.
    apply sqrt_lt_R0.
    rewrite Forall_forall in Hpos; apply Hpos, nth_In; lia. }
  assert (Hsqnz : Forall (fun x => x <> 0) sq).
  { apply Forall_forall; intros x Hx.
    apply (In_nth _ _ 0) in Hx as (k & Hk & <-).
    rewrite Hlsq in Hk; specialize (Hsq k Hk); unfold item in Hsq; lra. }
  assert (Hsqrt : all_some (map np_sqrt eigvals) = Some sq).
  { apply all_some_map; intros x Hx; unfold np_sqrt.
    rewrite Forall_forall in Hpos; specialize (Hpos x Hx).
    destruct (Rle_dec 0 x); [reflexivity | lra]. }
  set (S := mk_array2 n n (fun j k => entry eigvecs j k / item sq k)).
  set (Sinv := mk_array2 n n (fun j k => entry eigvecs j k * item sq k)).
  assert (HS : rect n n S) by apply mk_array2_rect.
  assert (HSinv : rect n n Sinv) by apply mk_array2_rect.
  assert (Hscaled : matmul S (transpose Sinv) = identity n).
  { rewrite <- Horth.
    pose proof (transpose_rect_shape n n Sinv HSinv Hn1) as HSt.
    pose proof (transpose_rect_shape n n eigvecs HV Hn1) as HVt.
    rewrite (matmul_rect n n n S _ HS HSt Hn1 Hn1).
    rewrite (matmul_rect n n n eigvecs _ HV HVt Hn1 Hn1).
    apply mk_array2_ext; intros j k Hj Hk.
    apply sum_n_ext; intros l Hl.
    unfold Sinv; rewrite transpose_mk_array2 by assumption.
    rewrite (transpose_rect n n eigvecs HV Hn1).
    unfold S; rewrite !entry_mk_array2 by assumption.
    specialize (Hsq l Hl); field; lra. }
  assert (Hback : bcast_rows Rplus Xc means = Some X).
  { rewrite (bcast_rows_rect Rplus Xc means N n HN1 HXc (mk_array1_length _ _)).
    apply f_equal, (rect_ext N n); [apply mk_array2_rect | assumption |].
    intros i j Hi Hj; rewrite entry_mk_array2 by assumption.
    unfold Xc, means; rewrite entry_mk_array2, item_mk_array1 by assumption.
    ring. }
  exists (matmul Xc (if scale_evecs then S else eigvecs)), Sinv, S, means.
  assert (Hproj :
            exists A, A = (if scale_evecs then S else eigvecs) /\ rect n n A /\
                      matmul A (transpose (if scale_evecs then Sinv else eigvecs))
                      = identity n).
  { destruct scale_evecs; eexists; split; try reflexivity; split; assumption. }
  destruct Hproj as (A & HAeq & HA & HAid).
  assert (HB : rect n n (if scale_evecs then Sinv else eigvecs))
    by (destruct scale_evecs; assumption).
  destruct (projection_round_trip Xc A _ N n HN1 Hn1 HXc HA HB HAid)
    as (Hfwd & Hrect & Hinv).
  rewrite <- HAeq.
  split; [|split; [assumption|]].
  - unfold _pca, shape.
    rewrite Hmeans; cbn [bind]; rewrite Hcentre; cbn [bind].
    rewrite Hcov; cbn [bind]; rewrite Heigh; cbn [bind].
    rewrite Htrunc; cbn [bind].
    rewrite (rect_ncols _ _ _ HX HN1), Hlen, Z.sub_diag.
    rewrite (map_id_on (py_slice_from 0) eigvecs)
      by (intros; apply py_slice_from_zero).
    rewrite Hsqrt; cbn [bind].
    rewrite (bcast_rows_div_rect eigvecs sq n n Hn1 HV Hlsq Hsqnz); cbn [bind].
    rewrite (bcast_rows_rect Rmult eigvecs sq n n Hn1 HV Hlsq); cbn [bind].
    fold S; fold Sinv.
    assert (Hbranch :
              (if scale_evecs
               then wide <- np_dot (transpose S) (transpose Xc) ;;
                    Some (transpose wide)
               else wide <- np_dot (transpose eigvecs) (transpose Xc) ;;
                    Some (transpose wide))
              = Some (matmul Xc A)).
    { rewrite <- Hfwd, HAeq; destruct scale_evecs; reflexivity. }
    rewrite Hbranch; reflexivity.
  - unfold _inverse_pca; rewrite Hinv; cbn [bind]; exact Hback.
Qed.

End WithEigh.

Lemma inverse_pca_undoes_full_pca_witness :
  (2 <= 4)%nat /\ (2 <= 2)%nat /\ rect 4 2 [[1; 0]; [-1; 0]; [0; 1]; [0; -1]] /\
  (fun _ : array2 => Some ([2 / 3; 2 / 3], identity 2))
    (sample_covariance [[1; 0]; [-1; 0]; [0; 1]; [0; -1]])
  = Some ([2 / 3; 2 / 3], identity 2) /\
  length [2 / 3; 2 / 3] = 2%nat /\ rect 2 2 (identity 2) /\
  matmul (identity 2) (transpose (identity 2)) = identity 2 /\
  Forall (fun x => 0 < x) [2 / 3; 2 / 3] /\
  _pca_eigvals_trunc [2 / 3; 2 / 3] "pca_dim" 1 0 2 = Some [2 / 3; 2 / 3] /\
  exists (X_pca scaled_eigvecs_inv scaled_eigvecs : array2) (means : array1),
    _pca (fun _ : array2 => Some ([2 / 3; 2 / 3], identity 2))
      [[1; 0]; [-1; 0]; [0; 1]; [0; -1]] "pca_dim" 1 0 2 true
    = Some (X_pca, scaled_eigvecs_inv, scaled_eigvecs, identity 2, means,
            [2 / 3; 2 / 3], [2 / 3; 2 / 3]) /\
    rect 4 2 X_pca /\
    _inverse_pca X_pca scaled_eigvecs_inv means
    = Some [[1; 0]; [-1; 0]; [0; 1]; [0; -1]].
Proof.
  assert (H1 : (2 <= 4)%nat) by lia.
  assert (H2 : (2 <= 2)%nat) by lia.
  assert (H3 : rect 4 2 [[1; 0]; [-1; 0]; [0; 1]; [0; -1]])
    by (split; [reflexivity | repeat constructor]).
  assert (H4 : (fun _ : array2 => Some ([2 / 3; 2 / 3], identity 2))
                 (sample_covariance [[1; 0]; [-1; 0]; [0; 1]; [0; -1]])
               = Some ([2 / 3; 2 / 3], identity 2))
    by reflexivity.
  assert (H5 : length [2 / 3; 2 / 3] = 2%nat) by reflexivity.
  assert (H6 : rect 2 2 (identity 2)) by apply identity_rect.
  assert (H7 : matmul (identity 2) (transpose (identity 2)) = identity 2).
  { cbn; repeat (f_equal; try lra). }
  assert (H8 : Forall (fun x => 0 < x) [2 / 3; 2 / 3])
    by (repeat constructor; lra).
  assert (H9 : _pca_eigvals_trunc [2 / 3; 2 / 3] "pca_dim" 1 0 2
               = Some [2 / 3; 2 / 3]) by reflexivity.
  split; [exact H1|]. split; [exact H2|]. split; [exact H3|].
  split; [exact H4|]. split; [exact H5|]. split; [exact H6|].
  split; [exact H7|]. split; [exact H8|]. split; [exact H9|].
  exact (inverse_pca_undoes_full_pca
           (fun _ : array2 => Some ([2 / 3; 2 / 3], identity 2))
           [[1; 0]; [-1; 0]; [0; 1]; [0; -1]] 4 2 "pca_dim" 1 0 2 true
           [2 / 3; 2 / 3] (identity 2) H1 H2 H3 H4 H5 H6 H7 H8 H9).
Defined.

Lemma pca_single_feature_raises_witness :
  (1 <= 2)%nat /\ rect 2 1 [[1]; [2]] /\
  _pca (fun _ : array2 => Some ([1], [[1]])) [[1]; [2]] "cum_energy" 1 0 1 true
  = None.
Proof.
  assert (H1 : (1 <= 2)%nat) by lia.
  assert (H2 : rect 2 1 [[1]; [2]])
    by (split; [reflexivity | repeat constructor]).
  split; [exact H1|]. split; [exact H2|].
  exact (pca_single_feature_raises (fun _ : array2 => Some ([1], [[1]]))
           [[1]; [2]] 2 "cum_energy" 1 0 1 true H1 H2).
Defined.

(** * Diffusion maps: the basis *)

Lemma map2_sym_sum (f : R -> R -> R) (r r' : array1) :
  (forall x y, f x y = f y x) ->
  Rsum (map2 f r r') = Rsum (map2 f r' r).
Proof.
  intros Hf; revert r'; induction r as [|x r IH]; intros [|y r'];
    try reflexivity.
  cbn [map2]; rewrite !Rsum_cons, IH, Hf; reflexivity.
Qed.

Lemma dmaps_kernel_sym (H : array2) (epsilon : R) (i j : nat) :
  dmaps_kernel H epsilon i j = dmaps_kernel H epsilon j i.
Proof.
  unfold dmaps_kernel; do 3 f_equal.
  apply map2_sym_sum; intros x y.
  rewrite <- (Rabs_Ropp (x - y)); do 2 f_equal; ring.
Qed.

Lemma dmaps_kernel_pos (H : array2) (epsilon : R) (i j : nat) :
  0 < dmaps_kernel H epsilon i j.
Proof. apply exp_pos. Qed.

Lemma dmaps_degree_pos (H : array2) (epsilon : R) (j : nat) :
  (1 <= nrows H)%nat -> 0 < dmaps_degree H epsilon j.
Proof.
  intros HN; apply sum_n_pos; [assumption|].
  intros; apply dmaps_kernel_pos.
Qed.

(** A table built by two nested [map]s over the rows. *)
Lemma rows_table (F : array1 -> array1 -> R) (H : array2) (N : nat) :
  length H = N ->
  map (fun a => map (fun row => F row a) H) H
  = mk_array2 N N (fun a i => F (nth i H []) (nth a H [])).
Proof.
  intros Hlen; unfold mk_array2, mk_array1.
  apply (nth_ext _ _ [] []); [now rewrite !length_map, length_seq|].
  intros a Ha; rewrite length_map in Ha.
  rewrite (nth_map_in _ H a [] []) by assumption.
  rewrite (nth_map_in _ (seq 0 N) a 0%nat []) by (rewrite length_seq; lia).
  rewrite seq_nth by lia; cbn [Nat.add].
  apply (nth_ext _ _ 0 0); [now rewrite !length_map, length_seq|].
  intros i Hi; rewrite length_map in Hi.
  rewrite (nth_map_in _ H i [] 0) by assumption.
  rewrite (nth_map_in _ (seq 0 N) i 0%nat 0) by (rewrite length_seq; lia).
  rewrite seq_nth by lia; reflexivity.
Qed.

Lemma np_sum0_table (N n : nat) (f : nat -> nat -> R) :
  (1 <= N)%nat ->
  np_sum0 (mk_array2 N n f) = mk_array1 n (fun j => sum_n N (fun i => f i j)).
Proof.
  intros HN; unfold np_sum0; rewrite ncols_mk_array2 by assumption.
  unfold mk_array1 at 1; apply map_ext_in; intros j Hj.
  apply in_seq in Hj.
  rewrite column_mk_array2 by lia; reflexivity.
Qed.

Lemma outer_div_table (N : nat) (f : nat -> nat -> R) (s : nat -> R) :
  (1 <= N)%nat -> (forall i, (i < N)%nat -> s i <> 0) ->
  outer_div (mk_array2 N N f) (mk_array1 N s)
  = Some (mk_array2 N N (fun i j => f i j / (s i * s j))).
Proof.
  intros HN Hs; unfold outer_div.
  rewrite nrows_mk_array2, ncols_mk_array2, mk_array1_length, Nat.eqb_refl
    by assumption.
  cbn [andb].
  change (mk_array2 N N f) with (map (fun i => mk_array1 N (f i)) (seq 0 N)).
  change (mk_array1 N s) with (map s (seq 0 N)).
  rewrite (map2_map_map
             (fun row vi =>
                all_some (map2 (fun x vj => div x (vi * vj)) row
                            (map s (seq 0 N))))).
  apply all_some_map_seq; intros i Hi.
  unfold mk_array1.
  rewrite (map2_map_map (fun x vj => div x (s i * vj))).
  apply all_some_map_seq; intros j Hj.
  apply div_defined.
  apply Rmult_integral_contrapositive; split; auto.
Qed.

Lemma bcast_cols_div_rect (A : array2) (N n : nat) (s : nat -> R) :
  rect N n A -> (forall i, (i < N)%nat -> s i <> 0) ->
  bcast_cols_div A (mk_array1 N s)
  = Some (mk_array2 N n (fun i j => entry A i j / s i)).
Proof.
  intros HA Hs; unfold bcast_cols_div.
  rewrite (rect_nrows _ _ _ HA), mk_array1_length, Nat.eqb_refl.
  transitivity (all_some (map2 vec_div_scalar (mk_array2 N n (entry A))
                            (mk_array1 N s))).
  { do 2 f_equal; now apply rect_as_mk_array2. }
  change (mk_array2 N n (entry A))
    with (map (fun i => mk_array1 n (entry A i)) (seq 0 N)).
  change (mk_array1 N s) with (map s (seq 0 N)).
  rewrite (map2_map_map vec_div_scalar).
  apply all_some_map_seq; intros i Hi.
  rewrite vec_div_scalar_defined by auto.
  now rewrite map_mk_array1.
Qed.

(** The inverse of a diagonal matrix without a zero on its diagonal. *)
Lemma np_diag_inverse (N : nat) (d : nat -> R) :
  (1 <= N)%nat -> (forall i, (i < N)%nat -> d i <> 0) ->
  linalg_inv (np_diag (mk_array1 N d))
  = Some (mk_array2 N N (fun i j => if (i =? j)%nat then / d i else 0)).
Proof.
  intros HN Hd; apply linalg_inv_spec.
  unfold np_diag; rewrite mk_array1_length.
  set (D := mk_array2 N N
              (fun i j => if (i =? j)%nat then item (mk_array1 N d) i else 0)).
  set (W := mk_array2 N N (fun i j => if (i =? j)%nat then / d i else 0)).
  assert (HD : rect N N D) by apply mk_array2_rect.
  assert (HW : rect N N W) by apply mk_array2_rect.
  exists N; split; [assumption|]. split; [assumption|].
  split.
  - rewrite (matmul_rect N N N D W HD HW HN HN).
    unfold identity; apply mk_array2_ext; intros i j Hi Hj.
    rewrite (sum_n_ext N _
               (fun k => (if (i =? k)%nat then 1 else 0)
                         * (if (k =? j)%nat then d i * / d i else 0))).
    2:{ intros k Hk; unfold D, W; rewrite !entry_mk_array2 by assumption.
        rewrite item_mk_array1 by assumption.
        destruct (Nat.eqb_spec i k) as [-> | Hik];
          destruct (Nat.eqb_spec k j) as [-> | Hkj]; ring. }
    rewrite sum_n_delta_l by assumption.
    destruct (Nat.eqb_spec i j); [field; auto | reflexivity].
  - rewrite (matmul_rect N N N W D HW HD HN HN).
    unfold identity; apply mk_array2_ext; intros i j Hi Hj.
    rewrite (sum_n_ext N _
               (fun k => (if (i =? k)%nat then 1 else 0)
                         * (if (k =? j)%nat then / d i * d i else 0))).
    2:{ intros k Hk; unfold D, W; rewrite !entry_mk_array2 by assumption.
        destruct (Nat.eqb_spec i k) as [-> | Hik];
          destruct (Nat.eqb_spec k j) as [-> | Hkj];
          try ring.
        rewrite item_mk_array1 by assumption; ring. }
    rewrite sum_n_delta_l by assumption.
    destruct (Nat.eqb_spec i j); [field; auto | reflexivity].
Qed.

Section BasisValue.

Variable linalg_eigh : array2 -> option (array1 * array2).

(** The value of [_get_dmaps_basis]: the matrix handed to [np.linalg.eigh]
    is the normalised kernel, and the basis is read off its eigenpairs. *)
Lemma dmaps_basis_value (H : array2) (N nu : nat) (epsilon : R) (kappa : nat)
  (values : array1) (vectors : array2) :
  (1 <= N)%nat -> rect N nu H -> epsilon <> 0 ->
  linalg_eigh (dmaps_normalized_kernel H epsilon) = Some (values, vectors) ->
  length values = N -> rect N N vectors ->
  _get_dmaps_basis linalg_eigh H epsilon kappa
  = Some (map (@rev R)
            (mk_array2 N N (fun i j =>
               entry vectors i j / sqrt (dmaps_degree H epsilon i)
               * item values j ^ kappa)),
          rev values, map (@rev R) vectors).
Proof.
  intros HN HH Heps Heigh Hlen HV.
  pose proof (rect_nrows _ _ _ HH) as HNr.
  assert (HNH : (1 <= nrows H)%nat) by lia.
  unfold _get_dmaps_basis.
  rewrite (rows_table
             (fun row a => Rsum (map2 (fun x y => Rabs (x - y) ^ 2) row a))
             H N HNr).
  rewrite map_map_mk_array2.
  rewrite arr_div_scalar_mk_array2 by assumption; cbn [bind].
  rewrite map_map_mk_array2.
  change (mk_array2 N N
            (fun i j =>
               exp (- Rsum (map2 (fun x y => Rabs (x - y) ^ 2)
                              (nth j H []) (nth i H [])) / epsilon)))
    with (mk_array2 N N (dmaps_kernel H epsilon)).
  rewrite np_sum0_table by assumption.
  assert (Hdeg : mk_array1 N
                   (fun j => sum_n N (fun i => dmaps_kernel H epsilon i j))
                 = mk_array1 N (dmaps_degree H epsilon)).
  { unfold dmaps_degree; now rewrite HNr. }
  rewrite Hdeg.
  set (s := fun i => sqrt (dmaps_degree H epsilon i)).
  assert (Hspos : forall i, 0 < s i).
  { intros i; apply sqrt_lt_R0; now apply dmaps_degree_pos. }
  assert (Hscales :
            all_some (map (fun x => float_pow x (1 / 2))
                        (mk_array1 N (dmaps_degree H epsilon)))
            = Some (mk_array1 N s)).
  { unfold mk_array1; rewrite map_map.
    apply all_some_map_seq; intros j _.
    rewrite float_pow_pos by (now apply dmaps_degree_pos).
    rewrite sqrt_as_power by (now apply dmaps_degree_pos); reflexivity. }
  rewrite Hscales; cbn [bind].
  rewrite map_mk_array1.
  rewrite np_diag_inverse; [|assumption|].
  2:{ intros i _; specialize (Hspos i); apply pow_nonzero; lra. }
  cbn [bind].
  unfold np_dot at 1.
  rewrite ncols_mk_array2, nrows_mk_array2, Nat.eqb_refl by assumption.
  cbn [bind].
  rewrite outer_div_table; [|assumption|].
  2:{ intros i _; specialize (Hspos i); lra. }
  cbn [bind].
  assert (Hnorm : mk_array2 N N
                    (fun i j => dmaps_kernel H epsilon i j / (s i * s j))
                  = dmaps_normalized_kernel H epsilon).
  { unfold dmaps_normalized_kernel; now rewrite HNr. }
  rewrite Hnorm, Heigh; cbn [bind].
  rewrite (bcast_cols_div_rect vectors N N s HV).
  2:{ intros i _; specialize (Hspos i); lra. }
  cbn [bind].
  assert (Hpow : map (fun v => v ^ kappa) values
                 = mk_array1 N (fun j => item values j ^ kappa)).
  { rewrite (vec_as_table values N Hlen) at 1; apply map_mk_array1. }
  rewrite Hpow, bcast_rows_mk_array2 by assumption; cbn [bind].
  reflexivity.
Qed.

End BasisValue.

Lemma map_rev_rect (A : array2) (r c : nat) :
  rect r c A -> rect r c (map (@rev R) A).
Proof.
  intros HA; apply rect_map; [assumption|].
  intros row Hin; rewrite length_rev; now apply (rect_row r c A).
Qed.

Lemma entry_map_rev (A : array2) (r c i j : nat) :
  rect r c A -> (i < r)%nat -> (j < c)%nat ->
  entry (map (@rev R) A) i j = entry A i (c - 1 - j).
Proof.
  intros [Hlen Hrows] Hi Hj; unfold entry.
  rewrite (nth_map_in _ A i [] []) by lia.
  assert (Hrow : length (nth i A []) = c).
  { rewrite Forall_forall in Hrows; apply Hrows, nth_In; lia. }
  rewrite rev_nth by lia.
  f_equal; lia.
Qed.

Section Basis.

Variable linalg_eigh : array2 -> option (array1 * array2).

(** X12: for a kernel width different from zero, the matrix that
    [_get_dmaps_basis] hands to the symmetric eigensolver is symmetric, and
    the function returns the eigenpairs in reversed order with the basis
    [g_ij = psi_ij * lambda_j^kappa / sqrt(d_i)], [d_i] being the degree of
    sample [i]. *)
Theorem dmaps_basis_from_symmetric_kernel (H : array2) (N nu : nat)
  (epsilon : R) (kappa : nat) (values : array1) (vectors : array2) :
  (1 <= N)%nat -> rect N nu H -> epsilon <> 0 ->
  linalg_eigh (dmaps_normalized_kernel H epsilon) = Some (values, vectors) ->
  length values = N -> rect N N vectors ->
  transpose (dmaps_normalized_kernel H epsilon)
  = dmaps_normalized_kernel H epsilon /\
  exists basis : array2,
    _get_dmaps_basis linalg_eigh H epsilon kappa
    = Some (basis, rev values, map (@rev R) vectors) /\
    rect N N basis /\
    forall i j : nat, (i < N)%nat -> (j < N)%nat ->
      entry basis i j
      = entry vectors i (N - 1 - j) / sqrt (dmaps_degree H epsilon i)
        * item values (N - 1 - j) ^ kappa.
Proof.
  intros HN HH Heps Heigh Hlen HV; split.
  - unfold dmaps_normalized_kernel.
    rewrite (rect_nrows _ _ _ HH), transpose_mk_array2 by assumption.
    apply mk_array2_ext; intros i j _ _.
    rewrite (dmaps_kernel_sym H epsilon j i); f_equal; ring.
  - eexists; split; [|split].
    + exact (dmaps_basis_value linalg_eigh H N nu epsilon kappa values vectors
               HN HH Heps Heigh Hlen HV).
    + apply map_rev_rect, mk_array2_rect.
    + intros i j Hi Hj.
      rewrite (entry_map_rev _ N N i j (mk_array2_rect _ _ _) Hi Hj).
      rewrite entry_mk_array2 by lia; reflexivity.
Qed.

End Basis.

Lemma dmaps_basis_from_symmetric_kernel_witness :
  (1 <= 2)%nat /\ rect 2 1 [[0]; [1]] /\ 1 <> 0 /\
  (fun _ : array2 => Some ([1 / 2; 1], identity 2))
    (dmaps_normalized_kernel [[0]; [1]] 1)
  = Some ([1 / 2; 1], identity 2) /\
  length [1 / 2; 1] = 2%nat /\ rect 2 2 (identity 2) /\
  transpose (dmaps_normalized_kernel [[0]; [1]] 1)
  = dmaps_normalized_kernel [[0]; [1]] 1 /\
  exists basis : array2,
    _get_dmaps_basis (fun _ : array2 => Some ([1 / 2; 1], identity 2))
      [[0]; [1]] 1 1
    = Some (basis, rev [1 / 2; 1], map (@rev R) (identity 2)) /\
    rect 2 2 basis /\
    forall i j : nat, (i < 2)%nat -> (j < 2)%nat ->
      entry basis i j
      = entry (identity 2) i (2 - 1 - j)
        / sqrt (dmaps_degree [[0]; [1]] 1 i)
        * item [1 / 2; 1] (2 - 1 - j) ^ 1.
Proof.
  assert (H1 : (1 <= 2)%nat) by lia.
  assert (H2 : rect 2 1 [[0]; [1]])
    by (split; [reflexivity | repeat constructor]).
  assert (H3 : 1 <> 0) by lra.
  assert (H4 : (fun _ : array2 => Some ([1 / 2; 1], identity 2))
                 (dmaps_normalized_kernel [[0]; [1]] 1)
               = Some ([1 / 2; 1], identity 2)) by reflexivity.
  assert (H5 : length [1 / 2; 1] = 2%nat) by reflexivity.
  assert (H6 : rect 2 2 (identity 2)) by apply identity_rect.
  split; [exact H1|]. split; [exact H2|]. split; [exact H3|].
  split; [exact H4|]. split; [exact H5|]. split; [exact H6|].
  exact (dmaps_basis_from_symmetric_kernel
           (fun _ : array2 => Some ([1 / 2; 1], identity 2))
           [[0]; [1]] 2 1 1 1 [1 / 2; 1] (identity 2) H1 H2 H3 H4 H5 H6).
Defined.

Lemma dmaps_normalized_kernel_rect (H : array2) (epsilon : R) :
  rect (nrows H) (nrows H) (dmaps_normalized_kernel H epsilon).
Proof. apply mk_array2_rect. Qed.

Lemma py_slice_nonneg {A : Type} (s e : Z) (l : list A) :
  (0 <= s)%Z -> (0 <= e)%Z ->
  py_slice s e l = skipn (Z.to_nat s) (firstn (Z.to_nat e) l).
Proof.
  intros Hs He; unfold py_slice.
  destruct (Z.ltb_spec s 0); [lia|].
  destruct (Z.ltb_spec e 0); [lia|].
  reflexivity.
Qed.

Section Driver.

Variable linalg_eigh : array2 -> option (array1 * array2).
Variables (X : array2) (N nu : nat) (kappa : nat) (L : R).
Hypotheses (HN : (1 <= N)%nat) (HX : rect N nu X).

(** The shape contract of the eigensolver: [N] values and an [N] x [N]
    matrix for an [N] x [N] argument. *)
Hypothesis eigh_shape :
  forall K : array2, rect N N K ->
    exists (values : array1) (vectors : array2),
      linalg_eigh K = Some (values, vectors) /\
      length values = N /\ rect N N vectors.

Lemma dmaps_basis_defined (epsilon : R) :
  epsilon <> 0 ->
  exists (basis : array2) (eigvals : array1) (eigvecs : array2),
    _get_dmaps_basis linalg_eigh X epsilon kappa
    = Some (basis, eigvals, eigvecs) /\
    rect N N basis /\ length eigvals = N /\ rect N N eigvecs.
Proof.
  intros Heps.
  pose proof (dmaps_normalized_kernel_rect X epsilon) as HK.
  rewrite (rect_nrows _ _ _ HX) in HK.
  destruct (eigh_shape _ HK) as (values & vectors & Heigh & Hlen & HV).
  do 3 eexists; split; [|split; [|split]].
  - exact (dmaps_basis_value linalg_eigh X N nu epsilon kappa values vectors
             HN HX Heps Heigh Hlen HV).
  - apply map_rev_rect, mk_array2_rect.
  - now rewrite length_rev.
  - now apply map_rev_rect.
Qed.

Lemma dmaps_epsilon_loop_last (m_override : Z) (epsilon : list R) :
  epsilon <> [] -> Forall (fun eps => eps <> 0) epsilon ->
  forall bound : option (array2 * array1 * array2 * Z),
  exists (basis : array2) (eigvals : array1) (eigvecs : array2),
    _get_dmaps_basis linalg_eigh X (last epsilon 0) kappa
    = Some (basis, eigvals, eigvecs) /\
    rect N N basis /\ length eigvals = N /\ rect N N eigvecs /\
    dmaps_epsilon_loop linalg_eigh X epsilon kappa L m_override bound
    = Some (Some (basis, eigvals, eigvecs,
                  if (m_override >? 0)%Z then m_override
                  else _get_dmaps_optimal_dimension eigvals L)).
Proof.
  induction epsilon as [|eps rest IH]; intros Hne Hnz bound; [congruence|].
  inversion Hnz as [|? ? Heps Hrest]; subst.
  destruct (dmaps_basis_defined eps Heps)
    as (basis & eigvals & eigvecs & Hbasis & Hb & Hl & Hv).
  destruct rest as [|eps' rest].
  - exists basis, eigvals, eigvecs; cbn [last dmaps_epsilon_loop].
    rewrite Hbasis; cbn [bind]; auto.
  - destruct (IH ltac:(discriminate) Hrest
                (Some (basis, eigvals, eigvecs,
                       if (m_override >? 0)%Z then m_override
                       else _get_dmaps_optimal_dimension eigvals L)))
      as (basis' & eigvals' & eigvecs' & Hlast & Hb' & Hl' & Hv' & Hloop).
    exists basis', eigvals', eigvecs'.
    split; [exact Hlast|]. split; [assumption|]. split; [assumption|].
    split; [assumption|].
    change (dmaps_epsilon_loop linalg_eigh X (eps :: eps' :: rest) kappa L
              m_override bound)
      with ('(basis, eigvals, eigvecs) <-
              _get_dmaps_basis linalg_eigh X eps kappa ;;
            dmaps_epsilon_loop linalg_eigh X (eps' :: rest) kappa L m_override
              (Some (basis, eigvals, eigvecs,
                     if (m_override >? 0)%Z then m_override
                     else _get_dmaps_optimal_dimension eigvals L))).
    rewrite Hbasis; cbn [bind]; exact Hloop.
Qed.

(** X14: for every kernel width different from zero the dimension is
    computed, and it lies between [min(1, N - 1)] and [N - 1]. *)
Theorem dmaps_dim_from_epsilon_in_range (epsilon : R) :
  epsilon <> 0 ->
  exists m : Z,
    _get_dmaps_dim_from_epsilon linalg_eigh X epsilon kappa L = Some m /\
    (Z.min 1 (Z.of_nat N - 1) <= m <= Z.of_nat N - 1)%Z.
Proof.
  intros Heps.
  destruct (dmaps_basis_defined epsilon Heps)
    as (basis & eigvals & eigvecs & Hbasis & _ & Hl & _).
  exists (_get_dmaps_optimal_dimension eigvals L); split.
  - unfold _get_dmaps_dim_from_epsilon; rewrite Hbasis; reflexivity.
  - rewrite <- Hl; apply optimal_dimension_range.
Qed.

(** X16: on a list of kernel widths, none of them zero, [_dmaps] returns the
    basis of the last width; the reduced basis is made of the columns
    [s, s + 1, ...] of the basis, with [s = 1] unless the first eigenvector
    is kept, and it has [min(m, N - s)] columns for the returned dimension
    [m]: exactly [m] without an override, fewer when the override exceeds
    what the basis holds. *)
Theorem dmaps_reduced_basis_columns (epsilon : list R) (first_evec : bool)
  (m_override : Z) :
  epsilon <> [] -> Forall (fun eps => eps <> 0) epsilon ->
  exists (red_basis basis : array2) (m : Z) (eigvals : array1)
         (eigvecs : array2),
    _dmaps linalg_eigh X epsilon kappa L first_evec m_override
    = Some (red_basis, basis, last epsilon 0, m, eigvals, eigvecs) /\
    _get_dmaps_basis linalg_eigh X (last epsilon 0) kappa
    = Some (basis, eigvals, eigvecs) /\
    (0 <= m)%Z /\
    let s := if first_evec then 0%nat else 1%nat in
    rect N (Nat.min (Z.to_nat m) (N - s)) red_basis /\
    (forall i j : nat, (i < N)%nat -> (j < Nat.min (Z.to_nat m) (N - s))%nat ->
       entry red_basis i j = entry basis i (j + s)) /\
    (m_override = 0%Z -> (Z.to_nat m <= N - s)%nat).
Proof.
  intros Hne Hnz.
  destruct (dmaps_epsilon_loop_last m_override epsilon Hne Hnz None)
    as (basis & eigvals & eigvecs & Hlast & Hb & Hl & Hv & Hloop).
  pose proof (optimal_dimension_range eigvals L) as Hopt; rewrite Hl in Hopt.
  set (m_opt := _get_dmaps_optimal_dimension eigvals L) in *.
  set (m0 := if (m_override >? 0)%Z then m_override else m_opt).
  set (m := if first_evec
            then (if (m_override =? 0)%Z then (m0 + 1)%Z else m0)
            else m0).
  set (s := if first_evec then 0%nat else 1%nat).
  set (e := if first_evec then m else (m + 1)%Z).
  assert (Hm0 : (0 <= m0)%Z).
  { unfold m0; destruct (Z.gtb_spec m_override 0); lia. }
  assert (Hm : (0 <= m)%Z).
  { unfold m; destruct first_evec; [|assumption].
    destruct (Z.eqb_spec m_override 0); lia. }
  assert (He : (0 <= e)%Z) by (unfold e; destruct first_evec; lia).
  assert (Hcols : (Nat.min (Z.to_nat e) N - s = Nat.min (Z.to_nat m) (N - s))%nat).
  { unfold e, s; destruct first_evec; lia. }
  set (red_basis := map (py_slice (Z.of_nat s) e) basis).
  assert (Hslice : forall row : array1,
            py_slice (Z.of_nat s) e row = skipn s (firstn (Z.to_nat e) row)).
  { intros row; rewrite py_slice_nonneg by lia; now rewrite Nat2Z.id. }
  exists red_basis, basis, m, eigvals, eigvecs.
  split; [|split; [exact Hlast|split; [exact Hm|]]].
  - unfold _dmaps; rewrite Hloop; cbn [bind].
    fold m_opt; fold m0.
    unfold red_basis, e, m, s; destruct first_evec; reflexivity.
  - cbv zeta; fold s.
    split; [|split].
    + unfold red_basis; rewrite <- Hcols.
      split; [rewrite length_map; apply Hb|].
      apply Forall_forall; intros row' Hin.
      apply in_map_iff in Hin as (row & <- & Hin).
      rewrite Hslice, length_skipn, length_firstn.
      now rewrite (rect_row _ _ _ _ Hb Hin).
    + intros i j Hi Hj; unfold red_basis, entry.
      destruct Hb as [Hlb Hrb].
      rewrite (nth_map_in _ basis i [] []) by lia.
      rewrite Hslice, nth_skipn, nth_firstn.
      destruct (Nat.ltb_spec (s + j) (Z.to_nat e)) as [_ | Hge];
        [f_equal; lia | lia].
    + intros Hzero; unfold m, m0, s; rewrite Hzero.
      destruct first_evec; cbn [Z.gtb Z.compare Z.eqb]; lia.
Qed.

End Driver.

Lemma dmaps_dim_from_epsilon_in_range_witness :
  (1 <= 2)%nat /\ rect 2 1 [[0]; [1]] /\
  (forall K : array2, rect 2 2 K ->
     exists (values : array1) (vectors : array2),
       (fun _ : array2 => Some ([1 / 2; 1], identity 2)) K
       = Some (values, vectors) /\
       length values = 2%nat /\ rect 2 2 vectors) /\
  1 <> 0 /\
  exists m : Z,
    _get_dmaps_dim_from_epsilon
      (fun _ : array2 => Some ([1 / 2; 1], identity 2)) [[0]; [1]] 1 1 (1 / 10)
    = Some m /\
    (Z.min 1 (Z.of_nat 2 - 1) <= m <= Z.of_nat 2 - 1)%Z.
Proof.
  assert (H1 : (1 <= 2)%nat) by lia.
  assert (H2 : rect 2 1 [[0]; [1]])
    by (split; [reflexivity | repeat constructor]).
  assert (H3 : forall K : array2, rect 2 2 K ->
     exists (values : array1) (vectors : array2),
       (fun _ : array2 => Some ([1 / 2; 1], identity 2)) K
       = Some (values, vectors) /\
       length values = 2%nat /\ rect 2 2 vectors).
  { intros K _; exists [1 / 2; 1], (identity 2).
    split; [reflexivity|]. split; [reflexivity | apply identity_rect]. }
  assert (H4 : 1 <> 0) by lra.
  split; [exact H1|]. split; [exact H2|]. split; [exact H3|].
  split; [exact H4|].
  exact (dmaps_dim_from_epsilon_in_range
           (fun _ : array2 => Some ([1 / 2; 1], identity 2))
           [[0]; [1]] 2 1 1 (1 / 10) H1 H2 H3 1 H4).
Defined.

Lemma dmaps_reduced_basis_columns_witness :
  (1 <= 2)%nat /\ rect 2 1 [[0]; [1]] /\
  (forall K : array2, rect 2 2 K ->
     exists (values : array1) (vectors : array2),
       (fun _ : array2 => Some ([1 / 2; 1], identity 2)) K
       = Some (values, vectors) /\
       length values = 2%nat /\ rect 2 2 vectors) /\
  [1; 2] <> [] /\ Forall (fun eps => eps <> 0) [1; 2] /\
  exists (red_basis basis : array2) (m : Z) (eigvals : array1)
         (eigvecs : array2),
    _dmaps (fun _ : array2 => Some ([1 / 2; 1], identity 2)) [[0]; [1]]
      [1; 2] 1 (1 / 10) false 5
    = Some (red_basis, basis, last [1; 2] 0, m, eigvals, eigvecs) /\
    _get_dmaps_basis (fun _ : array2 => Some ([1 / 2; 1], identity 2))
      [[0]; [1]] (last [1; 2] 0) 1
    = Some (basis, eigvals, eigvecs) /\
    (0 <= m)%Z /\
    rect 2 (Nat.min (Z.to_nat m) (2 - 1)) red_basis /\
    (forall i j : nat, (i < 2)%nat -> (j < Nat.min (Z.to_nat m) (2 - 1))%nat ->
       entry red_basis i j = entry basis i (j + 1)) /\
    (5%Z = 0%Z -> (Z.to_nat m <= 2 - 1)%nat).
Proof.
  assert (H1 : (1 <= 2)%nat) by lia.
  assert (H2 : rect 2 1 [[0]; [1]])
    by (split; [reflexivity | repeat constructor]).
  assert (H3 : forall K : array2, rect 2 2 K ->
     exists (values : array1) (vectors : array2),
       (fun _ : array2 => Some ([1 / 2; 1], identity 2)) K
       = Some (values, vectors) /\
       length values = 2%nat /\ rect 2 2 vectors).
  { intros K _; exists [1 / 2; 1], (identity 2).
    split; [reflexivity|]. split; [reflexivity | apply identity_rect]. }
  assert (H4 : [1; 2] <> []) by discriminate.
  assert (H5 : Forall (fun eps => eps <> 0) [1; 2])
    by (repeat constructor; lra).
  split; [exact H1|]. split; [exact H2|]. split; [exact H3|].
  split; [exact H4|]. split; [exact H5|].
  exact (dmaps_reduced_basis_columns
           (fun _ : array2 => Some ([1 / 2; 1], identity 2))
           [[0]; [1]] 2 1 1 (1 / 10) H1 H2 H3 [1; 2] false 5 H4 H5).
Defined.

(** * PCA: the normalised coordinates *)

Lemma sum_n_mult (n m : nat) (a b : nat -> R) :
  sum_n n a * sum_n m b = sum_n n (fun j => sum_n m (fun j' => a j * b j')).
Proof.
  rewrite <- sum_n_scal_r.
  apply sum_n_ext; intros j _; now rewrite sum_n_scal.
Qed.

Lemma map_skipn_table (V : array2) (n k : nat) :
  rect n n V -> (k <= n)%nat ->
  map (skipn k) V = mk_array2 n (n - k) (fun j l => entry V j (k + l)).
Proof.
  intros [Hlen Hrows] Hk; unfold mk_array2, mk_array1.
  apply (nth_ext _ _ [] []); [now rewrite !length_map, length_seq|].
  intros j Hj; rewrite length_map in Hj.
  rewrite (nth_map_in _ V j [] []) by assumption.
  rewrite (nth_map_in _ (seq 0 n) j 0%nat []) by (rewrite length_seq; lia).
  rewrite seq_nth by lia; cbn [Nat.add].
  assert (Hrow : length (nth j V []) = n).
  { rewrite Forall_forall in Hrows; apply Hrows, nth_In; lia. }
  apply (nth_ext _ _ 0 0);
    [now rewrite length_skipn, length_map, length_seq, Hrow|].
  intros l Hl; rewrite length_skipn, Hrow in Hl.
  rewrite nth_skipn.
  rewrite (nth_map_in _ (seq 0 (n - k)) l 0%nat 0) by (now rewrite length_seq).
  rewrite seq_nth by assumption; reflexivity.
Qed.

Lemma projection_value (Xc A : array2) (N n nu : nat) :
  (1 <= N)%nat -> (1 <= n)%nat -> (1 <= nu)%nat ->
  rect N n Xc -> rect n nu A ->
  (wide <- np_dot (transpose A) (transpose Xc) ;; Some (transpose wide))
  = Some (matmul Xc A) /\
  rect N nu (matmul Xc A).
Proof.
  intros HN Hn Hnu HXc HA.
  pose proof (transpose_rect_shape n nu A HA Hn) as HAt.
  pose proof (transpose_rect_shape N n Xc HXc HN) as HXt.
  destruct (np_dot_rect nu n N _ _ HAt HXt Hnu Hn) as [Hdot _].
  destruct (np_dot_rect N n nu Xc A HXc HA HN Hn) as [_ HXA].
  split; [|assumption].
  rewrite Hdot; cbn [bind]; apply f_equal.
  rewrite <- (transpose_matmul N n nu Xc A HXc HA HN Hn Hnu).
  now apply (transpose_involutive N nu).
Qed.

Section Whitening.

Variable linalg_eigh : array2 -> option (array1 * array2).

(** X10: on the eigenpairs of the covariance (orthonormal eigenvectors [V]
    with [C V = V diag(lambda)]), when the truncation keeps the [n - k] last
    eigenvalues and these are positive, the coordinates that [_pca] returns
    with [scale_evecs] have columns of mean zero and the identity as their
    sample covariance. *)
Theorem pca_coordinates_are_white (X : array2) (N n k : nat) (method : string)
  (cumulative_energy eigenvalues_cutoff : R) (pca_dim : Z)
  (eigvals : array1) (eigvecs : array2) :
  (2 <= N)%nat -> (2 <= n)%nat -> (k < n)%nat -> rect N n X ->
  linalg_eigh (sample_covariance X) = Some (eigvals, eigvecs) ->
  length eigvals = n -> rect n n eigvecs ->
  matmul (sample_covariance X) eigvecs = matmul eigvecs (np_diag eigvals) ->
  matmul (transpose eigvecs) eigvecs = identity n ->
  _pca_eigvals_trunc eigvals method cumulative_energy eigenvalues_cutoff
    pca_dim = Some (skipn k eigvals) ->
  Forall (fun x => 0 < x) (skipn k eigvals) ->
  exists (X_pca scaled_eigvecs_inv scaled_eigvecs kept : array2)
         (means : array1),
    _pca linalg_eigh X method cumulative_energy eigenvalues_cutoff pca_dim true
    = Some (X_pca, scaled_eigvecs_inv, scaled_eigvecs, kept, means, eigvals,
            skipn k eigvals) /\
    rect N (n - k) X_pca /\
    (forall l : nat, (l < n - k)%nat -> np_mean (column X_pca l) = Some 0) /\
    sample_covariance X_pca = identity (n - k).
Proof.
  intros HN Hn Hk HX Heigh Hlen HV Heq Horth Htrunc Hpos.
  assert (HN1 : (1 <= N)%nat) by lia.
  assert (Hn1 : (1 <= n)%nat) by lia.
  set (nu := (n - k)%nat).
  assert (Hnu : (1 <= nu)%nat) by (unfold nu; lia).
  assert (HNr : 0 < INR N - 1).
  { assert (2 <= INR N) by (apply (le_INR 2); assumption); lra. }
  assert (HNpos : 0 < INR N) by lra.
  pose (mu := fun j => sum_n N (fun i => entry X i j) / INR N).
  pose (means := mk_array1 n mu).
  pose (xc := fun i j => entry X i j - mu j).
  pose (Xc := mk_array2 N n xc).
  assert (Hmeans : np_mean0 X = Some means)
    by exact (proj1 (pca_covariance X N n HN Hn HX)).
  assert (Hcentre : bcast_rows Rminus X means = Some Xc)
    by exact (proj1 (proj2 (pca_covariance X N n HN Hn HX))).
  assert (Hcov : np_cov (transpose Xc) = Some (Cov2 (sample_covariance X)))
    by exact (proj2 (proj2 (pca_covariance X N n HN Hn HX))).
  assert (HXc : rect N n Xc) by apply mk_array2_rect.
  assert (Hxc0 : forall j, sum_n N (fun i => xc i j) = 0).
  { intros j; unfold xc; rewrite sum_n_minus, sum_n_const.
    unfold mu; field; lra. }
  (* the kept eigenpairs *)
  pose (lam := fun l => item eigvals (k + l)).
  pose (sq := fun l => sqrt (lam l)).
  assert (Hlk : length (skipn k eigvals) = nu)
    by (rewrite length_skipn, Hlen; reflexivity).
  assert (Hlam : forall l, (l < nu)%nat -> 0 < lam l).
  { intros l Hl; unfold lam, item; rewrite <- nth_skipn.
    rewrite Forall_forall in Hpos; apply Hpos, nth_In; lia. }
  assert (Hsq : forall l, (l < nu)%nat -> 0 < sq l).
  { intros l Hl; apply sqrt_lt_R0; auto. }
  assert (Hsqsq : forall l, (l < nu)%nat -> sq l * sq l = lam l).
  { intros l Hl; apply sqrt_sqrt; left; auto. }
  assert (Hkept : skipn k eigvals = mk_array1 nu lam).
  { rewrite (vec_as_table (skipn k eigvals) nu Hlk).
    apply mk_array1_ext; intros l Hl; unfold lam, item; apply nth_skipn. }
  assert (Hsqrt : all_some (map np_sqrt (skipn k eigvals))
                  = Some (mk_array1 nu sq)).
  { rewrite Hkept; unfold mk_array1; rewrite map_map.
    apply all_some_map_seq; intros l Hl.
    apply np_sqrt_nonneg; left; auto. }
  pose (Vk := mk_array2 n nu (fun j l => entry eigvecs j (k + l))).
  pose (S := mk_array2 n nu (fun j l => entry eigvecs j (k + l) / sq l)).
  pose (Sinv := mk_array2 n nu (fun j l => entry eigvecs j (k + l) * sq l)).
  assert (HVk : rect n nu Vk) by apply mk_array2_rect.
  assert (HS : rect n nu S) by apply mk_array2_rect.
  assert (Hslice : map (py_slice_from (Z.of_nat k)) eigvecs = Vk).
  { unfold Vk, nu; rewrite <- (map_skipn_table eigvecs n k HV) by lia.
    apply map_ext; intros row; unfold py_slice_from.
    destruct (Z.ltb_spec (Z.of_nat k) 0); [lia|].
    now rewrite Nat2Z.id. }
  assert (Hscaled : bcast_rows_div Vk (mk_array1 nu sq) = Some S).
  { rewrite (bcast_rows_div_rect Vk _ n nu Hn1 HVk (mk_array1_length _ _)).
    - apply f_equal, mk_array2_ext; intros j l Hj Hl.
      unfold Vk; now rewrite entry_mk_array2, item_mk_array1.
    - apply Forall_forall; intros x Hx.
      apply in_map_iff in Hx as (l & <- & Hl); apply in_seq in Hl.
      assert (0 < sq l) by (apply Hsq; lia); lra. }
  assert (Hscaledinv : bcast_rows Rmult Vk (mk_array1 nu sq) = Some Sinv).
  { unfold Vk; now rewrite bcast_rows_mk_array2. }
  destruct (projection_value Xc S N n nu HN1 Hn1 Hnu HXc HS) as [Hproj HY].
  set (Y := matmul Xc S) in *.
  pose (y := fun i l => sum_n n (fun j => xc i j * (entry eigvecs j (k + l) / sq l))).
  assert (HYt : Y = mk_array2 N nu y).
  { unfold Y; rewrite (matmul_rect N n nu Xc S HXc HS HN1 Hn1).
    apply mk_array2_ext; intros i l Hi Hl.
    apply sum_n_ext; intros j Hj.
    unfold Xc, S; now rewrite !entry_mk_array2. }
  assert (Hy0 : forall l, sum_n N (fun i => y i l) = 0).
  { intros l; unfold y; rewrite sum_n_swap.
    rewrite (sum_n_ext n _ (fun _ => 0)); [apply sum_n_zero|].
    intros j _; rewrite sum_n_scal_r, Hxc0; ring. }
  (* the eigen-equation and the orthonormality, entry by entry *)
  pose (C := fun j j' => sum_n N (fun i => xc i j * xc i j') / (INR N - 1)).
  assert (HC : sample_covariance X = mk_array2 n n C).
  { unfold sample_covariance.
    now rewrite (rect_nrows _ _ _ HX), (rect_ncols _ _ _ HX HN1). }
  assert (Hev : forall j c, (j < n)%nat -> (c < n)%nat ->
            sum_n n (fun j' => C j j' * entry eigvecs j' c)
            = entry eigvecs j c * item eigvals c).
  { intros j c Hj Hc.
    assert (Hl : entry (matmul (sample_covariance X) eigvecs) j c
                 = sum_n n (fun j' => C j j' * entry eigvecs j' c)).
    { rewrite HC.
      rewrite (matmul_rect n n n _ _ (mk_array2_rect _ _ _) HV Hn1 Hn1).
      rewrite entry_mk_array2 by assumption.
      apply sum_n_ext; intros j' Hj'; now rewrite entry_mk_array2. }
    assert (Hr : entry (matmul eigvecs (np_diag eigvals)) j c
                 = entry eigvecs j c * item eigvals c).
    { unfold np_diag; rewrite Hlen.
      rewrite (matmul_rect n n n _ _ HV (mk_array2_rect _ _ _) Hn1 Hn1).
      rewrite entry_mk_array2 by assumption.
      rewrite (sum_n_ext n _
                 (fun c' => entry eigvecs j c' * item eigvals c'
                            * (if (c' =? c)%nat then 1 else 0))).
      - now rewrite sum_n_delta_r.
      - intros c' Hc'; rewrite entry_mk_array2 by assumption.
        destruct (c' =? c)%nat; ring. }
    rewrite <- Hl, Heq; exact Hr. }
  assert (Hon : forall c c', (c < n)%nat -> (c' < n)%nat ->
            sum_n n (fun j => entry eigvecs j c * entry eigvecs j c')
            = if (c =? c')%nat then 1 else 0).
  { intros c c' Hc Hc'.
    assert (Hl : entry (matmul (transpose eigvecs) eigvecs) c c'
                 = sum_n n (fun j => entry eigvecs j c * entry eigvecs j c')).
    { rewrite (transpose_rect n n eigvecs HV Hn1).
      rewrite (matmul_rect n n n _ _ (mk_array2_rect _ _ _) HV Hn1 Hn1).
      rewrite entry_mk_array2 by assumption.
      apply sum_n_ext; intros j Hj; now rewrite entry_mk_array2. }
    rewrite <- Hl, Horth; unfold identity; now rewrite entry_mk_array2. }
  exists Y, Sinv, S, Vk, means.
  split; [|split; [exact HY|split]].
  - unfold _pca, shape.
    rewrite Hmeans; cbn [bind]; rewrite Hcentre; cbn [bind].
    rewrite Hcov; cbn [bind]; rewrite Heigh; cbn [bind].
    rewrite Htrunc; cbn [bind].
    rewrite (rect_ncols _ _ _ HX HN1), Hlk.
    replace (Z.of_nat n - Z.of_nat nu)%Z with (Z.of_nat k)
      by (unfold nu; lia).
    rewrite Hslice, Hsqrt; cbn [bind].
    rewrite Hscaled; cbn [bind]; rewrite Hscaledinv; cbn [bind].
    rewrite Hproj; reflexivity.
  - intros l Hl; rewrite HYt, column_mk_array2 by assumption.
    rewrite np_mean_table by assumption.
    rewrite Hy0; f_equal; unfold Rdiv; ring.
  - unfold sample_covariance.
    rewrite (rect_nrows _ _ _ HY), (rect_ncols _ _ _ HY HN1).
    unfold identity; apply mk_array2_ext; intros l l' Hl Hl'.
    rewrite HYt.
    rewrite (sum_n_ext N _ (fun i => y i l * y i l')).
    2:{ intros i Hi; rewrite !entry_mk_array2 by assumption.
        rewrite (sum_n_ext N (fun i0 => entry (mk_array2 N nu y) i0 l) (fun i0 => y i0 l))
          by (intros; now rewrite entry_mk_array2).
        rewrite (sum_n_ext N (fun i0 => entry (mk_array2 N nu y) i0 l') (fun i0 => y i0 l'))
          by (intros; now rewrite entry_mk_array2).
        rewrite !Hy0; unfold Rdiv; ring. }
    pose (Sf := fun j l => entry eigvecs j (k + l) / sq l).
    assert (Hgram : sum_n N (fun i => y i l * y i l')
                    = (INR N - 1)
                      * sum_n n (fun j =>
                          Sf j l * sum_n n (fun j' => C j j' * Sf j' l'))).
    { rewrite (sum_n_ext N _
                 (fun i => sum_n n (fun j => sum_n n (fun j' =>
                    xc i j * Sf j l * (xc i j' * Sf j' l')))))
        by (intros i _; unfold y; apply sum_n_mult).
      rewrite sum_n_swap.
      rewrite <- sum_n_scal.
      apply sum_n_ext; intros j _.
      rewrite sum_n_swap.
      rewrite <- sum_n_scal, <- sum_n_scal.
      apply sum_n_ext; intros j' _.
      rewrite (sum_n_ext N _
                 (fun i => xc i j * xc i j' * (Sf j l * Sf j' l')))
        by (intros; ring).
      rewrite sum_n_scal_r; unfold C; field; lra. }
    rewrite Hgram.
    rewrite (sum_n_ext n _
               (fun j => entry eigvecs j (k + l) * entry eigvecs j (k + l')
                         * (sq l' / sq l))).
    2:{ intros j Hj.
        rewrite (sum_n_ext n _
                   (fun j' => C j j' * entry eigvecs j' (k + l') * / sq l'))
          by (intros; unfold Sf, Rdiv; ring).
        rewrite sum_n_scal_r, Hev by (unfold nu in *; lia).
        fold (lam l'); rewrite <- (Hsqsq l' Hl').
        pose proof (Hsq l Hl); pose proof (Hsq l' Hl').
        unfold Sf; field; split; lra. }
    rewrite sum_n_scal_r, Hon by (unfold nu in *; lia).
    pose proof (Hsq l Hl) as Hsl.
    destruct (Nat.eqb_spec l l') as [-> | Hne].
    + rewrite Nat.eqb_refl; field; split; lra.
    + destruct (Nat.eqb_spec (k + l) (k + l')); [lia|].
      field; split; lra.
Qed.

End Whitening.

Lemma pca_coordinates_are_white_witness :
  (2 <= 4)%nat /\
  (2 <= 2)%nat /\
  (1 < 2)%nat /\
  rect 4 2 [[1; 0]; [-1; 0]; [0; 1]; [0; -1]] /\
  (fun _ : array2 => Some ([2 / 3; 2 / 3], identity 2))
      (sample_covariance [[1; 0]; [-1; 0]; [0; 1]; [0; -1]])
    = Some ([2 / 3; 2 / 3], identity 2) /\
  length [2 / 3; 2 / 3] = 2%nat /\
  rect 2 2 (identity 2) /\
  matmul (sample_covariance [[1; 0]; [-1; 0]; [0; 1]; [0; -1]]) (identity 2)
    = matmul (identity 2) (np_diag [2 / 3; 2 / 3]) /\
  matmul (transpose (identity 2)) (identity 2) = identity 2 /\
  _pca_eigvals_trunc [2 / 3; 2 / 3] "pca_dim" 1 0 1
    = Some (skipn 1 [2 / 3; 2 / 3]) /\
  Forall (fun x => 0 < x) (skipn 1 [2 / 3; 2 / 3]) /\
  exists (X_pca scaled_eigvecs_inv scaled_eigvecs kept : array2)
         (means : array1),
    _pca (fun _ : array2 => Some ([2 / 3; 2 / 3], identity 2))
      [[1; 0]; [-1; 0]; [0; 1]; [0; -1]] "pca_dim" 1 0 1 true
    = Some (X_pca, scaled_eigvecs_inv, scaled_eigvecs, kept, means,
            [2 / 3; 2 / 3], skipn 1 [2 / 3; 2 / 3]) /\
    rect 4 (2 - 1) X_pca /\
    (forall l : nat, (l < 2 - 1)%nat -> np_mean (column X_pca l) = Some 0) /\
    sample_covariance X_pca = identity (2 - 1).
Proof.
  assert (H1 : (2 <= 4)%nat) by lia.
  assert (H2 : (2 <= 2)%nat) by lia.
  assert (H3 : (1 < 2)%nat) by lia.
  assert (H4 : rect 4 2 [[1; 0]; [-1; 0]; [0; 1]; [0; -1]]) by (split; [reflexivity | repeat constructor]).
  assert (H5 : (fun _ : array2 => Some ([2 / 3; 2 / 3], identity 2))
      (sample_covariance [[1; 0]; [-1; 0]; [0; 1]; [0; -1]])
    = Some ([2 / 3; 2 / 3], identity 2)) by reflexivity.
  assert (H6 : length [2 / 3; 2 / 3] = 2%nat) by reflexivity.
  assert (H7 : rect 2 2 (identity 2)) by (apply identity_rect).
  assert (H8 : matmul (sample_covariance [[1; 0]; [-1; 0]; [0; 1]; [0; -1]]) (identity 2)
    = matmul (identity 2) (np_diag [2 / 3; 2 / 3])) by (cbn; repeat (f_equal; try field)).
  assert (H9 : matmul (transpose (identity 2)) (identity 2) = identity 2) by (cbn; repeat (f_equal; try lra)).
  assert (H10 : _pca_eigvals_trunc [2 / 3; 2 / 3] "pca_dim" 1 0 1
    = Some (skipn 1 [2 / 3; 2 / 3])) by reflexivity.
  assert (H11 : Forall (fun x => 0 < x) (skipn 1 [2 / 3; 2 / 3])) by (repeat constructor; lra).
  split; [exact H1|].
  split; [exact H2|].
  split; [exact H3|].
  split; [exact H4|].
  split; [exact H5|].
  split; [exact H6|].
  split; [exact H7|].
  split; [exact H8|].
  split; [exact H9|].
  split; [exact H10|].
  split; [exact H11|].
  exact (pca_coordinates_are_white
           (fun _ : array2 => Some ([2 / 3; 2 / 3], identity 2))
           [[1; 0]; [-1; 0]; [0; 1]; [0; -1]] 4 2 1 "pca_dim" 1 0 1
           [2 / 3; 2 / 3] (identity 2) H1 H2 H3 H4 H5 H6 H7 H8 H9 H10 H11).
Defined.

(** ** The spectrum of three samples on a line *)

Lemma exp_four (x : R) : exp (4 * x) = exp x ^ 4.
Proof.
  replace (4 * x) with (x + (x + (x + x))) by ring.
  rewrite !exp_plus; ring.
Qed.

(** [x = N / r] and [N = c * r ^ 2] give [x = c * r]. *)
Lemma scaled_eq (x y N c r d : R) :
  0 < r -> r * r = d -> x = N / r -> y = c * r -> N = c * d -> x = y.
Proof.
  intros Hr Hd -> -> ->; subst d; field; lra.
Qed.

(** The kernel of [three_points]: 1 on the diagonal, [a] between neighbours
    and [a ^ 4] between the end points, [a = exp (- s ^ 2 / eps)]. *)
Lemma three_point_kernel (s eps : R) (i j : nat) :
  eps <> 0 -> (i < 3)%nat -> (j < 3)%nat ->
  dmaps_kernel (three_points s) eps i j
  = entry [[1; exp (- s ^ 2 / eps); exp (- s ^ 2 / eps) ^ 4];
           [exp (- s ^ 2 / eps); 1; exp (- s ^ 2 / eps)];
           [exp (- s ^ 2 / eps) ^ 4; exp (- s ^ 2 / eps); 1]] i j.
Proof.
  intros Heps Hi Hj.
  assert (Hi' : i = 0%nat \/ i = 1%nat \/ i = 2%nat) by lia.
  assert (Hj' : j = 0%nat \/ j = 1%nat \/ j = 2%nat) by lia.
  destruct Hi' as [-> | [-> | ->]], Hj' as [-> | [-> | ->]];
    unfold dmaps_kernel, three_points, entry;
    cbn [nth map2 Rsum fold_right];
    rewrite pow2_abs;
    try rewrite <- exp_four;
    try (rewrite <- exp_0 at 1);
    try (rewrite <- exp_0);
    f_equal; field; exact Heps.
Qed.

Lemma three_point_degree (s eps : R) (j : nat) :
  eps <> 0 -> (j < 3)%nat ->
  dmaps_degree (three_points s) eps j
  = item [1 + exp (- s ^ 2 / eps) + exp (- s ^ 2 / eps) ^ 4;
          1 + 2 * exp (- s ^ 2 / eps);
          1 + exp (- s ^ 2 / eps) + exp (- s ^ 2 / eps) ^ 4] j.
Proof.
  intros Heps Hj.
  unfold dmaps_degree.
  change (nrows (three_points s)) with 3%nat.
  rewrite !sum_n_S, sum_n_O.
  rewrite !three_point_kernel by (assumption || lia).
  assert (Hj' : j = 0%nat \/ j = 1%nat \/ j = 2%nat) by lia.
  destruct Hj' as [-> | [-> | ->]]; unfold entry, item; cbn [nth]; ring.
Qed.

(** The entries of [three_point_spectrum], in ascending order, are the
    eigenvalues of the matrix that [_get_dmaps_basis] hands to
    [np.linalg.eigh] for [three_points]: with the columns of
    [three_point_vectors] for eigenvectors, [A V = V diag(values)]. *)
Lemma three_point_spectrum_eigenpairs (s eps : R) (i j : nat) :
  eps <> 0 -> (i < 3)%nat -> (j < 3)%nat ->
  sum_n 3 (fun k =>
             entry (dmaps_normalized_kernel (three_points s) eps) i k
             * entry (three_point_vectors s eps) k j)
  = item (rev (three_point_spectrum s eps)) j
    * entry (three_point_vectors s eps) i j.
Proof.
  intros Heps Hi Hj.
  unfold dmaps_normalized_kernel.
  change (nrows (three_points s)) with 3%nat.
  rewrite !sum_n_S, sum_n_O.
  rewrite !entry_mk_array2 by (assumption || lia).
  rewrite !three_point_kernel, !three_point_degree by (assumption || lia).
  unfold three_point_vectors, three_point_spectrum.
  assert (Hi' : i = 0%nat \/ i = 1%nat \/ i = 2%nat) by lia.
  assert (Hj' : j = 0%nat \/ j = 1%nat \/ j = 2%nat) by lia.
  pose proof (exp_pos (- s ^ 2 / eps)) as Ha.
  destruct Hi' as [-> | [-> | ->]], Hj' as [-> | [-> | ->]];
    unfold entry, item; cbn [nth rev app];
    set (a := exp (- s ^ 2 / eps)) in *; clearbody a;
    assert (Ha4 : 0 < a ^ 4) by (apply pow_lt; exact Ha);
    assert (Hd0 : 0 < 1 + a + a ^ 4) by lra;
    assert (Hd1 : 0 < 1 + 2 * a) by lra;
    pose proof (sqrt_lt_R0 _ Hd0) as Hr0;
    pose proof (sqrt_lt_R0 _ Hd1) as Hr1;
    pose proof (sqrt_sqrt (1 + a + a ^ 4) ltac:(lra)) as Hs0;
    pose proof (sqrt_sqrt (1 + 2 * a) ltac:(lra)) as Hs1;
    set (r0 := sqrt (1 + a + a ^ 4)) in *; clearbody r0;
    set (r1 := sqrt (1 + 2 * a)) in *; clearbody r1.
  - apply (scaled_eq _ _
             ((1 + 2 * a) - 2 * a * (1 + a + a ^ 4) + a ^ 4 * (1 + 2 * a))
             ((1 - a ^ 2) ^ 2 / ((1 + a + a ^ 4) * (1 + 2 * a)) * (1 + 2 * a))
             r0 (1 + a + a ^ 4) Hr0 Hs0);
      field; repeat split; lra.
  - apply (scaled_eq _ _ (1 - a ^ 4) ((1 - a ^ 4) / (1 + a + a ^ 4))
             r0 (1 + a + a ^ 4) Hr0 Hs0);
      field; repeat split; lra.
  - apply (scaled_eq _ _ (1 + a + a ^ 4) 1 r0 (1 + a + a ^ 4) Hr0 Hs0);
      field; repeat split; lra.
  - apply (scaled_eq _ _
             (2 * a * (1 + 2 * a) - 2 * (1 + a + a ^ 4))
             ((1 - a ^ 2) ^ 2 / ((1 + a + a ^ 4) * (1 + 2 * a))
              * (- 2 * (1 + a + a ^ 4)))
             r1 (1 + 2 * a) Hr1 Hs1);
      field; repeat split; lra.
  - field; repeat split; lra.
  - apply (scaled_eq _ _ (1 + 2 * a) 1 r1 (1 + 2 * a) Hr1 Hs1);
      field; repeat split; lra.
  - apply (scaled_eq _ _
             ((1 + 2 * a) - 2 * a * (1 + a + a ^ 4) + a ^ 4 * (1 + 2 * a))
             ((1 - a ^ 2) ^ 2 / ((1 + a + a ^ 4) * (1 + 2 * a)) * (1 + 2 * a))
             r0 (1 + a + a ^ 4) Hr0 Hs0);
      field; repeat split; lra.
  - apply (scaled_eq _ _ (a ^ 4 - 1) (- ((1 - a ^ 4) / (1 + a + a ^ 4)))
             r0 (1 + a + a ^ 4) Hr0 Hs0);
      field; repeat split; lra.
  - apply (scaled_eq _ _ (1 + a + a ^ 4) 1 r0 (1 + a + a ^ 4) Hr0 Hs0);
      field; repeat split; lra.
Qed.

(** The three eigenvalues are distinct, and [three_point_spectrum] lists
    them in descending order. *)
Lemma three_point_spectrum_descending (s eps : R) :
  s <> 0 -> 0 < eps ->
  0 < item (three_point_spectrum s eps) 2
    < item (three_point_spectrum s eps) 1
  /\ item (three_point_spectrum s eps) 1
     < item (three_point_spectrum s eps) 0.
Proof.
  intros Hs Heps.
  pose proof (three_point_kernel_range s eps Hs Heps) as Ha.
  unfold three_point_spectrum, item; cbn [nth].
  set (a := exp (- s ^ 2 / eps)) in *.
  assert (Ha2 : 0 < a ^ 2 < 1) by nra.
  assert (Ha4 : 0 < a ^ 4 < 1).
  { replace (a ^ 4) with (a ^ 2 * a ^ 2) by ring; nra. }
  assert (Hd0 : 0 < 1 + a + a ^ 4) by lra.
  assert (Hd1 : 0 < 1 + 2 * a) by lra.
  assert (Hprod : 0 < (1 + a + a ^ 4) * (1 + 2 * a))
    by (apply Rmult_lt_0_compat; assumption).
  repeat split.
  - apply Rdiv_lt_0_compat; [|exact Hprod]. nra.
  - apply (Rmult_lt_reg_r ((1 + a + a ^ 4) * (1 + 2 * a))); [exact Hprod|].
    replace ((1 - a ^ 2) ^ 2 / ((1 + a + a ^ 4) * (1 + 2 * a))
             * ((1 + a + a ^ 4) * (1 + 2 * a)))
      with ((1 - a ^ 2) * (1 - a ^ 2)) by (field; split; lra).
    replace ((1 - a ^ 4) / (1 + a + a ^ 4)
             * ((1 + a + a ^ 4) * (1 + 2 * a)))
      with ((1 - a ^ 2) * ((1 + a ^ 2) * (1 + 2 * a))) by (field; lra).
    apply Rmult_lt_compat_l; [lra | nra].
  - apply (Rmult_lt_reg_r (1 + a + a ^ 4)); [exact Hd0|].
    unfold Rdiv; rewrite Rmult_assoc, Rinv_l by lra. lra.
Qed.

Section ThreePointDimension.

Variable linalg_eigh : array2 -> option (array1 * array2).

(** When [np.linalg.eigh] returns these eigenvalues, in ascending order, for
    the normalised kernel of [three_points],
    [_get_dmaps_dim_from_epsilon] is [three_point_dimension]. *)
Lemma three_point_dimension_computed (s eps L : R) (kappa : nat)
  (vectors : array2) :
  eps <> 0 -> rect 3 3 vectors ->
  linalg_eigh (dmaps_normalized_kernel (three_points s) eps)
  = Some (rev (three_point_spectrum s eps), vectors) ->
  _get_dmaps_dim_from_epsilon linalg_eigh (three_points s) eps kappa L
  = Some (three_point_dimension s L eps).
Proof.
  intros Heps HV Heigh.
  unfold _get_dmaps_dim_from_epsilon.
  rewrite (dmaps_basis_value linalg_eigh (three_points s) 3 1 eps kappa
             (rev (three_point_spectrum s eps)) vectors);
    try assumption; try lia.
  - cbn [bind]; rewrite rev_involutive; reflexivity.
  - split; [reflexivity|].
    unfold three_points; constructor; [reflexivity|].
    constructor; [reflexivity|].
    constructor; [reflexivity | constructor].
  - reflexivity.
Qed.

End ThreePointDimension.
